(** * Greenlight: release records, soft delete and schema migration

    A shallow embedding of the persistence layer of the Greenlight release
    dashboard (database.js: [initializeDatabase], [createInitialSchema],
    [applyMigrations], [fetchRecentReleases], [fetchReleaseById],
    [createRelease], [deleteRelease]) and of the two route handlers that call
    the migration guard (routes.js: [handleGetReleases],
    [handleCreateRelease]).

    The program talks to two Cloudflare bindings: a D1 (SQLite) database and a
    KV namespace.  Both are modelled as explicit state in a [World]; the
    asynchronous calls are sequenced by a state-and-exception monad [M].

    A text is kept as the bytes of its UTF-8 encoding. *)

From Stdlib Require Import ZArith String Ascii List Bool Lia.
From Stdlib Require Import Sorting.Sorted Sorting.Permutation.
From stdpp Require Import base option list gmap strings.

Local Open Scope string_scope.
Local Open Scope list_scope.
Local Open Scope Z_scope.

(** ** JavaScript values used by the guard *)

Module Js.

(** A value that the program binds to a statement or reads from a JSON
    body: a text, [null], or [undefined] (a property that is not there). *)
Inductive value :=
| undefined
| null
| text (s : string).

Global Instance value_eq_dec : EqDecision value.
Proof. solve_decision. Defined.

(** A text or [null] as a value. *)
Definition of_option (o : option string) : value :=
  match o with
  | Some s => text s
  | None => null
  end.

(** What reaches the engine of a value that D1 accepts: the text, or NULL. *)
Definition sql (v : value) : option string :=
  match v with
  | text s => Some s
  | _ => None
  end.

Definition is_undefined (v : value) : bool :=
  match v with
  | undefined => true
  | _ => false
  end.

(** The white space of ASCII: TAB, LF, VT, FF, CR and SP. *)
Definition is_space (c : ascii) : bool :=
  match nat_of_ascii c with
  | 9%nat | 10%nat | 11%nat | 12%nat | 13%nat | 32%nat => true
  | _ => false
  end.

Definition byte (c : ascii) : Z := Z.of_nat (nat_of_ascii c).

(** U+00A0 in UTF-8. *)
Definition space_of_two (c1 c2 : ascii) : bool :=
  (byte c1 =? 194) && (byte c2 =? 160).

(** U+1680, U+2000 to U+200A, U+2028, U+2029, U+202F, U+205F, U+3000 and
    U+FEFF in UTF-8. *)
Definition space_of_three (c1 c2 c3 : ascii) : bool :=
  (byte c1 =? 225) && (byte c2 =? 154) && (byte c3 =? 128)
  || (byte c1 =? 226) && (byte c2 =? 128)
     && ((128 <=? byte c3) && (byte c3 <=? 138)
         || (byte c3 =? 168) || (byte c3 =? 169) || (byte c3 =? 175))
  || (byte c1 =? 226) && (byte c2 =? 129) && (byte c3 =? 159)
  || (byte c1 =? 227) && (byte c2 =? 128) && (byte c3 =? 128)
  || (byte c1 =? 239) && (byte c2 =? 187) && (byte c3 =? 191).

(** The text after the white space character with which [s] begins, when it
    begins with one.  The white space of [String.prototype.trim] and of
    [parseInt] is WhiteSpace and LineTerminator: the six ASCII characters
    and the code points named above. *)
Definition white_space (s : string) : option string :=
  match s with
  | String c1 s1 =>
      if is_space c1 then Some s1
      else match s1 with
           | String c2 s2 =>
               if space_of_two c1 c2 then Some s2
               else match s2 with
                    | String c3 s3 => if space_of_three c1 c2 c3 then Some s3 else None
                    | EmptyString => None
                    end
           | EmptyString => None
           end
  | EmptyString => None
  end.

(** At most [n] leading white space characters removed. *)
Fixpoint skip_white_space (n : nat) (s : string) : string :=
  match n with
  | O => s
  | S n' =>
      match white_space s with
      | Some rest => skip_white_space n' rest
      | None => s
      end
  end.

(** [s.trimStart()]: a text has no more white space characters than
    bytes. *)
Definition trim_start (s : string) : string := skip_white_space (String.length s) s.

(** Value of a character as a digit in the given radix, if it is one. *)
Definition digit (radix : Z) (c : ascii) : option Z :=
  let n := Z.of_nat (nat_of_ascii c) in
  let d := if (48 <=? n) && (n <=? 57) then Some (n - 48)
           else if (97 <=? n) && (n <=? 122) then Some (n - 87)
           else if (65 <=? n) && (n <=? 90) then Some (n - 55)
           else None in
  match d with
  | Some v => if v <? radix then Some v else None
  | None => None
  end.

(** The longest prefix of digits, read in [radix]; [None] when it is empty. *)
Fixpoint digits (radix : Z) (s : string) (acc : option Z) : option Z :=
  match s with
  | String c s' =>
      match digit radix c with
      | Some d => digits radix s' (Some (radix * default 0 acc + d))
      | None => acc
      end
  | EmptyString => acc
  end.

Definition unsigned (s : string) : option Z :=
  match s with
  | String "0" (String "x" s') | String "0" (String "X" s') => digits 16 s' None
  | _ => digits 10 s None
  end.

(** [parseInt(v)] with no radix, for [v] a string or [null].  [None] is NaN
    ([parseInt(null)] reads the text "null", which has no digit).  The result is
    kept as an exact integer: the guard only compares it with 0 and 2, and
    rounding to a double never moves a value across those. *)
Definition parseInt (v : option string) : option Z :=
  match v with
  | None => None
  | Some s =>
      match trim_start s with
      | String "-" s' => Z.opp <$> unsigned s'
      | String "+" s' => unsigned s'
      | s' => unsigned s'
      end
  end.

(** [n || 0] on a number: NaN and 0 are falsy. *)
Definition or_zero (n : option Z) : Z := default 0 n.

(** [v || null], as it reaches the engine: [undefined], [null] and the empty
    text are falsy. *)
Definition or_null (v : value) : option string :=
  match v with
  | text "" => None
  | text s => Some s
  | _ => None
  end.

(** [s.split(',')]. *)
Fixpoint split_comma_aux (cur : string) (s : string) : list string :=
  match s with
  | EmptyString => [cur]
  | String c s' =>
      if Ascii.eqb c ","%char then cur :: split_comma_aux "" s'
      else split_comma_aux (cur +:+ String c "") s'
  end.

Definition split_comma (s : string) : list string := split_comma_aux "" s.

(** Truthiness of a text, [None] being [null] or [undefined]. *)
Definition truthy (s : option string) : bool :=
  match s with
  | None | Some "" => false
  | Some _ => true
  end.

End Js.

(** ** Rows of the two tables *)

(** Time stamps: [CURRENT_TIMESTAMP] yields the text 'YYYY-MM-DD HH:MM:SS' in
    UTC; texts of that shape compare like the instants they denote, so a time
    stamp is kept as the number of seconds it denotes. *)
Abbreviation Timestamp := Z.

(** A value of the column [release_date].  The column is declared DATE, which
    gives it NUMERIC affinity: a text that reads as a number is stored as
    that number, every other text as it is.  [DateNumber l] is the number
    that the engine reads from the text [l]; which INTEGER or REAL that is
    is not modelled, so two such values are not told apart by the number
    they stand for. *)
Inductive DateValue :=
| DateText (s : string)
| DateNumber (literal : string).

Global Instance DateValue_eq_dec : EqDecision DateValue.
Proof. solve_decision. Defined.

(** A row of [releases].  Columns declared NOT NULL carry a value, the others
    an option ([None] is SQL NULL).  [release_type] is [None] exactly while
    the table has no such column (schema version 1). *)
Record Release := mkRelease {
  r_id : Z;
  release_date : DateValue;
  status : string;
  release_type : option string;
  explanation : option string;
  created_by : string;
  created_at : option Timestamp;
  updated_by : option string;
  updated_at : option Timestamp;
  deleted_at : option Timestamp;
  deleted_by : option string
}.

(** A row of [excluded_tickets]. *)
Record ExcludedTicket := mkTicket {
  t_id : Z;
  t_release_id : Z;
  ticket_key : string;
  ticket_summary : option string;
  ticket_url : option string;
  t_created_by : string;
  t_created_at : option Timestamp
}.

(** A row of the two SELECTs of the repository: [r.*] and the three
    GROUP_CONCAT columns. *)
Record ReleaseRecord := mkRecord {
  release : Release;
  excluded_tickets : option string;
  ticket_summaries : option string;
  ticket_urls : option string
}.

Global Instance Release_eq_dec : EqDecision Release.
Proof. solve_decision. Defined.
Global Instance ExcludedTicket_eq_dec : EqDecision ExcludedTicket.
Proof. solve_decision. Defined.
Global Instance ReleaseRecord_eq_dec : EqDecision ReleaseRecord.
Proof. solve_decision. Defined.

(** ** The D1 database

    The model covers the tables this program creates and the nine statements
    it prepares.  A table named [releases] or [excluded_tickets], when it
    exists, is the one made by [createInitialSchema], with or without the
    column added by [applyMigrations].  What is taken from SQLite and D1:
    AUTOINCREMENT hands out the largest rowid ever used plus one;
    [last_insert_rowid()] is the rowid of the latest INSERT that succeeded;
    foreign keys are enforced; the NOT NULL constraints of a row are tested
    in the order of the columns, before its CHECK constraints; a CHECK on a
    null value passes; a column declared DATE has NUMERIC affinity; a table
    is scanned in rowid order; the join of the listing, which has no index
    to use, goes through an automatic covering index on the columns of
    [excluded_tickets] that the query reads. *)

Record ReleasesTable := mkReleases {
  has_release_type : bool;      (* the column of schema version 2 is there *)
  rows : list Release;          (* in rowid order *)
  seq : Z                       (* AUTOINCREMENT: largest rowid ever used *)
}.

Record TicketsTable := mkTickets {
  t_rows : list ExcludedTicket;
  t_seq : Z
}.

Record Database := mkDatabase {
  tbl_releases : option ReleasesTable;
  tbl_excluded_tickets : option TicketsTable;
  last_insert_rowid : Z
}.

Definition empty_database : Database := mkDatabase None None 0.

(** The statements of database.js with their bound parameters.  A bound
    parameter is a value or [None] for null.  [InsertRelease] takes the
    release type as [Some v] when the statement names the column (schema
    version 2 code) and [None] when it does not (schema version 1 code). *)
Inductive Statement :=
| CreateReleases
| CreateExcludedTickets
| AddReleaseType
| SelectRecent (limit : Z)
| SelectById (releaseId : Z)
| InsertRelease (date status : option string) (type : option (option string))
    (expl user : option string)
| SelectLastInsertRowid
| InsertTicket (releaseId : Z) (key summary url user : option string)
| SoftDelete (user : option string) (releaseId : Z).

Inductive Row :=
| RowRelease (r : ReleaseRecord)
| RowId (id : Z).

(** What [run()] and [all()] resolve to.  D1 resolves with [success: true]
    whenever the statement ran and throws otherwise; the number of rows an
    UPDATE or INSERT wrote is [meta.changes], which database.js never reads. *)
Record D1Result := mkResult {
  success : bool;
  changes : Z;
  results : list Row
}.

Definition ran (n : Z) : D1Result := mkResult true n [].
Definition selected (rs : list Row) : D1Result := mkResult true 0 rs.

Module Sql.

(** The result codes of a statement that fails, and the failure as D1
    reports it: the message of the engine and its result code. *)
Inductive Code :=
| SQLITE_ERROR
| SQLITE_CONSTRAINT.

Inductive Failure :=
| failed (code : Code) (message : string).

Definition code_name (c : Code) : string :=
  match c with
  | SQLITE_ERROR => "SQLITE_ERROR"
  | SQLITE_CONSTRAINT => "SQLITE_CONSTRAINT"
  end.

Definition no_such_table (name : string) : Failure :=
  failed SQLITE_ERROR ("no such table: " +:+ name).

Definition not_null (column : string) : Failure :=
  failed SQLITE_CONSTRAINT ("NOT NULL constraint failed: " +:+ column).

Definition check (expression : string) : Failure :=
  failed SQLITE_CONSTRAINT ("CHECK constraint failed: " +:+ expression).

Definition STATUSES : list string := ["GO"; "NO_GO"].
Definition RELEASE_TYPES : list string := ["FULL"; "HOTFIX"].
Definition DEFAULT_RELEASE_TYPE : string := "FULL".

(** *** NUMERIC affinity

    A text is converted when the whole of it reads as a number: white space
    (of ASCII), a sign, digits with or without a point, an exponent, white
    space, the digits before and after the point not both missing and an
    exponent not without digits. *)

Fixpoint skip_spaces (s : string) : string :=
  match s with
  | String c s' => if Js.is_space c then skip_spaces s' else s
  | EmptyString => EmptyString
  end.

Definition is_digit (c : ascii) : bool :=
  (48 <=? Js.byte c) && (Js.byte c <=? 57).

(** The text after the leading digits, and whether there was one. *)
Fixpoint skip_digits (s : string) : bool * string :=
  match s with
  | String c s' => if is_digit c then (true, snd (skip_digits s')) else (false, s)
  | EmptyString => (false, EmptyString)
  end.

Definition skip_sign (s : string) : string :=
  match s with
  | String "+" s' | String "-" s' => s'
  | _ => s
  end.

Definition skip_fraction (s : string) : bool * string :=
  match s with
  | String "." s' => skip_digits s'
  | _ => (false, s)
  end.

(** The text after the exponent, and whether it is well formed (none is). *)
Definition skip_exponent (s : string) : bool * string :=
  match s with
  | String "e" s' | String "E" s' => skip_digits (skip_sign s')
  | _ => (true, s)
  end.

Definition numeric_literal (s : string) : bool :=
  let whole := skip_digits (skip_sign (skip_spaces s)) in
  let fraction := skip_fraction (snd whole) in
  let exponent := skip_exponent (snd fraction) in
  (fst whole || fst fraction) && fst exponent
  && bool_decide (skip_spaces (snd exponent) = EmptyString).

(** What the column [release_date] stores of a text. *)
Definition affinity (d : string) : DateValue :=
  if numeric_literal d then DateNumber d else DateText d.

Definition one_of (l : list string) (v : string) : bool := bool_decide (v ∈ l).

(** GROUP_CONCAT: the non-null values joined by commas, in the order the rows
    are visited (rowid order); NULL when there is no non-null value. *)
Definition group_concat (vs : list (option string)) : option string :=
  match omap (λ v, v) vs with
  | [] => None
  | l => Some (String.concat "," l)
  end.

Definition tickets_of (ts : list ExcludedTicket) (rid : Z) : list ExcludedTicket :=
  filter (λ t, t_release_id t = rid) ts.

(** One group of [releases r LEFT JOIN excluded_tickets et ON r.id =
    et.release_id GROUP BY r.id], the tickets of the release being visited
    in the order [g]: ids are unique (PRIMARY KEY), so every release row is
    its own group. *)
Definition grouped (r : Release) (g : list ExcludedTicket) : ReleaseRecord :=
  {| release := r;
     excluded_tickets := group_concat ((λ t, Some (ticket_key t)) <$> g);
     ticket_summaries := group_concat (ticket_summary <$> g);
     ticket_urls := group_concat (ticket_url <$> g) |}.

(** The group of a release in the query by id: one release is looked up by
    its rowid and [excluded_tickets] is scanned, in rowid order. *)
Definition joined (ts : list ExcludedTicket) (r : Release) : ReleaseRecord :=
  grouped r (tickets_of ts (r_id r)).

(** The order of the automatic index of the listing: its key is
    [release_id], then the other columns that the query reads, in the order
    of the table ([ticket_key], [ticket_summary], [ticket_url]), then the
    rowid; texts compare byte by byte and NULL comes first. *)
Definition null_first (a b : option string) : comparison :=
  match a, b with
  | None, None => Eq
  | None, Some _ => Lt
  | Some _, None => Gt
  | Some x, Some y => String.compare x y
  end.

Definition index_compare (a b : ExcludedTicket) : comparison :=
  match String.compare (ticket_key a) (ticket_key b) with
  | Eq =>
      match null_first (ticket_summary a) (ticket_summary b) with
      | Eq =>
          match null_first (ticket_url a) (ticket_url b) with
          | Eq => t_id a ?= t_id b
          | c => c
          end
      | c => c
      end
  | c => c
  end.

Fixpoint index_insert (x : ExcludedTicket) (l : list ExcludedTicket)
    : list ExcludedTicket :=
  match l with
  | [] => [x]
  | y :: l' =>
      match index_compare x y with
      | Gt => y :: index_insert x l'
      | _ => x :: l
      end
  end.

Definition index_order (l : list ExcludedTicket) : list ExcludedTicket :=
  foldr index_insert [] l.

(** The group of a release in the listing: the tickets of the release come
    out of the automatic index. *)
Definition listed (ts : list ExcludedTicket) (r : Release) : ReleaseRecord :=
  grouped r (index_order (tickets_of ts (r_id r))).

(** Order of two time stamps, NULL below every value. *)
Definition ts_ltb (a b : option Z) : bool :=
  match a, b with
  | None, Some _ => true
  | Some x, Some y => x <? y
  | _, None => false
  end.

(** ORDER BY created_at DESC, rows of equal time staying in rowid order. *)
Fixpoint insert_desc (x : ReleaseRecord) (l : list ReleaseRecord) : list ReleaseRecord :=
  match l with
  | [] => [x]
  | y :: l' =>
      if ts_ltb (created_at (release x)) (created_at (release y))
      then y :: insert_desc x l'
      else x :: l
  end.

Definition order_by_created_at_desc (l : list ReleaseRecord) : list ReleaseRecord :=
  foldr insert_desc [] l.

(** LIMIT n: a negative bound is no bound. *)
Definition limit_rows {A} (n : Z) (l : list A) : list A :=
  if n <? 0 then l else take (Z.to_nat n) l.

Definition soft_delete (now : Z) (user : option string) (rid : Z) (r : Release) : Release :=
  if bool_decide (r_id r = rid ∧ deleted_at r = None)
  then {| r_id := r_id r; release_date := release_date r; status := status r;
          release_type := release_type r; explanation := explanation r;
          created_by := created_by r; created_at := created_at r;
          updated_by := updated_by r; updated_at := updated_at r;
          deleted_at := Some now; deleted_by := user |}
  else r.

Definition with_default_type (r : Release) : Release :=
  {| r_id := r_id r; release_date := release_date r; status := status r;
     release_type := Some DEFAULT_RELEASE_TYPE; explanation := explanation r;
     created_by := created_by r; created_at := created_at r;
     updated_by := updated_by r; updated_at := updated_at r;
     deleted_at := deleted_at r; deleted_by := deleted_by r |}.

(** The value stored in [release_type] by an INSERT: none while the column is
    absent, the DEFAULT when the statement does not name the column. *)
Definition stored_type (has : bool) (type : option (option string)) : option string :=
  if has then match type with
              | Some v => v
              | None => Some DEFAULT_RELEASE_TYPE
              end
  else None.

(** Execution of one statement at time [now]: a failure, or the result and
    the database after it.  A statement that fails changes nothing. *)
Definition exec (now : Z) (s : Statement) (db : Database) : Failure + D1Result * Database :=
  match s with
  | CreateReleases =>
      match tbl_releases db with
      | Some _ => inr (ran 0, db)
      | None => inr (ran 0, mkDatabase (Some (mkReleases false [] 0))
                               (tbl_excluded_tickets db) (last_insert_rowid db))
      end
  | CreateExcludedTickets =>
      match tbl_excluded_tickets db with
      | Some _ => inr (ran 0, db)
      | None => inr (ran 0, mkDatabase (tbl_releases db) (Some (mkTickets [] 0))
                               (last_insert_rowid db))
      end
  | AddReleaseType =>
      match tbl_releases db with
      | None => inl (no_such_table "releases")
      | Some t =>
          if has_release_type t
          then inl (failed SQLITE_ERROR "duplicate column name: release_type")
          else inr (ran 0, mkDatabase
                     (Some (mkReleases true (with_default_type <$> rows t) (seq t)))
                     (tbl_excluded_tickets db) (last_insert_rowid db))
      end
  | SelectRecent limit =>
      match tbl_releases db, tbl_excluded_tickets db with
      | Some t, Some et =>
          let active := filter (λ r, deleted_at r = None) (rows t) in
          let groups := listed (t_rows et) <$> active in
          inr (selected (RowRelease <$> limit_rows limit (order_by_created_at_desc groups)), db)
      | None, _ => inl (no_such_table "releases")
      | _, None => inl (no_such_table "excluded_tickets")
      end
  | SelectById rid =>
      match tbl_releases db, tbl_excluded_tickets db with
      | Some t, Some et =>
          let found := filter (λ r, r_id r = rid) (rows t) in
          inr (selected (RowRelease <$> (joined (t_rows et) <$> found)), db)
      | None, _ => inl (no_such_table "releases")
      | _, None => inl (no_such_table "excluded_tickets")
      end
  | InsertRelease date status type expl user =>
      match tbl_releases db with
      | None => inl (no_such_table "releases")
      | Some t =>
          if bool_decide (is_Some type) && negb (has_release_type t)
          then inl (failed SQLITE_ERROR "table releases has no column named release_type")
          else
            match date, status, user with
            | None, _, _ => inl (not_null "releases.release_date")
            | _, None, _ => inl (not_null "releases.status")
            | _, _, None => inl (not_null "releases.created_by")
            | Some d, Some s, Some u =>
                let ty := stored_type (has_release_type t) type in
                if has_release_type t && bool_decide (ty = None)
                then inl (not_null "releases.release_type")
                else if negb (one_of STATUSES s)
                then inl (check "status IN ('GO', 'NO_GO')")
                else if has_release_type t && negb (one_of RELEASE_TYPES (default "" ty))
                then inl (check "release_type IN ('FULL', 'HOTFIX')")
                else
                  let rid := seq t + 1 in
                  let r := mkRelease rid (affinity d) s ty expl u (Some now)
                             None None None None in
                  inr (ran 1, mkDatabase
                         (Some (mkReleases (has_release_type t) (rows t ++ [r]) rid))
                         (tbl_excluded_tickets db) rid)
            end
      end
  | SelectLastInsertRowid => inr (selected [RowId (last_insert_rowid db)], db)
  | InsertTicket rid key summary url user =>
      match tbl_excluded_tickets db, tbl_releases db with
      | None, _ => inl (no_such_table "excluded_tickets")
      | Some _, None => inl (no_such_table "main.releases")
      | Some et, Some t =>
          match key, user with
          | None, _ => inl (not_null "excluded_tickets.ticket_key")
          | _, None => inl (not_null "excluded_tickets.created_by")
          | Some k, Some u =>
              if bool_decide (rid ∈ r_id <$> rows t)
              then
                let tid := t_seq et + 1 in
                let row := mkTicket tid rid k summary url u (Some now) in
                inr (ran 1, mkDatabase (tbl_releases db)
                               (Some (mkTickets (t_rows et ++ [row]) tid)) tid)
              else inl (failed SQLITE_CONSTRAINT "FOREIGN KEY constraint failed")
          end
      end
  | SoftDelete user rid =>
      match tbl_releases db with
      | None => inl (no_such_table "releases")
      | Some t =>
          let hit := filter (λ r, r_id r = rid ∧ deleted_at r = None) (rows t) in
          inr (ran (Z.of_nat (length hit)),
               mkDatabase
                 (Some (mkReleases (has_release_type t)
                          (soft_delete now user rid <$> rows t) (seq t)))
                 (tbl_excluded_tickets db) (last_insert_rowid db))
      end
  end.

End Sql.

(** ** The world and the monad of the program *)

(** A thrown JavaScript value. *)
Inductive Error :=
| BindingFailure                 (* a KV or D1 call failed in transport *)
| D1Error (f : Sql.Failure)      (* the engine rejected a statement *)
| JsError (message : string).    (* [new Error(message)], or a TypeError *)

(** [error.message].  D1 reports a failure of the engine as its message
    between the prefix 'D1_ERROR: ' and the name of the result code. *)
Definition message_of (e : Error) : string :=
  match e with
  | BindingFailure => "Network connection lost."
  | D1Error (Sql.failed code m) => "D1_ERROR: " +:+ m +:+ ": " +:+ Sql.code_name code
  | JsError m => m
  end.

Inductive Outcome (A : Type) :=
| Returned (a : A)
| Thrown (e : Error).
Arguments Returned {A} a.
Arguments Thrown {A} e.

(** Everything outside the program that it reads or writes: the KV namespace
    [APP_STATE], the database [DB] (the binding is taken to be configured),
    the clock behind CURRENT_TIMESTAMP, the transport failures to come (one
    boolean per call of a binding, [true] failing that call before it takes
    effect; none once the list is used up), and the statements that reached
    the engine, latest first. *)
Record World := mkWorld {
  APP_STATE : gmap string string;
  DB : Database;
  now : Z;
  failures : list bool;
  executed : list Statement
}.

Definition M (A : Type) : Type := World → Outcome A * World.

Definition ret {A} (a : A) : M A := λ w, (Returned a, w).
Definition throw {A} (e : Error) : M A := λ w, (Thrown e, w).

Definition bind {A B} (m : M A) (k : A → M B) : M B :=
  λ w, match m w with
       | (Returned a, w') => k a w'
       | (Thrown e, w') => (Thrown e, w')
       end.

(** [try { body } catch (error) { handler }]. *)
Definition try_catch {A} (body : M A) (handler : Error → M A) : M A :=
  λ w, match body w with
       | (Returned a, w') => (Returned a, w')
       | (Thrown e, w') => handler e w'
       end.

Notation "'let*' x := m 'in' k" := (bind m (λ x, k))
  (at level 10, x name, m at level 100, k at level 200).
Notation "m >> k" := (bind m (λ _, k))
  (at level 100, k at level 200, right associativity).

(** [for (const x of xs) { await body(x) }]. *)
Fixpoint for_of {A} (xs : list A) (body : A → M unit) : M unit :=
  match xs with
  | [] => ret tt
  | x :: xs' => body x >> for_of xs' body
  end.

(** One call of a binding crosses the transport. *)
Definition transport : M unit :=
  λ w, match failures w with
       | true :: fs =>
           (Thrown BindingFailure, mkWorld (APP_STATE w) (DB w) (now w) fs (executed w))
       | false :: fs =>
           (Returned tt, mkWorld (APP_STATE w) (DB w) (now w) fs (executed w))
       | [] => (Returned tt, w)
       end.

(** [env.APP_STATE.get(key)] and [env.APP_STATE.put(key, value)]. *)
Definition kv_get (key : string) : M (option string) :=
  transport >> λ w, (Returned (APP_STATE w !! key), w).

Definition kv_put (key value : string) : M unit :=
  transport >>
  λ w, (Returned tt,
        mkWorld (<[key := value]> (APP_STATE w)) (DB w) (now w) (failures w) (executed w)).

(** [.bind(...)]: D1 refuses a value that is [undefined], before anything is
    sent to the database. *)
Definition D1_TYPE_ERROR : Error :=
  JsError "D1_TYPE_ERROR: Type 'undefined' not supported for value 'undefined'".

Definition parameters (values : list Js.value) : M unit :=
  if existsb Js.is_undefined values then throw D1_TYPE_ERROR else ret tt.

(** [run()] or [all()] of a prepared statement with its parameters bound:
    D1 throws when the engine rejects the statement. *)
Definition run (s : Statement) : M D1Result :=
  transport >>
  λ w, let trace := s :: executed w in
       match Sql.exec (now w) s (DB w) with
       | inl f => (Thrown (D1Error f), mkWorld (APP_STATE w) (DB w) (now w) (failures w) trace)
       | inr (r, db) => (Returned r, mkWorld (APP_STATE w) db (now w) (failures w) trace)
       end.

Definition all (s : Statement) : M D1Result := run s.

(** [first()]: the first row, or null. *)
Definition first (s : Statement) : M (option Row) :=
  let* r := run s in ret (head (results r)).

(** ** database.js *)

Definition CURRENT_SCHEMA_VERSION : Z := 2.

(** [n.toString()] of an integer. *)
Definition toString (n : Z) : string := pretty.pretty n.

Definition createInitialSchema : M unit :=
  run CreateReleases >>
  run CreateExcludedTickets >>
  ret tt.

Definition applyMigrations (currentVersion : Z) : M unit :=
  if currentVersion <? 2 then run AddReleaseType >> ret tt else ret tt.

(** The [try] block of [initializeDatabase]. *)
Definition initializeDatabase_try : M bool :=
  let* v := kv_get "DB_SCHEMA_VERSION" in
  let currentVersion := Js.or_zero (Js.parseInt v) in
  (if currentVersion =? 0
   then createInitialSchema >> kv_put "DB_SCHEMA_VERSION" "1"
   else ret tt) >>
  (if currentVersion <? CURRENT_SCHEMA_VERSION
   then applyMigrations currentVersion >>
        kv_put "DB_SCHEMA_VERSION" (toString CURRENT_SCHEMA_VERSION)
   else ret tt) >>
  ret true.

Definition initializeDatabase : M bool :=
  try_catch initializeDatabase_try (λ _, ret false).

(** The rows of a result read as release records ([releases.results]). *)
Definition records (r : D1Result) : list ReleaseRecord :=
  omap (λ x, match x with RowRelease rec => Some rec | RowId _ => None end) (results r).

Definition fetchRecentReleases (limit : Z) : M D1Result :=
  try_catch (all (SelectRecent limit)) (λ error, throw error).

(** [result || null]: a row object is truthy. *)
Definition fetchReleaseById (releaseId : Z) : M (option Row) :=
  try_catch (first (SelectById releaseId)) (λ error, throw error).

(** The argument [release] of [createRelease]. *)
Record ReleaseInput := mkInput {
  in_release_date : Js.value;
  in_status : Js.value;
  in_release_type : Js.value;
  in_explanation : Js.value
}.

(** An element of the argument [tickets]. *)
Record TicketInput := mkTicketInput {
  key : Js.value;
  summary : Js.value;
  url : Js.value
}.

(** [releaseId.id]: reading a property of null is a TypeError. *)
Definition id_of (row : option Row) : M Z :=
  match row with
  | Some (RowId i) => ret i
  | Some (RowRelease rec) => ret (r_id (release rec))
  | None => throw (JsError "Cannot read properties of null (reading 'id')")
  end.

(** The body of the loop of [createRelease]; [releaseId.id] is a number and
    [userEmail] a text. *)
Definition insertExcludedTicket (releaseId : Z) (userEmail : string) (ticket : TicketInput)
    : M unit :=
  parameters [key ticket; summary ticket; url ticket] >>
  run (InsertTicket releaseId (Js.sql (key ticket)) (Js.sql (summary ticket))
         (Js.sql (url ticket)) (Some userEmail)) >>
  ret tt.

Definition createRelease (release : ReleaseInput) (tickets : list TicketInput)
    (userEmail : string) : M (option Row) :=
  try_catch
    (let* result :=
       parameters [in_release_date release; in_status release; in_release_type release] >>
       run (InsertRelease (Js.sql (in_release_date release)) (Js.sql (in_status release))
              (Some (Js.sql (in_release_type release)))
              (Js.or_null (in_explanation release)) (Some userEmail)) in
     (if negb (success result) then throw (JsError "Failed to create release") else ret tt) >>
     let* releaseId := first SelectLastInsertRowid in
     let* rid := id_of releaseId in
     (if (0 <? length tickets)%nat
      then for_of tickets (insertExcludedTicket rid userEmail)
      else ret tt) >>
     fetchReleaseById rid)
    (λ error, throw error).

Definition deleteRelease (releaseId : Z) (userEmail : string) : M bool :=
  try_catch
    (let* result := run (SoftDelete (Some userEmail) releaseId) in
     ret (success result))
    (λ error, throw error).

(** ** routes.js and the readers of a release record *)

(** [renderReleaseRow] and [sendNotification] read the tickets of a record
    back from its three comma-joined columns:
    [excluded_tickets.split(',').map((key, index) => ({key, summary:
    ticket_summaries ? ticket_summaries.split(',')[index] : null, ...}))].
    An index past the end of an array reads [undefined]. *)
Definition nth_field (col : option string) (index : nat) : Js.value :=
  if Js.truthy col
  then match Js.split_comma (default "" col) !! index with
       | Some s => Js.text s
       | None => Js.undefined
       end
  else Js.null.

Definition tickets_of_record (rec : ReleaseRecord) : list TicketInput :=
  if Js.truthy (excluded_tickets rec)
  then imap (λ index k,
               mkTicketInput (Js.text k) (nth_field (ticket_summaries rec) index)
                 (nth_field (ticket_urls rec) index))
            (Js.split_comma (default "" (excluded_tickets rec)))
  else [].

(** The JSON body of POST /api/releases, its properties being texts, null or
    missing and [tickets] an array of texts and nulls (empty when the
    property is missing). *)
Record CreateBody := mkBody {
  b_release_date : Js.value;
  b_status : Js.value;
  b_release_type : Js.value;
  b_explanation : Js.value;
  b_tickets : list (option string)
}.

(** What a handler sees of the request and of the environment: the
    authenticated user, the value of [isRootUser(c.env, userEmail)], the
    parsed body ([None] when it does not parse), whether the JIRA
    credentials are set, the JIRA base URL and whether notifications are
    configured (the binding NOTIFICATIONS and the recipient
    NOTIFICATION_EMAIL_TO are both set). *)
Record Context := mkContext {
  userEmail : string;
  isRoot : bool;
  json : option CreateBody;
  jira_configured : bool;
  JIRA_BASE_URL : string;
  NOTIFICATIONS : bool
}.

(** The response of a handler; the HTML of the rows is kept as the rows. *)
Inductive Response :=
| Html (releases : list ReleaseRecord) (isRoot : bool)
| HtmlError (message : string)
| Json (error : string) (code : Z).

(** [`${ticket}`]. *)
Definition template (ticket : option string) : string := default "null" ticket.

(** [sendNotification] reads [release.status] and swallows what the mail
    binding throws; it touches neither store. *)
Definition sendNotification (release : option Row) : M unit :=
  match release with
  | Some (RowRelease _) => ret tt
  | _ => throw (JsError "Cannot read properties of null (reading 'status')")
  end.

Section Routes.

(** The answer of the JIRA server to [fetchJiraTicketDetails(env, ticket)]:
    the details of the ticket, or null when the request fails. *)
Variable fetchJiraTicketDetails : option string → option TicketInput.

(** [handleGetReleases] after its call of [initializeDatabase].  The guard
    [if (!db) throw ...] before that call is not taken, the binding being
    configured. *)
Definition handleGetReleases_rest (c : Context) : M Response :=
  let* releases := fetchRecentReleases 10 in
  ret (Html (records releases) (isRoot c)).

Definition handleGetReleases_catch (error : Error) : M Response :=
  ret (HtmlError ("Error loading releases: " +:+ message_of error)).

Definition handleGetReleases (c : Context) : M Response :=
  try_catch
    (initializeDatabase >> handleGetReleases_rest c)
    handleGetReleases_catch.

(** [c.req.json()]. *)
Definition request_json (c : Context) : M CreateBody :=
  match json c with
  | Some b => ret b
  | None => throw (JsError "Unexpected end of JSON input")
  end.

(** [handleCreateRelease] after its call of [initializeDatabase]. *)
Definition handleCreateRelease_rest (c : Context) (body : CreateBody) : M Response :=
  let ticketDetails :=
    (λ ticket,
       if jira_configured c then fetchJiraTicketDetails ticket
       else Some (mkTicketInput (Js.of_option ticket) Js.null
                    (Js.text (JIRA_BASE_URL c +:+ "/browse/" +:+ template ticket))))
    <$> b_tickets body in
  let* release :=
    createRelease
      (mkInput (b_release_date body) (b_status body) (b_release_type body)
         (b_explanation body))
      (omap (λ t, t) ticketDetails) (userEmail c) in
  (if NOTIFICATIONS c then sendNotification release else ret tt) >>
  let* releases := fetchRecentReleases 10 in
  ret (Html (records releases) (isRoot c)).

Definition handleCreateRelease_catch (error : Error) : M Response :=
  ret (Json (message_of error) 500).

Definition handleCreateRelease (c : Context) : M Response :=
  try_catch
    (let* body := request_json c in
     initializeDatabase >> handleCreateRelease_rest c body)
    handleCreateRelease_catch.

End Routes.

Definition is_error (r : Response) : bool :=
  match r with
  | Html _ _ => false
  | _ => true
  end.

(** ** Histories of the store *)

(** What can happen to the world between two observations: a call of the
    repository, time passing, or the network turning bad for the calls to
    come. *)
Inductive Call :=
| Initialize
| Create (release : ReleaseInput) (tickets : list TicketInput) (userEmail : string)
| Delete (releaseId : Z) (userEmail : string)
| ListRecent (limit : Z)
| Get (releaseId : Z)
| Elapse (seconds : Z)
| Disturb (fs : list bool).

Definition perform (w : World) (c : Call) : World :=
  match c with
  | Initialize => (initializeDatabase w).2
  | Create release tickets user => (createRelease release tickets user w).2
  | Delete rid user => (deleteRelease rid user w).2
  | ListRecent limit => (fetchRecentReleases limit w).2
  | Get rid => (fetchReleaseById rid w).2
  | Elapse d => mkWorld (APP_STATE w) (DB w) (now w + Z.abs d) (failures w) (executed w)
  | Disturb fs => mkWorld (APP_STATE w) (DB w) (now w) fs (executed w)
  end.

Definition history (w : World) (cs : list Call) : World := foldl perform w cs.

(** ** Invariants of the store *)

Definition release_rows (db : Database) : list Release :=
  from_option rows [] (tbl_releases db).

Definition ticket_rows (db : Database) : list ExcludedTicket :=
  from_option t_rows [] (tbl_excluded_tickets db).

Definition ids (db : Database) : list Z := r_id <$> release_rows db.

(** What the engine maintains: the ids of [releases] are distinct and not
    above the AUTOINCREMENT counter, and every ticket refers to a stored
    release. *)
Definition well_formed (db : Database) : Prop :=
  NoDup (ids db) ∧
  Forall (λ r, r_id r ≤ from_option seq 0 (tbl_releases db)) (release_rows db) ∧
  Forall (λ t, t_release_id t ∈ ids db) (ticket_rows db).

Global Instance well_formed_dec db : Decision (well_formed db).
Proof. unfold well_formed. apply _. Defined.

(** The closed sets of the data model. *)
Definition in_closed_sets (r : Release) : Prop :=
  status r ∈ Sql.STATUSES ∧
  ∃ t, release_type r = Some t ∧ t ∈ Sql.RELEASE_TYPES.

(** A database on which the repository can work: both tables, and the column
    of schema version 2. *)
Definition migrated (db : Database) : Prop :=
  (∃ t, tbl_releases db = Some t ∧ has_release_type t = true) ∧
  is_Some (tbl_excluded_tickets db).

(** The schema version the guard reads. *)
Definition version (w : World) : Z :=
  Js.or_zero (Js.parseInt (APP_STATE w !! "DB_SCHEMA_VERSION")).

(** The time [a] is no earlier than the time [b], a missing time being the
    earliest. *)
Definition no_earlier (a b : option Timestamp) : Prop :=
  match a, b with
  | _, None => True
  | None, Some _ => False
  | Some x, Some y => y ≤ x
  end.

(** Descending order of creation times: [a] was created no earlier than
    [b]. *)
Definition created_not_before (a b : ReleaseRecord) : Prop :=
  no_earlier (created_at (release a)) (created_at (release b)).

(** Texts joined by commas; null when there is none. *)
Definition comma_joined (l : list string) : option string :=
  match l with
  | [] => None
  | _ => Some (String.concat "," l)
  end.

(** The row of [excluded_tickets] made from a submitted ticket. *)
Definition ticket_row (now : Z) (rid : Z) (user : string) (tid : Z) (t : TicketInput)
    : ExcludedTicket :=
  mkTicket tid rid (default "" (Js.sql (key t))) (Js.sql (summary t)) (Js.sql (url t))
    user (Some now).

(** The world after one call crossed the transport. *)
Definition crossed (w : World) : World :=
  mkWorld (APP_STATE w) (DB w) (now w) (tail (failures w)) (executed w).

(** ** Worlds used as examples *)

(** Nothing stored yet: no key in the KV namespace, no table. *)
Definition fresh_world : World :=
  mkWorld ∅ empty_database 1717286400 [] [].

(** The same, with the network failing on the sixth call of a binding: the
    [put] of version 2 at the end of the first run of the guard. *)
Definition interrupted_world : World :=
  mkWorld ∅ empty_database 1717286400 [false; false; false; false; false; true] [].

(** Both tables and the column [release_type], but version 1 in the KV
    namespace: what a run of the guard leaves when its last [put] fails. *)
Definition half_migrated_world : World :=
  mkWorld {["DB_SCHEMA_VERSION" := "1"]}
    (mkDatabase (Some (mkReleases true [] 0)) (Some (mkTickets [] 0)) 0)
    1717286400 [] [].

Definition some_context : Context :=
  mkContext "a@x.com" false None false "https://jira.example.com" false.

(** The rows [r'] that differ from [r] at most in the delete markers. *)
Definition same_but_delete_markers (r r' : Release) : Prop :=
  r_id r' = r_id r ∧ release_date r' = release_date r ∧ status r' = status r ∧
  release_type r' = release_type r ∧ explanation r' = explanation r ∧
  created_by r' = created_by r ∧ created_at r' = created_at r ∧
  updated_by r' = updated_by r ∧ updated_at r' = updated_at r.

(** An active release with two tickets, and the world that stores it. *)
Definition release_1 : Release :=
  mkRelease 1 (DateText "2024-06-02") "GO" (Some "FULL") None "a@x.com" (Some 1717286400)
    None None None None.

Definition one_release_world : World :=
  mkWorld {["DB_SCHEMA_VERSION" := "2"]}
    (mkDatabase
       (Some (mkReleases true [release_1] 1))
       (Some (mkTickets
                [mkTicket 1 1 "ABC-1" None (Some "https://jira.example.com/browse/ABC-1")
                   "a@x.com" (Some 1717286400);
                 mkTicket 2 1 "ABC-2" None (Some "https://jira.example.com/browse/ABC-2")
                   "a@x.com" (Some 1717286400)] 2))
       2)
    1717372800 [] [].

(** Two releases, the older with two tickets that were entered before and
    after the ticket of the newer. *)
Definition release_2 : Release :=
  mkRelease 2 (DateText "2024-06-09") "NO_GO" (Some "HOTFIX") (Some "rollback risk")
    "b@x.com" (Some 1717372800) None None None None.

Definition two_release_world : World :=
  mkWorld {["DB_SCHEMA_VERSION" := "2"]}
    (mkDatabase
       (Some (mkReleases true [release_1; release_2] 2))
       (Some (mkTickets
                [mkTicket 1 1 "ABC-9" None None "a@x.com" (Some 1717286400);
                 mkTicket 2 2 "XYZ-1" (Some "Rollback") None "b@x.com" (Some 1717372800);
                 mkTicket 3 1 "ABC-10" None None "a@x.com" (Some 1717372900)] 3))
       3)
    1717459200 [] [].

(** What a later call may do to a row: keep all but the delete markers, and
    keep these too once they are set. *)
Definition kept (r r' : Release) : Prop :=
  same_but_delete_markers r r' ∧ (deleted_at r ≠ None → r' = r).

(** ** The store as a transition system *)

(** What a statement that the engine accepts does to the database. *)
Inductive transition (now : Z) (db : Database) : Statement → Database → Prop :=
| tr_none s :
    transition now db s db
| tr_create_releases :
    tbl_releases db = None →
    transition now db CreateReleases
      (mkDatabase (Some (mkReleases false [] 0)) (tbl_excluded_tickets db)
         (last_insert_rowid db))
| tr_create_excluded_tickets :
    tbl_excluded_tickets db = None →
    transition now db CreateExcludedTickets
      (mkDatabase (tbl_releases db) (Some (mkTickets [] 0)) (last_insert_rowid db))
| tr_add_release_type tr :
    tbl_releases db = Some tr → has_release_type tr = false →
    transition now db AddReleaseType
      (mkDatabase (Some (mkReleases true (Sql.with_default_type <$> rows tr) (seq tr)))
         (tbl_excluded_tickets db) (last_insert_rowid db))
| tr_insert_release tr d s named e u :
    tbl_releases db = Some tr → s ∈ Sql.STATUSES →
    (is_Some named → has_release_type tr = true) →
    (has_release_type tr = true →
     ∃ v, Sql.stored_type true named = Some v ∧ v ∈ Sql.RELEASE_TYPES) →
    transition now db (InsertRelease (Some d) (Some s) named e (Some u))
      (mkDatabase
         (Some (mkReleases (has_release_type tr)
                  (rows tr ++ [mkRelease (seq tr + 1) (Sql.affinity d) s
                                 (Sql.stored_type (has_release_type tr) named) e u
                                 (Some now) None None None None])
                  (seq tr + 1)))
         (tbl_excluded_tickets db) (seq tr + 1))
| tr_insert_ticket et rid k sm ur u :
    tbl_excluded_tickets db = Some et → rid ∈ ids db →
    transition now db (InsertTicket rid (Some k) sm ur (Some u))
      (mkDatabase (tbl_releases db)
         (Some (mkTickets (t_rows et ++ [mkTicket (t_seq et + 1) rid k sm ur u (Some now)])
                  (t_seq et + 1)))
         (t_seq et + 1))
| tr_soft_delete tr u rid :
    tbl_releases db = Some tr →
    transition now db (SoftDelete u rid)
      (mkDatabase
         (Some (mkReleases (has_release_type tr)
                  (Sql.soft_delete now u rid <$> rows tr) (seq tr)))
         (tbl_excluded_tickets db) (last_insert_rowid db)).

(** A property of the database that no statement breaks. *)
Definition stable (P : Database → Prop) : Prop :=
  ∀ now s db db', P db → transition now db s db' → P db'.

(** The statements database.js prepares: every INSERT into [releases] names
    the column [release_type]. *)
Definition issued (s : Statement) : Prop :=
  match s with
  | InsertRelease _ _ None _ _ => False
  | _ => True
  end.

(** A property of the database that no statement of the program breaks. *)
Definition invariant (P : Database → Prop) : Prop :=
  ∀ now s db r db', issued s → P db → Sql.exec now s db = inr (r, db') → P db'.

(** A computation that keeps a property of the database, however it ends. *)
Definition keeps {A} (P : Database → Prop) (m : M A) : Prop :=
  ∀ w, P (DB w) → P (DB (m w).2).

(** Every stored release has its status and its type in the closed sets. *)
Definition closed (db : Database) : Prop := Forall in_closed_sets (release_rows db).

(** The release with the given id is deleted, and no later row can take its
    id. *)
Definition deleted_for_good (rid : Z) (db : Database) : Prop :=
  ∃ tr, tbl_releases db = Some tr ∧ rid ≤ seq tr ∧
        ∀ r, r ∈ rows tr → r_id r = rid → deleted_at r ≠ None.

(** The rows that [SelectRecent] yields. *)
Definition recent (limit : Z) (t : ReleasesTable) (et : TicketsTable) : list ReleaseRecord :=
  Sql.limit_rows limit
    (Sql.order_by_created_at_desc
       (Sql.listed (t_rows et) <$> filter (λ r, deleted_at r = None) (rows t))).

(** The rows that [SelectById] yields. *)
Definition matching (rid : Z) (t : ReleasesTable) (et : TicketsTable) : list ReleaseRecord :=
  Sql.joined (t_rows et) <$> filter (λ r, r_id r = rid) (rows t).

(** The world of [one_release_world] after the release was soft-deleted. *)
Definition one_deleted_world : World :=
  (deleteRelease 1 "root@x.com" one_release_world).2.

(** The rows of [excluded_tickets] made from the submitted tickets, the
    counter of the table standing at [last]. *)
Fixpoint new_ticket_rows (now rid : Z) (user : string) (last : Z) (ts : list TicketInput)
    : list ExcludedTicket :=
  match ts with
  | [] => []
  | t :: ts' =>
      ticket_row now rid user (last + 1) t :: new_ticket_rows now rid user (last + 1) ts'
  end.

(** A ticket that can be stored: its key is a text, and its summary and its
    url are each a text or null. *)
Definition storable (t : TicketInput) : Prop :=
  (∃ text, key t = Js.text text) ∧ summary t ≠ Js.undefined ∧ url t ≠ Js.undefined.

(** A submitted ticket and its row agree. *)
Definition ticket_stored (rid : Z) (user : string) (t : TicketInput) (row : ExcludedTicket)
    : Prop :=
  key t = Js.text (ticket_key row) ∧ summary t = Js.of_option (ticket_summary row) ∧
  url t = Js.of_option (ticket_url row) ∧ t_release_id row = rid ∧
  t_created_by row = user ∧ is_Some (t_created_at row).

(** The store after the guard ran on the fresh world: both tables, empty. *)
Definition migrated_world : World := (initializeDatabase fresh_world).2.

(** A computation that throws in every world. *)
Definition throws {A} (m : M A) : Prop := ∀ w, ∃ e w', m w = (Thrown e, w').

(** * The rest of the program *)

(** ** Text *)

Module Text.

(** The text is white space throughout. *)
Definition blank (s : string) : bool := bool_decide (Js.trim_start s = EmptyString).

(** [s.trimEnd()]: the text up to its longest white end. *)
Fixpoint trim_end (s : string) : string :=
  match s with
  | EmptyString => EmptyString
  | String c s' => if blank (String c s') then EmptyString else String c (trim_end s')
  end.

(** [s.trim()]. *)
Definition trim (s : string) : string := trim_end (Js.trim_start s).

(** The text holds a comma. *)
Fixpoint has_comma (s : string) : bool :=
  match s with
  | EmptyString => false
  | String c s' => Ascii.eqb c ","%char || has_comma s'
  end.

(** [l.join(',')]. *)
Definition join_comma (l : list string) : string := String.concat "," l.

(** U+00A0, NO-BREAK SPACE, as its two bytes. *)
Definition no_break_space : string :=
  String (ascii_of_nat 194) (String (ascii_of_nat 160) EmptyString).

End Text.

(** ** database.js as it was at schema version 1

    The file src/src/database.js: the guard keeps a flag [DB_INITIALIZED]
    instead of a version, and [createRelease] does not name [release_type].
    Its [fetchRecentReleases], [fetchReleaseById] and [deleteRelease] are
    those of the current file. *)

Module V1.

Definition initializeDatabase : M bool :=
  try_catch
    (let* isInitialized := kv_get "DB_INITIALIZED" in
     if bool_decide (isInitialized = Some "true") then ret true
     else
       run CreateReleases >>
       run CreateExcludedTickets >>
       kv_put "DB_INITIALIZED" "true" >>
       ret true)
    (λ _, ret false).

Definition createRelease (release : ReleaseInput) (tickets : list TicketInput)
    (userEmail : string) : M (option Row) :=
  try_catch
    (let* result :=
       parameters [in_release_date release; in_status release] >>
       run (InsertRelease (Js.sql (in_release_date release)) (Js.sql (in_status release))
              None
              (Js.or_null (in_explanation release)) (Some userEmail)) in
     (if negb (success result) then throw (JsError "Failed to create release") else ret tt) >>
     let* releaseId := first SelectLastInsertRowid in
     let* rid := id_of releaseId in
     (if (0 <? length tickets)%nat
      then for_of tickets (insertExcludedTicket rid userEmail)
      else ret tt) >>
     fetchReleaseById rid)
    (λ error, throw error).

(** A call of the repository of schema version 1. *)
Inductive Call :=
| Initialize
| Create (release : ReleaseInput) (tickets : list TicketInput) (userEmail : string)
| Delete (releaseId : Z) (userEmail : string)
| ListRecent (limit : Z)
| Get (releaseId : Z)
| Elapse (seconds : Z)
| Disturb (fs : list bool).

Definition perform (w : World) (c : Call) : World :=
  match c with
  | Initialize => (initializeDatabase w).2
  | Create release tickets user => (createRelease release tickets user w).2
  | Delete rid user => (deleteRelease rid user w).2
  | ListRecent limit => (fetchRecentReleases limit w).2
  | Get rid => (fetchReleaseById rid w).2
  | Elapse d => mkWorld (APP_STATE w) (DB w) (now w + Z.abs d) (failures w) (executed w)
  | Disturb fs => mkWorld (APP_STATE w) (DB w) (now w) fs (executed w)
  end.

Definition history (w : World) (cs : list Call) : World := foldl perform w cs.

End V1.

(** ** auth.js, jiraIntegration.js, routes.js and index.js *)

(** The bindings and variables of the worker that the handlers read. *)
Record Env := mkEnv {
  ROOT_USERS : option string;
  JIRA_API_TOKEN : option string;
  JIRA_USER_EMAIL : option string;
  env_JIRA_BASE_URL : string;
  env_NOTIFICATIONS : bool
}.

(** [isRootUser]: the user is one of the comma-separated, trimmed entries of
    [ROOT_USERS]. *)
Definition rootUsers (env : Env) : list string :=
  if Js.truthy (ROOT_USERS env)
  then Text.trim <$> Js.split_comma (default "" (ROOT_USERS env))
  else [].

Definition isRootUser (env : Env) (userEmail : string) : bool :=
  bool_decide (userEmail ∈ rootUsers env).

(** What comes back from [fetch] of [${JIRA_BASE_URL}/rest/api/2/issue/${ticketKey}]
    when the request itself does not fail: [response.ok], and
    [data.fields.summary] of the body ([None] when reading it throws: the
    body is not JSON, or has no [fields]; [undefined] when [fields] has no
    [summary]). *)
Record JiraResponse := mkJiraResponse {
  ok : bool;
  fields_summary : option Js.value
}.

(** A request as the router hands it on: the value of the header
    cf-access-authenticated-user-email, the route that matched with its path
    parameters, and the JSON body.  The [:id] of a DELETE is the integer its
    text denotes, as in the links [renderReleaseRow] writes. *)
Inductive Route :=
| GET_root
| GET_api_releases
| POST_api_releases
| DELETE_api_releases (id : Z)
| GET_api_validate_jira (ticketKey : string).

Record Request := mkRequest {
  cf_access_authenticated_user_email : option string;
  route : Route;
  req_json : option CreateBody
}.

(** What the worker answers. *)
Inductive Reply :=
| PlainText (message : string) (code : Z)
| Page (userEmail : string) (isRoot : bool)
| Validity (valid : bool)
| Handled (r : Response).

Definition credentials (env : Env) : bool :=
  Js.truthy (JIRA_API_TOKEN env) && Js.truthy (JIRA_USER_EMAIL env).

(** The context [c] of a handler, for an authenticated user. *)
Definition context_of (env : Env) (userEmail : string) (req : Request) : Context :=
  mkContext userEmail (isRootUser env userEmail) (req_json req) (credentials env)
    (env_JIRA_BASE_URL env) (env_NOTIFICATIONS env).

Section Application.

(** The JIRA server: its answer to the request for a ticket, or [None] when
    [fetch] rejects. *)
Variable jira : option string → option JiraResponse.

Definition fetchJiraTicketDetails (env : Env) (ticketKey : option string)
    : option TicketInput :=
  match jira ticketKey with
  | None => None
  | Some response =>
      if negb (ok response) then None
      else match fields_summary response with
           | None => None
           | Some s =>
               Some (mkTicketInput (Js.of_option ticketKey) s
                       (Js.text (env_JIRA_BASE_URL env +:+ "/browse/" +:+ template ticketKey)))
           end
  end.

Definition validateJiraTicket (env : Env) (ticketKey : string) : bool :=
  if negb (Js.truthy (JIRA_API_TOKEN env)) || negb (Js.truthy (JIRA_USER_EMAIL env))
  then false
  else match jira (Some ticketKey) with
       | None => false
       | Some response => ok response
       end.

Definition handleDeleteRelease (c : Context) (releaseId : Z) : M Response :=
  try_catch
    (let* success := deleteRelease releaseId (userEmail c) in
     if negb success then ret (Json "Failed to delete release" 500)
     else
       let* releases := fetchRecentReleases 10 in
       ret (Html (records releases) (isRoot c)))
    (λ error, ret (Json (message_of error) 500)).

(** [requireAuth] and [requireRoot], [next] being the rest of the chain. *)
Definition requireAuth (req : Request) (next : string → M Reply) : M Reply :=
  if negb (Js.truthy (cf_access_authenticated_user_email req))
  then ret (PlainText "Unauthorized: No user email found" 401)
  else next (default "" (cf_access_authenticated_user_email req)).

Definition requireRoot (env : Env) (userEmail : string) (next : M Reply) : M Reply :=
  if negb (isRootUser env userEmail)
  then ret (Handled (Json "Unauthorized: Only root users can perform this action" 403))
  else next.

Definition handled (m : M Response) : M Reply :=
  let* r := m in ret (Handled r).

(** The application of index.js, after the CORS middleware. *)
Definition app (env : Env) (req : Request) : M Reply :=
  requireAuth req (λ userEmail,
    let c := context_of env userEmail req in
    match route req with
    | GET_root => ret (Page userEmail (isRoot c))
    | GET_api_releases => handled (handleGetReleases c)
    | POST_api_releases =>
        handled (handleCreateRelease (fetchJiraTicketDetails env) c)
    | DELETE_api_releases id =>
        requireRoot env userEmail (handled (handleDeleteRelease c id))
    | GET_api_validate_jira ticketKey => ret (Validity (validateJiraTicket env ticketKey))
    end).

End Application.

(** ** Properties of computations and of stores used below *)

(** A computation that keeps a property of the world, however it ends. *)
Definition keeps_world {A} (P : World → Prop) (m : M A) : Prop :=
  ∀ w, P w → P (m w).2.

(** A property of the world that only looks at the KV namespace. *)
Definition kv_only (P : World → Prop) : Prop :=
  ∀ w w', APP_STATE w' = APP_STATE w → P w → P w'.

(** The database after [createInitialSchema] has run. *)
Definition with_base_schema (db : Database) : Database :=
  mkDatabase (Some (default (mkReleases false [] 0) (tbl_releases db)))
    (Some (default (mkTickets [] 0) (tbl_excluded_tickets db)))
    (last_insert_rowid db).

(** The database after [applyMigrations] has added the column. *)
Definition with_release_type (db : Database) : Database :=
  mkDatabase
    ((λ t, mkReleases true (Sql.with_default_type <$> rows t) (seq t)) <$> tbl_releases db)
    (tbl_excluded_tickets db) (last_insert_rowid db).

(** The column [release_type] can still be added: the table lacks it, or
    there is no table yet and the guard is about to create it. *)
Definition column_to_add (w : World) : bool :=
  match tbl_releases (DB w) with
  | Some t => negb (has_release_type t)
  | None => version w =? 0
  end.

(** What any later state may show of a stored release: every column as it
    was, except that the release type may have become the default and that
    delete markers may have been set where there were none. *)
Definition persisted (r r' : Release) : Prop :=
  r_id r' = r_id r ∧ release_date r' = release_date r ∧ status r' = status r ∧
  explanation r' = explanation r ∧ created_by r' = created_by r ∧
  created_at r' = created_at r ∧ updated_by r' = updated_by r ∧
  updated_at r' = updated_at r ∧
  (release_type r' = release_type r ∨ release_type r' = Some Sql.DEFAULT_RELEASE_TYPE) ∧
  (deleted_at r = None ∨ (deleted_at r' = deleted_at r ∧ deleted_by r' = deleted_by r)).

(** The store still holds the releases [l] and the tickets [k], in place. *)
Definition holds (l : list Release) (k : list ExcludedTicket) (db : Database) : Prop :=
  (∃ l1 l2, release_rows db = l1 ++ l2 ∧ Forall2 persisted l l1) ∧
  (∃ k2, ticket_rows db = k ++ k2).

(** The audit columns as the program leaves them. *)
Definition audit_columns (db : Database) : Prop :=
  Forall (λ r, updated_by r = None ∧ updated_at r = None ∧ is_Some (created_at r))
    (release_rows db) ∧
  Forall (λ t, is_Some (t_created_at t)) (ticket_rows db).

(** The releases table, if there is one, lacks the column [release_type]. *)
Definition no_release_type (db : Database) : Prop :=
  ∀ t, tbl_releases db = Some t → has_release_type t = false.

(** Every stored status is in the closed set. *)
Definition statuses_closed (db : Database) : Prop :=
  Forall (λ r, status r ∈ Sql.STATUSES) (release_rows db).

(** The statements that are no UPDATE. *)
Definition no_update (s : Statement) : Prop :=
  match s with
  | SoftDelete _ _ => False
  | _ => True
  end.

(** The statements of the repository of schema version 1. *)
Definition no_alter (s : Statement) : Prop :=
  match s with
  | AddReleaseType => False
  | _ => True
  end.

(** The store still holds the releases [l] with their delete markers. *)
Definition holds_undeleted (l : list Release) (db : Database) : Prop :=
  ∃ l1 l2, release_rows db = l1 ++ l2 ∧
           Forall2 (λ r r', persisted r r' ∧ deleted_at r' = deleted_at r ∧
                            deleted_by r' = deleted_by r) l l1.

(** ** Columns that the readers of a record can split again *)

(** A text that is not empty and holds no comma. *)
Definition plain (s : string) : Prop := s ≠ "" ∧ Text.has_comma s = false.

(** A column of the tickets of one release whose GROUP_CONCAT can be read
    back by position: null in every row, or a plain text in every row. *)
Definition column_plain (col : list (option string)) : Prop :=
  Forall (λ v, v = None) col ∨ Forall (λ v, ∃ s, v = Some s ∧ plain s) col.

(** A row of [excluded_tickets] as the readers of a record show it. *)
Definition shown (t : ExcludedTicket) : TicketInput :=
  mkTicketInput (Js.text (ticket_key t)) (Js.of_option (ticket_summary t))
    (Js.of_option (ticket_url t)).

(** * Proofs *)

(** ** The monad *)

Section Monad_facts.

Context {A B : Type}.

Lemma bind_returned (m : M A) (k : A → M B) w b w' :
  bind m k w = (Returned b, w') →
  ∃ a w1, m w = (Returned a, w1) ∧ k a w1 = (Returned b, w').
Proof.
  unfold bind. destruct (m w) as [[a|e] w1]; [|discriminate].
  intros H. by exists a, w1.
Qed.

Lemma bind_step (m : M A) (k : A → M B) w a w1 :
  m w = (Returned a, w1) → bind m k w = k a w1.
Proof. unfold bind. by intros ->. Qed.

Lemma bind_thrown (m : M A) (k : A → M B) w e w1 :
  m w = (Thrown e, w1) → bind m k w = (Thrown e, w1).
Proof. unfold bind. by intros ->. Qed.

(** A [catch] that only throws the error again is no [catch]. *)
Lemma try_catch_rethrow (m : M A) w : try_catch m (λ error, throw error) w = m w.
Proof. unfold try_catch, throw. by destruct (m w) as [[a|e] w1]. Qed.

End Monad_facts.

(** ** The bindings *)

Lemma crossed_quiet w : failures w = [] → crossed w = w.
Proof. destruct w as [kv db t fs ex]; simpl. by intros ->. Qed.

Lemma transport_spec w :
  transport w =
    (if hd false (failures w) then Thrown BindingFailure else Returned tt, crossed w).
Proof.
  unfold transport, crossed. destruct w as [kv db t [|[] fs] ex]; reflexivity.
Qed.

Lemma kv_get_spec k w :
  kv_get k w =
    (if hd false (failures w) then Thrown BindingFailure else Returned (APP_STATE w !! k),
     crossed w).
Proof.
  unfold kv_get, bind. rewrite transport_spec. by destruct (hd false (failures w)).
Qed.

Lemma kv_put_spec k v w :
  kv_put k v w =
    if hd false (failures w) then (Thrown BindingFailure, crossed w)
    else (Returned tt,
          mkWorld (<[k := v]> (APP_STATE w)) (DB w) (now w) (tail (failures w)) (executed w)).
Proof.
  unfold kv_put, bind. rewrite transport_spec. by destruct (hd false (failures w)).
Qed.

Lemma run_spec s w :
  run s w =
    if hd false (failures w) then (Thrown BindingFailure, crossed w)
    else match Sql.exec (now w) s (DB w) with
         | inl m => (Thrown (D1Error m),
                     mkWorld (APP_STATE w) (DB w) (now w) (tail (failures w)) (s :: executed w))
         | inr (r, db) => (Returned r,
                     mkWorld (APP_STATE w) db (now w) (tail (failures w)) (s :: executed w))
         end.
Proof.
  unfold run, bind. rewrite transport_spec. by destruct (hd false (failures w)).
Qed.

Lemma parameters_spec vs w :
  parameters vs w =
    (if existsb Js.is_undefined vs then Thrown D1_TYPE_ERROR else Returned tt, w).
Proof. unfold parameters. by destruct (existsb Js.is_undefined vs). Qed.

Lemma undefined_among vs : existsb Js.is_undefined vs = true ↔ Js.undefined ∈ vs.
Proof.
  induction vs as [|v vs IH]; simpl.
  - split; [done|]. by intros ?%elem_of_nil.
  - rewrite orb_true_iff, IH, elem_of_cons. split.
    + intros [H|H]; [left; by destruct v|by right].
    + intros [<-|H]; [by left|by right].
Qed.

Lemma sql_text v s : Js.sql v = Some s ↔ v = Js.text s.
Proof. destruct v; simpl; split; intros H; by simplify_eq. Qed.

Lemma run_returned s w r w' :
  run s w = (Returned r, w') →
  Sql.exec (now w) s (DB w) = inr (r, DB w') ∧ APP_STATE w' = APP_STATE w ∧
  now w' = now w ∧ executed w' = s :: executed w ∧ failures w' = tail (failures w).
Proof.
  rewrite run_spec. destruct (hd false (failures w)); [discriminate|].
  destruct (Sql.exec _ _ _) as [m|[r0 db]]; [discriminate|].
  intros [= <- <-]. by simpl.
Qed.

Lemma kv_put_returned k v w u w' :
  kv_put k v w = (Returned u, w') →
  APP_STATE w' = <[k := v]> (APP_STATE w) ∧ DB w' = DB w ∧ now w' = now w ∧
  executed w' = executed w ∧ failures w' = tail (failures w).
Proof.
  rewrite kv_put_spec. destruct (hd false (failures w)); [discriminate|].
  intros [= _ <-]. by simpl.
Qed.

Lemma kv_get_returned k w v w' :
  kv_get k w = (Returned v, w') →
  v = APP_STATE w !! k ∧ w' = crossed w.
Proof.
  rewrite kv_get_spec. destruct (hd false (failures w)); [discriminate|].
  by intros [= <- <-].
Qed.

(** ** The migration guard *)

(** [H : (let* x := m in k x) w = (Returned b, w')] is split into the run of
    [m], named [H1], and the run of the continuation, which stays [H]. *)
Tactic Notation "invert_bind" hyp(H) "as" ident(H1) :=
  let a := fresh "a" in
  let w := fresh "w" in
  apply bind_returned in H as (a & w & H1 & H).

Lemma initializeDatabase_spec w :
  initializeDatabase w =
    (Returned (match (initializeDatabase_try w).1 with
               | Returned _ => true
               | Thrown _ => false
               end),
     (initializeDatabase_try w).2).
Proof.
  unfold initializeDatabase, try_catch, ret.
  destruct (initializeDatabase_try w) as [[b|e] w1] eqn:E; simpl; [|done].
  invert_bind E as E1. invert_bind E as E2. invert_bind E as E3.
  unfold ret in E. by simplify_eq.
Qed.

Lemma initializeDatabase_true w w1 :
  initializeDatabase w = (Returned true, w1) →
  initializeDatabase_try w = (Returned true, w1).
Proof.
  rewrite initializeDatabase_spec.
  destruct (initializeDatabase_try w) as [[b|e] w2] eqn:E; simpl; [|done].
  intros [= <-]. invert_bind E as E1. invert_bind E as E2. invert_bind E as E3.
  unfold ret in E. by simplify_eq.
Qed.

Lemma version_put_current (kv : gmap string string) :
  Js.or_zero (Js.parseInt
    (<["DB_SCHEMA_VERSION" := toString CURRENT_SCHEMA_VERSION]> kv !! "DB_SCHEMA_VERSION"))
  = CURRENT_SCHEMA_VERSION.
Proof. by rewrite lookup_insert_eq. Qed.

(** A run of the guard that finds the current version only reads it. *)
Lemma initializeDatabase_current w :
  CURRENT_SCHEMA_VERSION ≤ version w →
  initializeDatabase w = (Returned (negb (hd false (failures w))), crossed w).
Proof.
  unfold version, CURRENT_SCHEMA_VERSION. intros Hv.
  rewrite initializeDatabase_spec. unfold initializeDatabase_try, bind.
  rewrite kv_get_spec. destruct (hd false (failures w)); [done|].
  replace (_ =? 0) with false by lia.
  replace (_ <? CURRENT_SCHEMA_VERSION) with false by (unfold CURRENT_SCHEMA_VERSION; lia).
  done.
Qed.

(** What a run of the guard that starts below the current version and
    returns true has done. *)
Lemma initializeDatabase_migrates w w1 :
  version w < CURRENT_SCHEMA_VERSION →
  initializeDatabase w = (Returned true, w1) →
  ∃ db r db1,
    (if version w =? 0
     then ∃ r1 r2 db0, Sql.exec (now w) CreateReleases (DB w) = inr (r1, db0) ∧
            Sql.exec (now w) CreateExcludedTickets db0 = inr (r2, db)
     else db = DB w) ∧
    Sql.exec (now w) AddReleaseType db = inr (r, db1) ∧
    DB w1 = db1 ∧
    APP_STATE w1 = <["DB_SCHEMA_VERSION" := "2"]>
                     (if version w =? 0
                      then <["DB_SCHEMA_VERSION" := "1"]> (APP_STATE w)
                      else APP_STATE w).
Proof.
  unfold CURRENT_SCHEMA_VERSION. intros Hv H%initializeDatabase_true.
  unfold initializeDatabase_try in H.
  invert_bind H as Hget. apply kv_get_returned in Hget as [-> ->].
  cbv beta zeta in H.
  change (Js.or_zero (Js.parseInt (APP_STATE w !! "DB_SCHEMA_VERSION")))
    with (version w) in H.
  invert_bind H as Hbase. invert_bind H as Hmig. unfold ret in H. simplify_eq.
  unfold CURRENT_SCHEMA_VERSION, applyMigrations in Hmig.
  replace (version w <? 2) with true in Hmig by lia.
  invert_bind Hmig as Halter. invert_bind Halter as Hadd.
  apply run_returned in Hadd as (Hx & Hkv & Hnow & _).
  unfold ret in Halter. simplify_eq.
  apply kv_put_returned in Hmig as (Hkv' & Hdb' & _).
  destruct (version w =? 0) eqn:Hz.
  - invert_bind Hbase as Hcreate. unfold createInitialSchema in Hcreate.
    invert_bind Hcreate as Hc1. invert_bind Hcreate as Hc2.
    apply run_returned in Hc1 as (Hc1 & Hkv1 & Hnow1 & _).
    apply run_returned in Hc2 as (Hc2 & Hkv2 & Hnow2 & _).
    unfold ret in Hcreate. simplify_eq.
    apply kv_put_returned in Hbase as (Hkv0 & Hdb0 & Hnow0 & _).
    change (now (crossed w)) with (now w) in *.
    change (DB (crossed w)) with (DB w) in *.
    change (APP_STATE (crossed w)) with (APP_STATE w) in *.
    rewrite Hnow1 in Hc2. rewrite Hnow0, Hnow2, Hnow1, Hdb0 in Hx.
    eexists _, _, _. split; [by eauto|]. split; [exact Hx|]. split; [by rewrite Hdb'|].
    rewrite Hkv', Hkv, Hkv0, Hkv2, Hkv1. done.
  - unfold ret in Hbase. simplify_eq.
    change (now (crossed w)) with (now w) in *.
    change (DB (crossed w)) with (DB w) in *.
    change (APP_STATE (crossed w)) with (APP_STATE w) in *.
    eexists _, _, _. split; [done|]. split; [exact Hx|]. split; [by rewrite Hdb'|].
    by rewrite Hkv', Hkv.
Qed.

(** ** The engine on the statements of the guard *)

Lemma exec_CreateReleases t db r db' :
  Sql.exec t CreateReleases db = inr (r, db') →
  is_Some (tbl_releases db') ∧
  tbl_excluded_tickets db' = tbl_excluded_tickets db ∧
  (is_Some (tbl_releases db) → db' = db).
Proof.
  simpl. destruct (tbl_releases db) as [tr|] eqn:E; intros [= <- <-]; simpl.
  - rewrite E. by eauto.
  - split; [by eauto|]. split; [done|]. by intros [? [=]].
Qed.

Lemma exec_CreateExcludedTickets t db r db' :
  Sql.exec t CreateExcludedTickets db = inr (r, db') →
  is_Some (tbl_excluded_tickets db') ∧
  tbl_releases db' = tbl_releases db ∧
  (is_Some (tbl_excluded_tickets db) → db' = db).
Proof.
  simpl. destruct (tbl_excluded_tickets db) as [tt|] eqn:E; intros [= <- <-]; simpl.
  - rewrite E. by eauto.
  - split; [by eauto|]. split; [done|]. by intros [? [=]].
Qed.

Lemma exec_AddReleaseType t db r db' :
  Sql.exec t AddReleaseType db = inr (r, db') →
  ∃ tr, tbl_releases db = Some tr ∧ has_release_type tr = false ∧
        tbl_releases db' = Some (mkReleases true (Sql.with_default_type <$> rows tr) (seq tr)) ∧
        tbl_excluded_tickets db' = tbl_excluded_tickets db.
Proof.
  simpl. destruct (tbl_releases db) as [tr|]; [|done].
  destruct (has_release_type tr) eqn:E; [done|].
  intros [= <- <-]. by exists tr.
Qed.

(** On a migrated database an INSERT that does not name [release_type]
    stores the default. *)
Lemma migrated_insert_default db t d s e u :
  migrated db → s ∈ Sql.STATUSES →
  ∃ r db' row,
    Sql.exec t (InsertRelease (Some d) (Some s) None e (Some u)) db = inr (r, db') ∧
    release_rows db' = release_rows db ++ [row] ∧
    release_type row = Some "FULL".
Proof.
  intros [(tr & Htr & Hcol) _] Hs. unfold release_rows. simpl. rewrite Htr, Hcol. simpl.
  unfold Sql.one_of. rewrite bool_decide_eq_true_2 by done. simpl.
  eexists _, _, _. split; [reflexivity|]. by simpl.
Qed.

(** On a migrated database every INSERT that succeeds stores a release type
    of the closed set. *)
Lemma migrated_insert_checked db t d s ty e u r db' :
  migrated db →
  Sql.exec t (InsertRelease d s ty e u) db = inr (r, db') →
  ∃ row v, release_rows db' = release_rows db ++ [row] ∧
           release_type row = Some v ∧ v ∈ Sql.RELEASE_TYPES ∧
           status row ∈ Sql.STATUSES.
Proof.
  intros [(tr & Htr & Hcol) _]. unfold release_rows. simpl. rewrite Htr, Hcol.
  rewrite andb_false_r. destruct d as [d|], s as [s|], u as [u|]; try done.
  simpl.
  set (v := Sql.stored_type true ty).
  assert (Hv : v = Sql.stored_type true ty) by done.
  change (match ty with Some v0 => v0 | None => Some Sql.DEFAULT_RELEASE_TYPE end)
    with v.
  clearbody v. destruct v as [v|]; [|done].
  rewrite bool_decide_eq_false_2 by done. simpl.
  destruct (Sql.one_of Sql.STATUSES s) eqn:Hs; [|done]. simpl.
  destruct (Sql.one_of Sql.RELEASE_TYPES v) eqn:Hin; [|done]. simpl.
  intros [= <- <-]. simpl. eexists _, v. split; [reflexivity|]. simpl.
  split; [done|]. split; by eapply bool_decide_eq_true_1.
Qed.

(** *** C3 *)

(** C3. Starting from external schema version 0 (the key absent, or holding
    a text that does not parse to a number other than 0), a run of
    [initializeDatabase] that returns true leaves the external version equal
    to the target version 2, both tables in place, and the column
    [release_type] present: every row already stored reads 'FULL', an INSERT
    that does not name the column stores 'FULL', and every INSERT that
    succeeds stores a value of {FULL, HOTFIX}. *)
Theorem initializeDatabase_from_version_0 w w1 :
  version w = 0 →
  initializeDatabase w = (Returned true, w1) →
  APP_STATE w1 !! "DB_SCHEMA_VERSION" = Some "2" ∧
  version w1 = CURRENT_SCHEMA_VERSION ∧
  migrated (DB w1) ∧
  Forall (λ r, release_type r = Some "FULL") (release_rows (DB w1)) ∧
  (∀ t d s e u, s ∈ Sql.STATUSES →
     ∃ r db row,
       Sql.exec t (InsertRelease (Some d) (Some s) None e (Some u)) (DB w1) = inr (r, db) ∧
       release_rows db = release_rows (DB w1) ++ [row] ∧
       release_type row = Some "FULL") ∧
  (∀ t d s ty e u r db,
     Sql.exec t (InsertRelease d s ty e u) (DB w1) = inr (r, db) →
     ∃ row v, release_rows db = release_rows (DB w1) ++ [row] ∧
              release_type row = Some v ∧ v ∈ Sql.RELEASE_TYPES).
Proof.
  intros Hv H.
  destruct (initializeDatabase_migrates w w1) as (db & r & db1 & Hbase & Hadd & Hdb & Hkv);
    [unfold CURRENT_SCHEMA_VERSION; lia | done |].
  rewrite Hv in Hbase, Hkv. change (0 =? 0) with true in Hbase, Hkv.
  cbv iota in Hbase, Hkv.
  destruct Hbase as (r1 & r2 & db0 & Hc1 & Hc2).
  apply exec_CreateReleases in Hc1 as (_ & _ & _).
  apply exec_CreateExcludedTickets in Hc2 as (Het & _ & _).
  apply exec_AddReleaseType in Hadd as (tr & Htr & Hno & Htr1 & Het1).
  assert (Hm : migrated (DB w1)).
  { rewrite Hdb. split; [by eauto|]. by rewrite Het1. }
  split; [by rewrite Hkv, lookup_insert_eq|].
  split; [by unfold version; rewrite Hkv, lookup_insert_eq|].
  split; [done|].
  split.
  { unfold release_rows. rewrite Hdb, Htr1. simpl.
    apply Forall_fmap, Forall_true. done. }
  split.
  - intros. by apply migrated_insert_default.
  - intros t d s ty e u r0 db' Hx.
    destruct (migrated_insert_checked _ _ _ _ _ _ _ _ _ Hm Hx) as (row & v & ? & ? & ? & _).
    by eauto.
Qed.

Lemma version_absent w :
  APP_STATE w !! "DB_SCHEMA_VERSION" = None → version w = 0.
Proof. unfold version. by intros ->. Qed.

Lemma version_unparseable w :
  Js.parseInt (APP_STATE w !! "DB_SCHEMA_VERSION") = None → version w = 0.
Proof. unfold version. by intros ->. Qed.

Example parseInt_garbage : Js.parseInt (Some "v2") = None.
Proof. reflexivity. Qed.

(** On a store that holds nothing, with the network up, the guard succeeds. *)
Lemma initializeDatabase_fresh w :
  DB w = empty_database → version w = 0 → failures w = [] →
  ∃ w1, initializeDatabase w = (Returned true, w1).
Proof.
  intros Hdb Hv Hf. rewrite initializeDatabase_spec.
  unfold initializeDatabase_try, bind. rewrite kv_get_spec, Hf. simpl.
  change (Js.or_zero (Js.parseInt (APP_STATE w !! "DB_SCHEMA_VERSION"))) with (version w).
  rewrite Hv. simpl. rewrite (crossed_quiet w Hf).
  unfold createInitialSchema, bind. rewrite run_spec, Hf, Hdb. simpl.
  by eexists.
Qed.

Lemma initializeDatabase_from_version_0_witness :
  APP_STATE (initializeDatabase fresh_world).2 !! "DB_SCHEMA_VERSION" = Some "2" ∧
  migrated (DB (initializeDatabase fresh_world).2).
Proof.
  destruct (initializeDatabase_from_version_0 fresh_world (initializeDatabase fresh_world).2)
    as (H1 & _ & H2 & _).
  - reflexivity.
  - vm_compute. reflexivity.
  - by split.
Defined.

(** *** C4 *)

Lemma initializeDatabase_true_version w w1 :
  initializeDatabase w = (Returned true, w1) → CURRENT_SCHEMA_VERSION ≤ version w1.
Proof.
  intros H. destruct (Z.lt_ge_cases (version w) CURRENT_SCHEMA_VERSION) as [Hlt|Hge].
  - destruct (initializeDatabase_migrates w w1 Hlt H) as (_ & _ & _ & _ & _ & _ & Hkv).
    unfold version. rewrite Hkv, lookup_insert_eq. done.
  - rewrite (initializeDatabase_current w Hge) in H. by simplify_eq.
Qed.

(** C4, as amended. When a run of [initializeDatabase] returns true, the run
    that follows it executes no statement and leaves the database and the
    external version as they are; it returns true, unless its read of the
    version fails in transport, in which case it returns false. *)
Theorem initializeDatabase_again w w1 :
  initializeDatabase w = (Returned true, w1) →
  ∃ w2, initializeDatabase w1 = (Returned (negb (hd false (failures w1))), w2) ∧
        DB w2 = DB w1 ∧ APP_STATE w2 = APP_STATE w1 ∧ executed w2 = executed w1.
Proof.
  intros H%initializeDatabase_true_version.
  exists (crossed w1). by rewrite (initializeDatabase_current w1 H).
Qed.

Lemma initializeDatabase_again_witness :
  ∃ w2, initializeDatabase (initializeDatabase fresh_world).2 = (Returned true, w2) ∧
        DB w2 = DB (initializeDatabase fresh_world).2 ∧
        APP_STATE w2 = APP_STATE (initializeDatabase fresh_world).2 ∧
        executed w2 = executed (initializeDatabase fresh_world).2.
Proof.
  apply (initializeDatabase_again fresh_world (initializeDatabase fresh_world).2).
  vm_compute. reflexivity.
Defined.

(** The half migrated store is what the interrupted first run leaves. *)
Lemma interrupted_run :
  (initializeDatabase interrupted_world).1 = Returned false ∧
  APP_STATE (initializeDatabase interrupted_world).2 = APP_STATE half_migrated_world ∧
  DB (initializeDatabase interrupted_world).2 = DB half_migrated_world ∧
  failures (initializeDatabase interrupted_world).2 = [].
Proof. vm_compute. done. Qed.

(** C4, counterexample. From the half migrated store (version 1, the column
    already added) and with the network up, the first run returns false and
    so does the second one: each time ALTER TABLE meets the column that is
    already there. *)
Lemma initializeDatabase_twice_false :
  (initializeDatabase half_migrated_world).1 = Returned false ∧
  (initializeDatabase (initializeDatabase half_migrated_world).2).1 = Returned false ∧
  (initializeDatabase (initializeDatabase half_migrated_world).2).1 ≠ Returned true.
Proof. vm_compute. done. Qed.

(** *** C5 *)

(** C5, as amended. [initializeDatabase] never throws: it returns true when
    the steps of its [try] block complete and false when one of them throws.
    Its callers [handleGetReleases] and [handleCreateRelease] do not look at
    the boolean: each goes on with the rest of its [try] block in the world
    the guard left, so an error reaches the client only if a later step
    throws. *)
Theorem initializeDatabase_boundary jira c w :
  let b := match (initializeDatabase_try w).1 with
           | Returned _ => true
           | Thrown _ => false
           end in
  let w1 := (initializeDatabase_try w).2 in
  initializeDatabase w = (Returned b, w1) ∧
  handleGetReleases c w =
    try_catch (handleGetReleases_rest c) handleGetReleases_catch w1 ∧
  handleCreateRelease jira c w =
    match json c with
    | Some body =>
        try_catch (handleCreateRelease_rest jira c body) handleCreateRelease_catch w1
    | None => (Returned (Json "Unexpected end of JSON input" 500), w)
    end.
Proof.
  intros b w1. pose proof (initializeDatabase_spec w) as H. fold b w1 in H.
  split; [done|]. split.
  - unfold handleGetReleases, try_catch, bind. by rewrite H.
  - unfold handleCreateRelease, request_json, try_catch, bind.
    destruct (json c) as [body|]; [|done]. unfold ret at 1. by rewrite H.
Qed.

(** C5, counterexample. On the half migrated store the guard returns false,
    and [handleGetReleases] answers with the list of releases all the same:
    no error is surfaced. *)
Lemma handleGetReleases_after_false :
  (initializeDatabase half_migrated_world).1 = Returned false ∧
  ∃ response,
    (handleGetReleases some_context half_migrated_world).1 = Returned response ∧
    response = Html [] false ∧ is_error response = false.
Proof. split; [vm_compute; reflexivity|]. eexists. split; [vm_compute; reflexivity|done]. Qed.

(** ** Soft delete *)

Lemma deleteRelease_spec rid u w :
  deleteRelease rid u w =
    if hd false (failures w) then (Thrown BindingFailure, crossed w)
    else match tbl_releases (DB w) with
         | None =>
             (Thrown (D1Error (Sql.no_such_table "releases")),
              mkWorld (APP_STATE w) (DB w) (now w) (tail (failures w))
                (SoftDelete (Some u) rid :: executed w))
         | Some t =>
             (Returned true,
              mkWorld (APP_STATE w)
                (mkDatabase
                   (Some (mkReleases (has_release_type t)
                            (Sql.soft_delete (now w) (Some u) rid <$> rows t) (seq t)))
                   (tbl_excluded_tickets (DB w)) (last_insert_rowid (DB w)))
                (now w) (tail (failures w)) (SoftDelete (Some u) rid :: executed w))
         end.
Proof.
  unfold deleteRelease. rewrite try_catch_rethrow. unfold bind. rewrite run_spec.
  destruct (hd false (failures w)); [done|]. simpl.
  by destruct (tbl_releases (DB w)).
Qed.

Lemma soft_delete_other t u rid r :
  r_id r ≠ rid ∨ deleted_at r ≠ None → Sql.soft_delete t u rid r = r.
Proof.
  intros H. unfold Sql.soft_delete. case_bool_decide as Hd; [|done].
  destruct Hd, H; done.
Qed.

Lemma soft_delete_hit t u rid r :
  r_id r = rid → deleted_at r = None →
  deleted_at (Sql.soft_delete t u rid r) = Some t ∧
  deleted_by (Sql.soft_delete t u rid r) = u.
Proof.
  intros H1 H2. unfold Sql.soft_delete. by rewrite bool_decide_eq_true_2.
Qed.

Lemma soft_delete_same t u rid r :
  same_but_delete_markers r (Sql.soft_delete t u rid r).
Proof.
  unfold Sql.soft_delete, same_but_delete_markers. by case_bool_decide.
Qed.

Lemma soft_delete_deleted t u rid r :
  r_id r = rid → deleted_at (Sql.soft_delete t u rid r) ≠ None.
Proof.
  intros H. unfold Sql.soft_delete. case_bool_decide as Hd; simpl; [done|].
  intros Hn. by apply Hd.
Qed.

Lemma soft_delete_id t u rid r : r_id (Sql.soft_delete t u rid r) = r_id r.
Proof. apply soft_delete_same. Qed.

Lemma soft_delete_none t u rid (l : list Release) :
  (∀ r, r ∈ l → r_id r = rid → deleted_at r ≠ None) →
  Sql.soft_delete t u rid <$> l = l.
Proof.
  intros H. induction l as [|r l IH]; [done|]. simpl. f_equal.
  - apply soft_delete_other. destruct (decide (r_id r = rid)) as [E|]; [|by left].
    right. apply H; [by left|done].
  - apply IH. intros r' Hr'. apply H. by right.
Qed.

(** *** C1 *)

(** C1, as amended. With the table in place and the network up,
    [deleteRelease] returns the success flag of its UPDATE, which is true
    whether or not a row matched.  Called on an active release it sets
    [deleted_at] and [deleted_by] and returns true; called again on the same
    id it changes nothing and returns true again; called on an id that no
    active row carries (none at all, in particular) it changes nothing and
    returns true, without throwing. *)
Theorem deleteRelease_returns_success w t rid u u2 :
  tbl_releases (DB w) = Some t →
  failures w = [] →
  ∃ w1 w2,
    deleteRelease rid u w = (Returned true, w1) ∧
    (∀ r, r ∈ rows t → r_id r = rid → deleted_at r = None →
       ∃ r', r' ∈ release_rows (DB w1) ∧ same_but_delete_markers r r' ∧
             deleted_at r' = Some (now w) ∧ deleted_by r' = Some u) ∧
    ((∀ r, r ∈ rows t → r_id r = rid → deleted_at r ≠ None) → DB w1 = DB w) ∧
    (rid ∉ ids (DB w) → DB w1 = DB w) ∧
    deleteRelease rid u2 w1 = (Returned true, w2) ∧
    DB w2 = DB w1.
Proof.
  intros Ht Hf. eexists _, _.
  rewrite !deleteRelease_spec, Hf, Ht. simpl.
  assert (Hsame : (∀ r, r ∈ rows t → r_id r = rid → deleted_at r ≠ None) →
            mkDatabase
              (Some (mkReleases (has_release_type t)
                       (Sql.soft_delete (now w) (Some u) rid <$> rows t) (seq t)))
              (tbl_excluded_tickets (DB w)) (last_insert_rowid (DB w)) = DB w).
  { intros Hnone. rewrite soft_delete_none by done.
    destruct (DB w) as [tr te l]. simpl in *. rewrite Ht. by destruct t. }
  split; [reflexivity|]. split; [|split; [|split; [|split; [reflexivity|]]]].
  - intros r Hr Hid Hact. exists (Sql.soft_delete (now w) (Some u) rid r).
    split; [by apply list_elem_of_fmap_2|]. split; [apply soft_delete_same|].
    by apply soft_delete_hit.
  - exact Hsame.
  - intros Hnew. apply Hsame. intros r Hr Hid. exfalso. apply Hnew.
    unfold ids, release_rows. rewrite Ht. simpl. rewrite <- Hid.
    by apply list_elem_of_fmap_2.
  - simpl. rewrite soft_delete_none; [done|].
    intros r (r0 & -> & Hr0)%list_elem_of_fmap Hid.
    apply soft_delete_deleted. by rewrite soft_delete_id in Hid.
Qed.

Lemma deleteRelease_returns_success_witness :
  ∃ w1 w2,
    deleteRelease 1 "root@x.com" one_release_world = (Returned true, w1) ∧
    deleteRelease 1 "root@x.com" w1 = (Returned true, w2) ∧ DB w2 = DB w1.
Proof.
  destruct (deleteRelease_returns_success one_release_world
              (mkReleases true [release_1] 1) 1 "root@x.com" "root@x.com")
    as (w1 & w2 & H1 & _ & _ & _ & H2 & H3).
  - reflexivity.
  - reflexivity.
  - by exists w1, w2.
Defined.

(** C1, counterexample. The second call on the same id, and a call on an id
    that was never assigned, both return true, not false. *)
Lemma deleteRelease_reports_true_without_change :
  let w1 := (deleteRelease 1 "root@x.com" one_release_world).2 in
  (deleteRelease 1 "root@x.com" one_release_world).1 = Returned true ∧
  (deleteRelease 1 "root@x.com" w1).1 = Returned true ∧
  DB (deleteRelease 1 "root@x.com" w1).2 = DB w1 ∧
  (deleteRelease 7 "root@x.com" one_release_world).1 = Returned true ∧
  DB (deleteRelease 7 "root@x.com" one_release_world).2 = DB one_release_world ∧
  (deleteRelease 1 "root@x.com" w1).1 ≠ Returned false.
Proof. vm_compute. done. Qed.

(** *** C10 *)

Lemma deleteRelease_rows rid u w :
  release_rows (DB (deleteRelease rid u w).2) =
    (if hd false (failures w) then release_rows (DB w)
     else Sql.soft_delete (now w) (Some u) rid <$> release_rows (DB w)) ∧
  tbl_excluded_tickets (DB (deleteRelease rid u w).2) = tbl_excluded_tickets (DB w) ∧
  APP_STATE (deleteRelease rid u w).2 = APP_STATE w.
Proof.
  rewrite deleteRelease_spec. unfold release_rows.
  destruct (hd false (failures w)); [done|].
  destruct (tbl_releases (DB w)) eqn:E; simpl; by rewrite ?E.
Qed.

Lemma kept_refl r : kept r r.
Proof. by repeat split. Qed.

Lemma kept_trans r1 r2 r3 : kept r1 r2 → kept r2 r3 → kept r1 r3.
Proof.
  intros [S12 D12] [S23 D23]. split.
  - unfold same_but_delete_markers in *. intuition congruence.
  - intros Hd. rewrite <- (D12 Hd). apply D23. by rewrite (D12 Hd).
Qed.

Lemma soft_delete_kept t u rid r : kept r (Sql.soft_delete t u rid r).
Proof.
  split; [apply soft_delete_same|]. intros Hd. apply soft_delete_other. by right.
Qed.

Lemma deleteRelease_kept rid u w :
  Forall2 kept (release_rows (DB w)) (release_rows (DB (deleteRelease rid u w).2)).
Proof.
  destruct (deleteRelease_rows rid u w) as (-> & _ & _).
  destruct (hd false (failures w)).
  - apply Forall_Forall2_diag, Forall_true, kept_refl.
  - apply Forall2_fmap_r, Forall_Forall2_diag, Forall_true, soft_delete_kept.
Qed.

Lemma deletes_kept (later : list (Z * string)) w :
  Forall2 kept (release_rows (DB w))
    (release_rows (DB (history w (uncurry Delete <$> later)))) ∧
  tbl_excluded_tickets (DB (history w (uncurry Delete <$> later))) =
    tbl_excluded_tickets (DB w).
Proof.
  revert w. induction later as [|[rid u] later IH]; intros w.
  - split; [|done]. apply Forall_Forall2_diag, Forall_true, kept_refl.
  - change (history w (uncurry Delete <$> (rid, u) :: later))
      with (history (deleteRelease rid u w).2 (uncurry Delete <$> later)).
    destruct (IH (deleteRelease rid u w).2) as [IH1 IH2]. split.
    + eapply Forall2_trans; [|apply deleteRelease_kept|exact IH1].
      apply kept_trans.
    + rewrite IH2. apply deleteRelease_rows.
Qed.

(** C10. [deleteRelease] touches nothing but the delete markers of the row it
    names: the KV namespace and every ticket row stay as they are; the rows
    of [releases] stay in place, each one keeping every column other than
    [deleted_at] and [deleted_by], and staying entirely as it is unless its
    id is the given one and its [deleted_at] is null; ids being distinct, at
    most one row changes.  Later calls never overwrite markers that are set:
    after any further calls of [deleteRelease], a row whose [deleted_at] was
    set is still the same row, and the tickets are still untouched. *)
Theorem deleteRelease_frame w rid u (later : list (Z * string)) :
  let w1 := (deleteRelease rid u w).2 in
  let w2 := history w1 (uncurry Delete <$> later) in
  APP_STATE w1 = APP_STATE w ∧
  tbl_excluded_tickets (DB w1) = tbl_excluded_tickets (DB w) ∧
  Forall2 (λ r r', same_but_delete_markers r r' ∧
                   (r_id r ≠ rid ∨ deleted_at r ≠ None → r' = r))
    (release_rows (DB w)) (release_rows (DB w1)) ∧
  (NoDup (ids (DB w)) →
   ∀ i j ri rj,
     release_rows (DB w) !! i = Some ri → release_rows (DB w1) !! i ≠ Some ri →
     release_rows (DB w) !! j = Some rj → release_rows (DB w1) !! j ≠ Some rj →
     i = j) ∧
  Forall2 (λ r r', same_but_delete_markers r r' ∧ (deleted_at r ≠ None → r' = r))
    (release_rows (DB w1)) (release_rows (DB w2)) ∧
  tbl_excluded_tickets (DB w2) = tbl_excluded_tickets (DB w).
Proof.
  intros w1 w2. destruct (deleteRelease_rows rid u w) as (Hrows & Htk & Hkv).
  fold w1 in Hrows, Htk, Hkv.
  assert (Hstep : ∀ i r, release_rows (DB w) !! i = Some r →
            release_rows (DB w1) !! i ≠ Some r → r_id r = rid).
  { intros i r Hi Hch. rewrite Hrows in Hch.
    destruct (hd false (failures w)); [done|].
    rewrite list_lookup_fmap, Hi in Hch. simpl in Hch.
    destruct (decide (r_id r = rid)) as [|Hne]; [done|].
    rewrite soft_delete_other in Hch by (by left). done. }
  split; [done|]. split; [done|]. split; [|split; [|split]].
  - rewrite Hrows. destruct (hd false (failures w)).
    + apply Forall_Forall2_diag, Forall_true. intros r. by repeat split.
    + apply Forall2_fmap_r, Forall_Forall2_diag, Forall_true. intros r.
      split; [apply soft_delete_same|]. apply soft_delete_other.
  - intros Hnd i j ri rj Hi Hci Hj Hcj.
    apply (NoDup_lookup (ids (DB w)) i j rid); [done|..]; unfold ids;
      rewrite list_lookup_fmap.
    + rewrite Hi. simpl. f_equal. by eapply Hstep.
    + rewrite Hj. simpl. f_equal. by eapply Hstep.
  - apply (deletes_kept later w1).
  - unfold w2. destruct (deletes_kept later w1) as [_ ->]. done.
Qed.

(** ** Steps of the engine *)

Lemma exec_transition now s db r db' :
  Sql.exec now s db = inr (r, db') → transition now db s db' ∧ success r = true.
Proof.
  destruct s as [ | | | lim | rid | date st ty expl user | | rid k sm ur user | user rid];
    simpl.
  - destruct (tbl_releases db) eqn:E; intros [= <- <-]; split; try done;
      [apply tr_none | by apply tr_create_releases].
  - destruct (tbl_excluded_tickets db) eqn:E; intros [= <- <-]; split; try done;
      [apply tr_none | by apply tr_create_excluded_tickets].
  - destruct (tbl_releases db) as [tr|] eqn:E; [|done].
    destruct (has_release_type tr) eqn:Hc; [done|].
    intros [= <- <-]. split; [|done]. by apply tr_add_release_type.
  - destruct (tbl_releases db), (tbl_excluded_tickets db); try done.
    intros [= <- <-]. split; [apply tr_none|done].
  - destruct (tbl_releases db), (tbl_excluded_tickets db); try done.
    intros [= <- <-]. split; [apply tr_none|done].
  - destruct (tbl_releases db) as [tr|] eqn:E; [|done].
    destruct (bool_decide (is_Some ty) && negb (has_release_type tr)) eqn:Hnamed; [done|].
    destruct date as [d|], st as [s|], user as [u|]; try done.
    assert (Hcol : is_Some ty → has_release_type tr = true).
    { intros Hty. rewrite bool_decide_eq_true_2 in Hnamed by done.
      by destruct (has_release_type tr). }
    destruct (has_release_type tr) eqn:Hc; simpl.
    + set (v := match ty with Some v => v | None => Some Sql.DEFAULT_RELEASE_TYPE end).
      assert (Hv : Sql.stored_type true ty = v) by done. clearbody v.
      destruct v as [v|]; [|done].
      rewrite bool_decide_eq_false_2 by done.
      destruct (Sql.one_of Sql.STATUSES s) eqn:Hs; [|done]. simpl.
      destruct (Sql.one_of Sql.RELEASE_TYPES v) eqn:Hin; [|done]. simpl.
      intros [= <- <-]. split; [|done].
      assert (H1 : s ∈ Sql.STATUSES) by (by eapply bool_decide_eq_true_1).
      assert (H2 : is_Some ty → has_release_type tr = true) by done.
      assert (H3 : has_release_type tr = true →
                   ∃ v, Sql.stored_type true ty = Some v ∧ v ∈ Sql.RELEASE_TYPES).
      { intros _. exists v. split; [done|]. by eapply bool_decide_eq_true_1. }
      pose proof (tr_insert_release now db tr d s ty expl u E H1 H2 H3) as Htr.
      rewrite Hc, Hv in Htr. exact Htr.
    + destruct (Sql.one_of Sql.STATUSES s) eqn:Hs; [|done]. simpl.
      intros [= <- <-]. split; [|done].
      assert (H1 : s ∈ Sql.STATUSES) by (by eapply bool_decide_eq_true_1).
      assert (H2 : is_Some ty → has_release_type tr = true) by (by rewrite Hc).
      assert (H3 : has_release_type tr = true →
                   ∃ v, Sql.stored_type true ty = Some v ∧ v ∈ Sql.RELEASE_TYPES)
        by (by rewrite Hc).
      pose proof (tr_insert_release now db tr d s ty expl u E H1 H2 H3) as Htr.
      rewrite Hc in Htr. exact Htr.
  - intros [= <- <-]. split; [apply tr_none|done].
  - destruct (tbl_excluded_tickets db) as [et|] eqn:E; [|done].
    destruct (tbl_releases db) as [tr|] eqn:Er; [|done].
    destruct k as [k|], user as [u|]; try done.
    case_bool_decide as Hfk; [|done].
    intros [= <- <-]. split; [|done].
    pose proof (tr_insert_ticket now db et rid k sm ur u E) as Htr.
    rewrite Er in Htr. apply Htr. unfold ids, release_rows. by rewrite Er.
  - destruct (tbl_releases db) as [tr|] eqn:E; [|done].
    intros [= <- <-]. split; [|done]. by apply tr_soft_delete.
Qed.

Lemma stable_invariant P : stable P → invariant P.
Proof.
  intros HP now s db r db' _ Hdb Hx. apply exec_transition in Hx as [Hx _].
  by eapply HP.
Qed.

Section Keeps.

Context (P : Database → Prop).

Lemma keeps_ret {A} (a : A) : keeps P (ret a).
Proof. by intros w. Qed.

Lemma keeps_throw {A} e : keeps P (throw (A:=A) e).
Proof. by intros w. Qed.

Lemma keeps_bind {A B} (m : M A) (k : A → M B) :
  keeps P m → (∀ a, keeps P (k a)) → keeps P (bind m k).
Proof.
  intros Hm Hk w HP. unfold bind. specialize (Hm w HP).
  destruct (m w) as [[a|e] w1]; simpl in *; [by apply Hk|done].
Qed.

Lemma keeps_try_catch {A} (m : M A) (h : Error → M A) :
  keeps P m → (∀ e, keeps P (h e)) → keeps P (try_catch m h).
Proof.
  intros Hm Hh w HP. unfold try_catch. specialize (Hm w HP).
  destruct (m w) as [[a|e] w1]; simpl in *; [done|by apply Hh].
Qed.

Lemma keeps_if {A} (b : bool) (m1 m2 : M A) :
  keeps P m1 → keeps P m2 → keeps P (if b then m1 else m2).
Proof. by destruct b. Qed.

Lemma keeps_parameters vs : keeps P (parameters vs).
Proof. unfold parameters. apply keeps_if; [apply keeps_throw|apply keeps_ret]. Qed.

Lemma keeps_kv_get k : keeps P (kv_get k).
Proof. intros w HP. rewrite kv_get_spec. by destruct (hd false (failures w)). Qed.

Lemma keeps_kv_put k v : keeps P (kv_put k v).
Proof. intros w HP. rewrite kv_put_spec. by destruct (hd false (failures w)). Qed.

Lemma keeps_for_of {A} (xs : list A) (body : A → M unit) :
  (∀ x, keeps P (body x)) → keeps P (for_of xs body).
Proof.
  intros Hb. induction xs as [|x xs IH]; simpl; [apply keeps_ret|].
  apply keeps_bind; [apply Hb|done].
Qed.

Lemma keeps_statement s :
  (∀ now db r db', P db → Sql.exec now s db = inr (r, db') → P db') → keeps P (run s).
Proof.
  intros Hs w HP. rewrite run_spec. destruct (hd false (failures w)); [done|].
  destruct (Sql.exec (now w) s (DB w)) as [m|[r db]] eqn:E; [done|]. simpl.
  by eapply Hs.
Qed.

Hypothesis P_invariant : invariant P.

Lemma keeps_run s : issued s → keeps P (run s).
Proof. intros Hs. apply keeps_statement. intros. by eapply P_invariant. Qed.

Lemma keeps_first s : issued s → keeps P (first s).
Proof. intros Hs. apply keeps_bind; [by by apply keeps_run|]. intros. apply keeps_ret. Qed.

Lemma keeps_initializeDatabase : keeps P initializeDatabase.
Proof.
  apply keeps_try_catch; [|intros; apply keeps_ret].
  apply keeps_bind; [apply keeps_kv_get|]. intros v.
  apply keeps_bind.
  { apply keeps_if; [|apply keeps_ret]. apply keeps_bind; [|intros; apply keeps_kv_put].
    repeat (apply keeps_bind; [by apply keeps_run|intros]). apply keeps_ret. }
  intros _. apply keeps_bind; [|intros; apply keeps_ret].
  apply keeps_if; [|apply keeps_ret]. apply keeps_bind; [|intros; apply keeps_kv_put].
  apply keeps_if; [|apply keeps_ret]. apply keeps_bind; [by apply keeps_run|].
  intros. apply keeps_ret.
Qed.

Lemma keeps_fetchRecentReleases n : keeps P (fetchRecentReleases n).
Proof. apply keeps_try_catch; [by apply keeps_run|intros; apply keeps_throw]. Qed.

Lemma keeps_fetchReleaseById rid : keeps P (fetchReleaseById rid).
Proof. apply keeps_try_catch; [by apply keeps_first|intros; apply keeps_throw]. Qed.

Lemma keeps_deleteRelease rid u : keeps P (deleteRelease rid u).
Proof.
  apply keeps_try_catch; [|intros; apply keeps_throw].
  apply keeps_bind; [by apply keeps_run|intros; apply keeps_ret].
Qed.

Lemma keeps_createRelease release tickets u : keeps P (createRelease release tickets u).
Proof.
  apply keeps_try_catch; [|intros; apply keeps_throw].
  apply keeps_bind; [apply keeps_bind; [apply keeps_parameters|intros; by apply keeps_run]|].
  intros r.
  apply keeps_bind; [apply keeps_if; [apply keeps_throw|apply keeps_ret]|]. intros _.
  apply keeps_bind; [by apply keeps_first|]. intros row.
  apply keeps_bind; [destruct row as [[]|]; (apply keeps_ret || apply keeps_throw)|].
  intros rid. apply keeps_bind; [|intros; apply keeps_fetchReleaseById].
  apply keeps_if; [|apply keeps_ret]. apply keeps_for_of. intros x.
  apply keeps_bind; [apply keeps_parameters|intros].
  apply keeps_bind; [by apply keeps_run|intros; apply keeps_ret].
Qed.

Lemma perform_keeps w c : P (DB w) → P (DB (perform w c)).
Proof.
  destruct c; simpl; try done.
  - apply keeps_initializeDatabase.
  - apply keeps_createRelease.
  - apply keeps_deleteRelease.
  - apply keeps_fetchRecentReleases.
  - apply keeps_fetchReleaseById.
Qed.

(** A stable property that holds at some point holds ever after. *)
Lemma history_keeps cs w : P (DB w) → P (DB (history w cs)).
Proof.
  revert w. induction cs as [|c cs IH]; intros w HP; [done|].
  apply (IH (perform w c)). by apply perform_keeps.
Qed.

End Keeps.

(** ** Invariants *)

Lemma ids_with_default_type (l : list Release) :
  r_id <$> (Sql.with_default_type <$> l) = r_id <$> l.
Proof. rewrite <- list_fmap_compose. done. Qed.

Lemma ids_soft_delete t u rid (l : list Release) :
  r_id <$> (Sql.soft_delete t u rid <$> l) = r_id <$> l.
Proof.
  rewrite <- list_fmap_compose. apply list_fmap_ext. intros i r _. simpl.
  apply soft_delete_id.
Qed.

Lemma well_formed_stable : stable well_formed.
Proof.
  intros t s db db' (Hnd & Hle & Hfk) Htr.
  unfold well_formed, ids, release_rows, ticket_rows in *.
  destruct Htr as [ s | Hr | He | tr Hr Hc | tr d s named e u Hr Hs Hcol Hty
                  | et rid k sm ur u He Hin | tr u rid Hr ]; simpl.
  - done.
  - rewrite Hr in *. simpl in *. split; [constructor|]. split; [constructor|done].
  - split; [done|]. split; [done|constructor].
  - rewrite Hr in *. simpl in *. rewrite ids_with_default_type.
    split; [done|]. split; [|done].
    apply Forall_fmap. eapply Forall_impl; [exact Hle|]. done.
  - rewrite Hr in *. simpl in *. rewrite fmap_app. simpl.
    split; [|split].
    + apply NoDup_app. split; [done|]. split; [|apply NoDup_singleton].
      intros x Hx ->%list_elem_of_singleton.
      apply list_elem_of_fmap in Hx as (r & Hid & Hx).
      rewrite Forall_forall in Hle. specialize (Hle r Hx). lia.
    + apply Forall_app. split.
      * eapply Forall_impl; [exact Hle|]. simpl. intros. lia.
      * constructor; [simpl; lia|constructor].
    + eapply Forall_impl; [exact Hfk|]. simpl. intros x Hx.
      apply elem_of_app. by left.
  - rewrite He in *. simpl in *. split; [done|]. split; [done|].
    apply Forall_app. split; [done|]. constructor; [done|constructor].
  - rewrite Hr in *. simpl in *. rewrite ids_soft_delete.
    split; [done|]. split; [|done].
    apply Forall_fmap. eapply Forall_impl; [exact Hle|]. simpl. intros r.
    by rewrite soft_delete_id.
Qed.

(** Every store reached from the empty one is well formed. *)
Lemma reachable_well_formed w cs :
  DB w = empty_database → well_formed (DB (history w cs)).
Proof.
  intros Hdb. apply (history_keeps _ (stable_invariant _ well_formed_stable)).
  rewrite Hdb. repeat split; constructor.
Qed.

Lemma deleted_for_good_stable rid : stable (deleted_for_good rid).
Proof.
  intros t s db db' (tr0 & Ht & Hle & Hdel) Htr. unfold deleted_for_good.
  destruct Htr as [ s | Hr | He | tr Hr Hc | tr d s named e u Hr Hs Hcol Hty
                  | et rid' k sm ur u He Hin | tr u rid' Hr ]; simpl;
    try (by exists tr0); try congruence;
    rewrite Hr in Ht; injection Ht as <-; eexists; (split; [reflexivity|]); simpl.
  - split; [done|]. intros r (r0 & -> & Hr0)%list_elem_of_fmap. simpl. by apply Hdel.
  - split; [lia|]. intros r [Hin| ->%list_elem_of_singleton]%elem_of_app; [by apply Hdel|].
    simpl. lia.
  - split; [done|]. intros r (r0 & -> & Hr0)%list_elem_of_fmap Hid.
    rewrite soft_delete_id in Hid. unfold Sql.soft_delete. case_bool_decide; [done|].
    by apply Hdel.
Qed.

Lemma default_type_closed : Sql.DEFAULT_RELEASE_TYPE ∈ Sql.RELEASE_TYPES.
Proof. unfold Sql.RELEASE_TYPES, Sql.DEFAULT_RELEASE_TYPE. set_solver. Qed.

Lemma closed_invariant : invariant closed.
Proof.
  intros t s db r db' Hs Hc [Htr _]%exec_transition. unfold closed, release_rows in *.
  destruct Htr as [ s | Hr | He | tr Hr Hcol | tr d s named e u Hr Hst Hcol Hty
                  | et rid' k sm ur u He Hin | tr u rid' Hr ]; simpl.
  - done.
  - constructor.
  - done.
  - rewrite Hr in Hc. simpl in Hc. apply Forall_fmap. eapply Forall_impl; [exact Hc|].
    intros r0 [H1 _]. split; [done|]. exists Sql.DEFAULT_RELEASE_TYPE.
    split; [done|apply default_type_closed].
  - rewrite Hr in Hc. simpl in Hc. apply Forall_app. split; [done|].
    constructor; [|constructor]. split; [done|]. simpl.
    destruct named as [ty|]; [|done].
    rewrite Hcol by eauto. apply Hty. apply Hcol. by eauto.
  - done.
  - rewrite Hr in Hc. simpl in Hc. apply Forall_fmap. eapply Forall_impl; [exact Hc|].
    intros r0 H0. destruct (soft_delete_same t u rid' r0) as (_ & _ & Hst & Hty & _).
    unfold compose, in_closed_sets. by rewrite Hst, Hty.
Qed.

(** *** C9 *)

(** The storage layer rejects an INSERT of [createRelease] whose status or
    release type is outside the closed sets (or null). *)
Lemma exec_insert_rejected now date st ty e u db :
  ¬ ((∃ s, st = Some s ∧ s ∈ Sql.STATUSES) ∧
     (∃ v, ty = Some v ∧ v ∈ Sql.RELEASE_TYPES)) →
  ∃ m, Sql.exec now (InsertRelease date st (Some ty) e u) db = inl m.
Proof.
  intros Hbad. simpl. destruct (tbl_releases db) as [tr|]; [|by eauto].
  destruct (has_release_type tr); simpl; [|by eauto].
  destruct date as [d|], st as [s|], u as [u|]; try by eauto.
  destruct ty as [v|]; simpl; [|by eauto].
  destruct (Sql.one_of Sql.STATUSES s) eqn:Hs; simpl; [|by eauto].
  destruct (Sql.one_of Sql.RELEASE_TYPES v) eqn:Hv; simpl; [|by eauto].
  exfalso. apply Hbad. split; eexists; (split; [reflexivity|]);
    by eapply bool_decide_eq_true_1.
Qed.

(** C9. The rows of [releases] stay within the closed sets: the empty store
    has none, and from a store where every row has its status in {GO, NO_GO}
    and its release type in {FULL, HOTFIX}, every history of calls leads to
    such a store again.  A [createRelease] whose status or release type is
    null, undefined or outside these sets throws and leaves the database as
    it was; the error is that of D1 refusing to bind [undefined] when the
    date, the status or the type is, and otherwise the engine's, unless the
    call fails in transport before. *)
Theorem releases_in_closed_sets :
  closed empty_database ∧
  (∀ w cs, closed (DB w) →
     ∀ r, r ∈ release_rows (DB (history w cs)) →
          status r ∈ ["GO"; "NO_GO"] ∧
          ∃ t, release_type r = Some t ∧ t ∈ ["FULL"; "HOTFIX"]) ∧
  (∀ release tickets user w,
     ¬ ((∃ s, in_status release = Js.text s ∧ s ∈ ["GO"; "NO_GO"]) ∧
        (∃ t, in_release_type release = Js.text t ∧ t ∈ ["FULL"; "HOTFIX"])) →
     ∃ e, (createRelease release tickets user w).1 = Thrown e ∧
          DB (createRelease release tickets user w).2 = DB w ∧
          (Js.undefined ∈ [in_release_date release; in_status release;
                           in_release_type release] → e = D1_TYPE_ERROR) ∧
          (Js.undefined ∉ [in_release_date release; in_status release;
                           in_release_type release] →
           hd false (failures w) = false → ∃ f, e = D1Error f)).
Proof.
  split; [constructor|]. split.
  - intros w cs Hc r Hr.
    pose proof (history_keeps closed closed_invariant cs w Hc) as Hc'.
    unfold closed in Hc'. rewrite Forall_forall in Hc'. by apply Hc'.
  - intros release tickets user w Hbad.
    unfold createRelease. rewrite try_catch_rethrow.
    set (vs := [in_release_date release; in_status release; in_release_type release]).
    destruct (existsb Js.is_undefined vs) eqn:Hu.
    { exists D1_TYPE_ERROR.
      rewrite (bind_thrown _ _ w D1_TYPE_ERROR w).
      2: { apply bind_thrown. by rewrite parameters_spec, Hu. }
      split; [done|]. split; [done|]. split; [done|]. intros Hno. exfalso. apply Hno.
      by apply undefined_among. }
    assert (Hno : Js.undefined ∉ vs).
    { intros Hin%undefined_among. congruence. }
    assert (∃ e w1, run (InsertRelease (Js.sql (in_release_date release))
                           (Js.sql (in_status release))
                           (Some (Js.sql (in_release_type release)))
                           (Js.or_null (in_explanation release)) (Some user)) w
                    = (Thrown e, w1) ∧ DB w1 = DB w ∧
                    (hd false (failures w) = false → ∃ f, e = D1Error f))
      as (e & w1 & Hrun & Hdb & He).
    { rewrite run_spec. destruct (hd false (failures w)).
      { eexists _, _. split; [reflexivity|]. by split. }
      destruct (exec_insert_rejected (now w) (Js.sql (in_release_date release))
                  (Js.sql (in_status release)) (Js.sql (in_release_type release))
                  (Js.or_null (in_explanation release)) (Some user) (DB w)) as [m ->].
      { intros [(s0 & Hs0%sql_text & Hin1) (t0 & Ht0%sql_text & Hin2)].
        apply Hbad. split; by eauto. }
      eexists _, _. split; [reflexivity|]. split; [done|]. by eauto. }
    exists e. rewrite (bind_thrown _ _ w e w1).
    2: { erewrite bind_step; [exact Hrun|]. by rewrite parameters_spec, Hu. }
    split; [done|]. split; [done|]. split; [|done]. intros Hin. by destruct Hno.
Qed.

(** A status in lower case is rejected. *)
Example createRelease_lower_case_status :
  (createRelease (mkInput (Js.text "2024-06-02") (Js.text "go") (Js.text "FULL") Js.null) []
     "a@x.com" (initializeDatabase fresh_world).2).1
  = Thrown (D1Error (Sql.check "status IN ('GO', 'NO_GO')")).
Proof. vm_compute. reflexivity. Qed.

(** ** Reading *)

Lemma records_selected (l : list ReleaseRecord) :
  records (selected (RowRelease <$> l)) = l.
Proof.
  unfold records, selected. simpl. induction l as [|x l IH]; [done|].
  simpl. f_equal. exact IH.
Qed.

Lemma fetchRecentReleases_spec limit w :
  fetchRecentReleases limit w =
    if hd false (failures w) then (Thrown BindingFailure, crossed w)
    else
      let w' := mkWorld (APP_STATE w) (DB w) (now w) (tail (failures w))
                  (SelectRecent limit :: executed w) in
      match tbl_releases (DB w), tbl_excluded_tickets (DB w) with
      | Some t, Some et => (Returned (selected (RowRelease <$> recent limit t et)), w')
      | None, _ => (Thrown (D1Error (Sql.no_such_table "releases")), w')
      | _, None => (Thrown (D1Error (Sql.no_such_table "excluded_tickets")), w')
      end.
Proof.
  unfold fetchRecentReleases. rewrite try_catch_rethrow. unfold all. rewrite run_spec.
  destruct (hd false (failures w)); [done|]. simpl.
  by destruct (tbl_releases (DB w)), (tbl_excluded_tickets (DB w)).
Qed.

Lemma fetchReleaseById_spec rid w :
  fetchReleaseById rid w =
    if hd false (failures w) then (Thrown BindingFailure, crossed w)
    else
      let w' := mkWorld (APP_STATE w) (DB w) (now w) (tail (failures w))
                  (SelectById rid :: executed w) in
      match tbl_releases (DB w), tbl_excluded_tickets (DB w) with
      | Some t, Some et => (Returned (RowRelease <$> head (matching rid t et)), w')
      | None, _ => (Thrown (D1Error (Sql.no_such_table "releases")), w')
      | _, None => (Thrown (D1Error (Sql.no_such_table "excluded_tickets")), w')
      end.
Proof.
  unfold fetchReleaseById. rewrite try_catch_rethrow. unfold first, bind.
  rewrite run_spec. destruct (hd false (failures w)); [done|]. simpl.
  destruct (tbl_releases (DB w)), (tbl_excluded_tickets (DB w)); try done.
  unfold ret, matching. simpl. by destruct (filter _ _).
Qed.

Lemma filter_none {A} (P : A → Prop) `{∀ x, Decision (P x)} (l : list A) :
  (∀ x, x ∈ l → ¬ P x) → filter P l = [].
Proof.
  induction l as [|x l IH]; intros Hn; [done|].
  rewrite filter_cons_False by (apply Hn; by left).
  apply IH. intros y Hy. apply Hn. by right.
Qed.

(** Ids being distinct, the row with a given id is the only one selected. *)
Lemma filter_id_unique (l : list Release) r :
  NoDup (r_id <$> l) → r ∈ l → filter (λ x, r_id x = r_id r) l = [r].
Proof.
  induction l as [|x l IH]; intros Hnd Hin; [by apply elem_of_nil in Hin|].
  rewrite fmap_cons in Hnd. apply NoDup_cons in Hnd as [Hx Hnd].
  apply elem_of_cons in Hin as [->|Hin].
  - rewrite filter_cons_True by done. f_equal.
    apply filter_none. intros y Hy Hid. apply Hx. rewrite <- Hid.
    by apply list_elem_of_fmap_2.
  - rewrite filter_cons_False; [by apply IH|].
    intros Hid. apply Hx. rewrite Hid. by apply list_elem_of_fmap_2.
Qed.

(** *** C8 *)

Lemma group_concat_texts {A} (f : A → string) (l : list A) :
  Sql.group_concat ((λ x, Some (f x)) <$> l) = comma_joined (f <$> l).
Proof.
  unfold Sql.group_concat, comma_joined.
  assert (omap (λ v : option string, v) ((λ x, Some (f x)) <$> l) = f <$> l) as ->.
  2: by destruct (f <$> l).
  induction l as [|x l IH]; [done|]. csimpl. by rewrite IH.
Qed.

Lemma group_concat_values {A} (f : A → option string) (l : list A) :
  Sql.group_concat (f <$> l) = comma_joined (omap f l).
Proof.
  unfold Sql.group_concat, comma_joined.
  assert (omap (λ v : option string, v) (f <$> l) = omap f l) as ->.
  2: by destruct (omap f l).
  induction l as [|x l IH]; [done|]. csimpl. by rewrite IH.
Qed.

(** C8. With both tables in place and the network up, [fetchReleaseById]
    returns, for every id: the row with that id, whatever its delete state,
    together with its tickets, which are the rows of [excluded_tickets] whose
    [release_id] is that id, in the order of their insertion: their keys,
    their summaries that are not null and their urls that are not null, each
    joined by commas and null when there is none; and null, without
    throwing, when no row has that id.  The call leaves the database and the
    KV namespace as they are. *)
Theorem fetchReleaseById_row_or_null w t et rid :
  tbl_releases (DB w) = Some t →
  tbl_excluded_tickets (DB w) = Some et →
  NoDup (r_id <$> rows t) →
  failures w = [] →
  ∃ res w',
    fetchReleaseById rid w = (Returned res, w') ∧
    DB w' = DB w ∧ APP_STATE w' = APP_STATE w ∧
    (∀ r, r ∈ rows t → r_id r = rid →
       ∃ rec,
         res = Some (RowRelease rec) ∧ release rec = r ∧
         excluded_tickets rec
           = comma_joined (ticket_key <$> filter (λ k, t_release_id k = rid) (t_rows et)) ∧
         ticket_summaries rec
           = comma_joined (omap ticket_summary
                             (filter (λ k, t_release_id k = rid) (t_rows et))) ∧
         ticket_urls rec
           = comma_joined (omap ticket_url
                             (filter (λ k, t_release_id k = rid) (t_rows et)))) ∧
    ((∀ r, r ∈ rows t → r_id r ≠ rid) → res = None).
Proof.
  intros Ht Het Hnd Hf. eexists _, _.
  rewrite fetchReleaseById_spec, Hf, Ht, Het. simpl.
  split; [reflexivity|]. split; [done|]. split; [done|]. split.
  - intros r Hr <-. unfold matching. rewrite filter_id_unique by done.
    eexists. split; [reflexivity|]. unfold Sql.joined, Sql.grouped, Sql.tickets_of.
    cbn [release excluded_tickets ticket_summaries ticket_urls].
    split; [done|]. split; [apply group_concat_texts|].
    split; apply group_concat_values.
  - intros Hnone. unfold matching. rewrite filter_none; [done|].
    intros r Hr. by apply Hnone.
Qed.

Lemma fetchReleaseById_row_or_null_witness :
  ∃ rec w',
    fetchReleaseById 1 (deleteRelease 1 "root@x.com" two_release_world).2
    = (Returned (Some (RowRelease rec)), w') ∧
    deleted_at (release rec) = Some 1717459200 ∧
    excluded_tickets rec = Some "ABC-9,ABC-10" ∧
    ticket_summaries rec = None.
Proof.
  destruct (fetchReleaseById_row_or_null (deleteRelease 1 "root@x.com" two_release_world).2
              (mkReleases true
                 [Sql.soft_delete 1717459200 (Some "root@x.com") 1 release_1; release_2] 2)
              (mkTickets (ticket_rows (DB two_release_world)) 3)
              1)
    as (res & w' & Hres & _ & _ & Hrow & _).
  - reflexivity.
  - reflexivity.
  - apply (bool_decide_unpack _). vm_compute. reflexivity.
  - reflexivity.
  - destruct (Hrow (Sql.soft_delete 1717459200 (Some "root@x.com") 1 release_1))
      as (rec & -> & Hrel & Hkeys & Hsum & _).
    + apply elem_of_cons. by left.
    + reflexivity.
    + exists rec, w'. rewrite Hrel. by repeat split.
Defined.

(** *** C7 *)

(** The comparison of ORDER BY and the order of the times. *)
Lemma ts_ltb_true a b : Sql.ts_ltb a b = true → no_earlier b a.
Proof. destruct a, b; simpl; try done. intros. lia. Qed.

Lemma ts_ltb_false a b : Sql.ts_ltb a b = false → no_earlier a b.
Proof. destruct a, b; simpl; try done. intros. lia. Qed.

Lemma no_earlier_trans a b c : no_earlier a b → no_earlier b c → no_earlier a c.
Proof. destruct a, b, c; simpl; try done. intros. lia. Qed.

Lemma created_not_before_trans a b c :
  created_not_before a b → created_not_before b c → created_not_before a c.
Proof. apply no_earlier_trans. Qed.

Lemma elem_of_insert_desc x l y : y ∈ Sql.insert_desc x l ↔ y = x ∨ y ∈ l.
Proof.
  induction l as [|z l IH]; simpl.
  - rewrite list_elem_of_singleton, elem_of_nil. tauto.
  - destruct (Sql.ts_ltb _ _); rewrite ?elem_of_cons, ?IH; tauto.
Qed.

Lemma insert_desc_sorted x l :
  StronglySorted created_not_before l →
  StronglySorted created_not_before (Sql.insert_desc x l).
Proof.
  induction 1 as [|z l Hl IH Hz]; simpl.
  - repeat constructor.
  - destruct (Sql.ts_ltb _ _) eqn:E.
    + constructor; [done|]. rewrite Forall_forall. intros y [->|Hy]%elem_of_insert_desc.
      * by apply ts_ltb_true.
      * rewrite Forall_forall in Hz. by apply Hz.
    + apply ts_ltb_false in E.
      constructor; [by constructor|]. constructor; [done|].
      eapply Forall_impl; [exact Hz|]. intros y Hy.
      by eapply created_not_before_trans.
Qed.

Lemma insert_desc_perm x l : Sql.insert_desc x l ≡ₚ x :: l.
Proof.
  induction l as [|z l IH]; simpl; [done|].
  destruct (Sql.ts_ltb _ _); [|done]. rewrite IH. apply perm_swap.
Qed.

Lemma order_by_sorted l :
  StronglySorted created_not_before (Sql.order_by_created_at_desc l).
Proof.
  induction l as [|x l IH]; simpl; [constructor|]. by apply insert_desc_sorted.
Qed.

Lemma order_by_perm l : Sql.order_by_created_at_desc l ≡ₚ l.
Proof.
  induction l as [|x l IH]; simpl; [done|]. by rewrite insert_desc_perm, IH.
Qed.

Lemma take_sorted {A} (R : A → A → Prop) n l :
  StronglySorted R l → StronglySorted R (take n l).
Proof.
  intros H. revert n. induction H as [|x l Hl IH Hx]; intros [|n]; simpl; try constructor.
  - apply IH.
  - by apply Forall_take.
Qed.

Lemma sorted_fmap {A B} (f : A → B) (R : B → B → Prop) (l : list A) :
  StronglySorted (λ a b, R (f a) (f b)) l → StronglySorted R (f <$> l).
Proof.
  induction 1 as [|x l Hl IH Hx]; [constructor|].
  rewrite fmap_cons. constructor; [done|]. by apply Forall_fmap.
Qed.

Lemma release_listed ts (l : list Release) : release <$> (Sql.listed ts <$> l) = l.
Proof. rewrite <- list_fmap_compose. by rewrite <- (list_fmap_id l) at 2. Qed.

(** The listing: at most [limit] rows, active ones only, latest first. *)
Lemma recent_spec limit t et :
  0 ≤ limit →
  Z.of_nat (length (recent limit t et)) ≤ limit ∧
  Forall (λ rec, deleted_at (release rec) = None ∧ release rec ∈ rows t)
    (recent limit t et) ∧
  StronglySorted created_not_before (recent limit t et) ∧
  ∃ active, active ≡ₚ filter (λ r, deleted_at r = None) (rows t) ∧
            StronglySorted (λ a b, no_earlier (created_at a) (created_at b)) active ∧
            release <$> recent limit t et = take (Z.to_nat limit) active.
Proof.
  intros Hl. unfold recent, Sql.limit_rows.
  replace (limit <? 0) with false by lia.
  set (groups := Sql.listed (t_rows et) <$> filter (λ r, deleted_at r = None) (rows t)).
  split; [rewrite length_take; lia|]. split; [|split].
  - apply Forall_take. rewrite order_by_perm. unfold groups.
    apply Forall_fmap, Forall_forall. intros r [Hd Hr]%list_elem_of_filter. by simpl.
  - apply take_sorted, order_by_sorted.
  - exists (release <$> Sql.order_by_created_at_desc groups). split; [|split].
    + rewrite order_by_perm. unfold groups. by rewrite release_listed.
    + apply sorted_fmap, order_by_sorted.
    + by rewrite fmap_take.
Qed.

(** Only active rows are listed, whatever the bound. *)
Lemma recent_active limit t et rec :
  rec ∈ recent limit t et → deleted_at (release rec) = None ∧ release rec ∈ rows t.
Proof.
  unfold recent, Sql.limit_rows. intros Hin.
  assert (rec ∈ Sql.order_by_created_at_desc
            (Sql.listed (t_rows et) <$> filter (λ r, deleted_at r = None) (rows t))) as H.
  { destruct (limit <? 0); [done|]. by eapply subseteq_take. }
  rewrite order_by_perm in H.
  apply list_elem_of_fmap in H as (r & -> & [Hd Hr]%list_elem_of_filter). by simpl.
Qed.

Lemma fetchRecentReleases_returned limit w res w' :
  fetchRecentReleases limit w = (Returned res, w') →
  ∃ t et, tbl_releases (DB w) = Some t ∧ tbl_excluded_tickets (DB w) = Some et ∧
          records res = recent limit t et.
Proof.
  rewrite fetchRecentReleases_spec. destruct (hd false (failures w)); [done|]. simpl.
  destruct (tbl_releases (DB w)) as [t|], (tbl_excluded_tickets (DB w)) as [et|]; try done.
  intros [= <- _]. exists t, et. by rewrite records_selected.
Qed.

(** After a soft delete that returned, the release is deleted for good. *)
Lemma deleteRelease_for_good w rid u b w1 :
  well_formed (DB w) → rid ∈ ids (DB w) →
  deleteRelease rid u w = (Returned b, w1) →
  deleted_for_good rid (DB w1).
Proof.
  intros (_ & Hle & _) Hin. rewrite deleteRelease_spec.
  destruct (hd false (failures w)); [done|].
  unfold ids, release_rows in *. destruct (tbl_releases (DB w)) as [t|]; [|done].
  intros [= _ <-]. simpl in *. eexists. split; [reflexivity|]. simpl. split.
  - apply list_elem_of_fmap in Hin as (r & -> & Hr).
    rewrite Forall_forall in Hle. by apply Hle.
  - intros r (r0 & -> & Hr0)%list_elem_of_fmap Hid.
    apply soft_delete_deleted. by rewrite soft_delete_id in Hid.
Qed.

(** C7, as amended. With both tables in place and the network up,
    [fetchRecentReleases] with a positive limit N returns at most N records,
    each of a stored release whose [deleted_at] is null, ordered by creation
    time descending: their releases are the first N of the active releases
    in that order.  Once [deleteRelease] has returned for the id of a release
    that is stored, in a well-formed store, no later listing, after any
    history of calls, includes that id. *)
Theorem fetchRecentReleases_active_recent w t et N :
  tbl_releases (DB w) = Some t →
  tbl_excluded_tickets (DB w) = Some et →
  failures w = [] →
  0 < N →
  (∃ res w',
     fetchRecentReleases N w = (Returned res, w') ∧ DB w' = DB w ∧
     results res = RowRelease <$> records res ∧
     Z.of_nat (length (records res)) ≤ N ∧
     Forall (λ rec, deleted_at (release rec) = None ∧ release rec ∈ rows t) (records res) ∧
     StronglySorted created_not_before (records res) ∧
     ∃ active,
       active ≡ₚ filter (λ r, deleted_at r = None) (rows t) ∧
       StronglySorted (λ a b, no_earlier (created_at a) (created_at b)) active ∧
       release <$> records res = take (Z.to_nat N) active) ∧
  (∀ rid u b w1,
     well_formed (DB w) →
     rid ∈ ids (DB w) →
     deleteRelease rid u w = (Returned b, w1) →
     ∀ cs N' res' w2,
       fetchRecentReleases N' (history w1 cs) = (Returned res', w2) →
       Forall (λ rec, r_id (release rec) ≠ rid) (records res')).
Proof.
  intros Ht Het Hf HN. split.
  - eexists _, _. rewrite fetchRecentReleases_spec, Hf, Ht, Het. simpl.
    split; [reflexivity|]. split; [done|]. simpl. rewrite records_selected.
    split; [done|].
    destruct (recent_spec N t et) as (Hlen & Hact & Hsort & Hall); [lia|].
    by repeat split.
  - intros rid u b w1 Hwf Hin Hdel cs N' res' w2 Hlist.
    pose proof (deleteRelease_for_good w rid u b w1 Hwf Hin Hdel) as Hgood.
    apply (history_keeps _ (stable_invariant _ (deleted_for_good_stable rid)) cs) in Hgood.
    destruct Hgood as (t' & Ht' & _ & Hgone).
    apply fetchRecentReleases_returned in Hlist as (t2 & et2 & Ht2 & _ & ->).
    rewrite Ht' in Ht2. injection Ht2 as <-.
    apply Forall_forall. intros rec [Hact Hrow]%recent_active Hid.
    by apply (Hgone (release rec)).
Qed.

Lemma fetchRecentReleases_active_recent_witness :
  (∃ res w', fetchRecentReleases 1 two_release_world = (Returned res, w') ∧
             release <$> records res = [release_2]) ∧
  (∀ N' res' w2,
     fetchRecentReleases N'
       (history (deleteRelease 1 "root@x.com" two_release_world).2
          [Create (mkInput (Js.text "2024-06-16") (Js.text "GO") (Js.text "FULL") Js.null)
             [] "b@x.com";
           Delete 1 "root@x.com"])
     = (Returned res', w2) →
     Forall (λ rec, r_id (release rec) ≠ 1) (records res')).
Proof.
  destruct (fetchRecentReleases_active_recent two_release_world
              (mkReleases true [release_1; release_2] 2)
              (mkTickets (ticket_rows (DB two_release_world)) 3)
              1)
    as [(res & w' & Hres & _ & _ & _ & _ & _ & _) Hgone].
  - reflexivity.
  - reflexivity.
  - reflexivity.
  - lia.
  - split.
    + exists res, w'. split; [done|].
      vm_compute in Hres. by simplify_eq.
    + intros N' res' w2.
      apply (Hgone 1 "root@x.com" true (deleteRelease 1 "root@x.com" two_release_world).2).
      * apply (bool_decide_unpack _). vm_compute. reflexivity.
      * apply (bool_decide_unpack _). vm_compute. reflexivity.
      * vm_compute. reflexivity.
Defined.

(** C7, counterexample. A [deleteRelease] returns true for an id that no
    release has yet; the release created next takes that id, and the
    listing includes it. *)
Lemma fetchRecentReleases_lists_deleted_id :
  let w0 := (initializeDatabase fresh_world).2 in
  let w1 := (deleteRelease 1 "root@x.com" w0).2 in
  let w2 := (createRelease
               (mkInput (Js.text "2024-06-02") (Js.text "GO") (Js.text "FULL") Js.null)
               [] "a@x.com" w1).2 in
  (deleteRelease 1 "root@x.com" w0).1 = Returned true ∧
  ∃ res, (fetchRecentReleases 10 w2).1 = Returned res ∧
         r_id <$> (release <$> records res) = [1].
Proof. vm_compute. split; [done|]. by eexists. Qed.

(** ** Creation *)

Lemma run_quiet s w r db :
  failures w = [] →
  Sql.exec (now w) s (DB w) = inr (r, db) →
  run s w = (Returned r, mkWorld (APP_STATE w) db (now w) [] (s :: executed w)).
Proof. intros Hf Hx. by rewrite run_spec, Hf, Hx. Qed.

Lemma loop_guard {A} (xs : list A) (body : A → M unit) :
  (if (0 <? length xs)%nat then for_of xs body else ret tt) = for_of xs body.
Proof. by destruct xs. Qed.

Lemma storable_parameters t :
  storable t → existsb Js.is_undefined [key t; summary t; url t] = false.
Proof.
  intros ([k Hk] & Hs & Hu). simpl. rewrite Hk. by destruct (summary t), (url t).
Qed.

Lemma of_option_sql v : v ≠ Js.undefined → Js.of_option (Js.sql v) = v.
Proof. by destruct v. Qed.

Lemma new_ticket_rows_stored now rid user last ts :
  Forall storable ts →
  Forall2 (ticket_stored rid user) ts (new_ticket_rows now rid user last ts).
Proof.
  intros H. revert last. induction H as [|t ts ([k Hk] & Hs & Hu) _ IH]; intros last; simpl.
  - constructor.
  - constructor; [|apply IH]. unfold ticket_stored, ticket_row. simpl.
    rewrite Hk, !of_option_sql by done. simpl. by eauto 10.
Qed.

Lemma new_ticket_rows_columns now rid user last ts :
  Forall storable ts →
  ticket_key <$> new_ticket_rows now rid user last ts = omap (λ t, Js.sql (key t)) ts ∧
  omap ticket_summary (new_ticket_rows now rid user last ts)
    = omap (λ t, Js.sql (summary t)) ts ∧
  omap ticket_url (new_ticket_rows now rid user last ts) = omap (λ t, Js.sql (url t)) ts ∧
  filter (λ k, t_release_id k = rid) (new_ticket_rows now rid user last ts)
    = new_ticket_rows now rid user last ts.
Proof.
  intros H. revert last. induction H as [|t ts ([k Hk] & _) _ IH]; intros last; [done|].
  cbn [new_ticket_rows]. destruct (IH (last + 1)) as (IH1 & IH2 & IH3 & IH4).
  rewrite fmap_cons, filter_cons_True by done. csimpl.
  rewrite IH1, IH2, IH3, IH4, Hk. done.
Qed.

(** One turn of the loop of [createRelease] on a ticket that can be stored,
    the network being up. *)
Lemma insertExcludedTicket_quiet rid user t w et :
  storable t →
  failures w = [] → tbl_excluded_tickets (DB w) = Some et → rid ∈ ids (DB w) →
  insertExcludedTicket rid user t w =
    (Returned tt,
     mkWorld (APP_STATE w)
       (mkDatabase (tbl_releases (DB w))
          (Some (mkTickets (t_rows et ++ [ticket_row (now w) rid user (t_seq et + 1) t])
                   (t_seq et + 1)))
          (t_seq et + 1))
       (now w) []
       (InsertTicket rid (Js.sql (key t)) (Js.sql (summary t)) (Js.sql (url t)) (Some user)
          :: executed w)).
Proof.
  intros Hst Hf Het Hin. unfold insertExcludedTicket.
  rewrite (bind_step _ _ w tt w) by (by rewrite parameters_spec, storable_parameters).
  erewrite bind_step; [reflexivity|]. apply run_quiet; [done|].
  destruct Hst as ([k Hk] & _). unfold ids, release_rows in Hin.
  simpl. rewrite Het. destruct (tbl_releases (DB w)) as [tr|]; [|by apply elem_of_nil in Hin].
  rewrite Hk. simpl. rewrite bool_decide_eq_true_2 by done.
  unfold ticket_row. by rewrite Hk.
Qed.

(** The loop of [createRelease] on tickets that can all be stored, the
    network being up. *)
Lemma insert_tickets_quiet rid user tickets :
  Forall storable tickets →
  ∀ w et,
    failures w = [] → tbl_excluded_tickets (DB w) = Some et → rid ∈ ids (DB w) →
    ∃ w', for_of tickets (insertExcludedTicket rid user) w = (Returned tt, w') ∧
          failures w' = [] ∧ now w' = now w ∧ APP_STATE w' = APP_STATE w ∧
          tbl_releases (DB w') = tbl_releases (DB w) ∧
          tbl_excluded_tickets (DB w') =
            Some (mkTickets
                    (t_rows et ++ new_ticket_rows (now w) rid user (t_seq et) tickets)
                    (t_seq et + Z.of_nat (length tickets))).
Proof.
  induction 1 as [|t ts Hst _ IH]; intros w et Hf Het Hin; simpl.
  - exists w. rewrite app_nil_r, Z.add_0_r. by destruct et.
  - pose proof (insertExcludedTicket_quiet rid user t w et Hst Hf Het Hin) as Hbody.
    set (w1 := mkWorld _ _ _ _ _) in Hbody.
    rewrite (bind_step _ _ _ _ _ Hbody).
    destruct (IH w1 (mkTickets (t_rows et ++ [ticket_row (now w) rid user (t_seq et + 1) t])
                       (t_seq et + 1)) eq_refl eq_refl Hin)
      as (w' & Hrun & Hf' & Hnow & Hkv & Hrel & Htk).
    exists w'. rewrite Hrun. do 5 (split; [done|]).
    rewrite Htk. simpl. rewrite <- app_assoc. simpl.
    do 2 f_equal. lia.
Qed.

Lemma exec_insert_valid now db t d s ty e u :
  tbl_releases db = Some t → has_release_type t = true →
  s ∈ Sql.STATUSES → ty ∈ Sql.RELEASE_TYPES →
  Sql.exec now (InsertRelease (Some d) (Some s) (Some (Some ty)) e (Some u)) db =
    inr (ran 1,
         mkDatabase
           (Some (mkReleases true
                    (rows t ++ [mkRelease (seq t + 1) (Sql.affinity d) s (Some ty) e u
                                  (Some now) None None None None])
                    (seq t + 1)))
           (tbl_excluded_tickets db) (seq t + 1)).
Proof.
  intros Ht Hcol Hs Hty. simpl. rewrite Ht, Hcol. simpl.
  unfold Sql.one_of. by rewrite !bool_decide_eq_true_2.
Qed.

(** The parent INSERT of [createRelease] on a valid input. *)
Lemma createRelease_parent w t release user d s ty :
  hd false (failures w) = false →
  tbl_releases (DB w) = Some t → has_release_type t = true →
  in_release_date release = Js.text d →
  in_status release = Js.text s → s ∈ Sql.STATUSES →
  in_release_type release = Js.text ty → ty ∈ Sql.RELEASE_TYPES →
  (parameters [in_release_date release; in_status release; in_release_type release] >>
   run (InsertRelease (Js.sql (in_release_date release)) (Js.sql (in_status release))
          (Some (Js.sql (in_release_type release)))
          (Js.or_null (in_explanation release)) (Some user))) w
  = (Returned (ran 1),
     mkWorld (APP_STATE w)
       (mkDatabase
          (Some (mkReleases true
                   (rows t ++ [mkRelease (seq t + 1) (Sql.affinity d) s (Some ty)
                                 (Js.or_null (in_explanation release)) user
                                 (Some (now w)) None None None None])
                   (seq t + 1)))
          (tbl_excluded_tickets (DB w)) (seq t + 1))
       (now w) (tail (failures w))
       (InsertRelease (Some d) (Some s) (Some (Some ty))
          (Js.or_null (in_explanation release)) (Some user) :: executed w)).
Proof.
  intros Hf Ht Hcol Hd Hs Hsin Hty Htin. rewrite Hd, Hs, Hty.
  rewrite (bind_step _ _ w tt w) by done. cbn [Js.sql].
  by rewrite run_spec, Hf, (exec_insert_valid _ _ t).
Qed.

(** In a well-formed store the next id is new, for releases and tickets. *)
Lemma next_id_fresh db t :
  well_formed db → tbl_releases db = Some t →
  (∀ r, r ∈ rows t → r_id r ≠ seq t + 1) ∧
  (∀ k, k ∈ ticket_rows db → t_release_id k ≠ seq t + 1).
Proof.
  intros (_ & Hle & Hfk) Ht. unfold ids, release_rows in *. rewrite Ht in *. simpl in *.
  rewrite Forall_forall in Hle. rewrite Forall_forall in Hfk.
  assert (Hr : ∀ r, r ∈ rows t → r_id r ≠ seq t + 1).
  { intros r Hr. specialize (Hle r Hr). lia. }
  split; [done|]. intros k Hk Hid.
  destruct (proj1 (list_elem_of_fmap _ _ _) (Hfk k Hk)) as (r & Hrid & Hin).
  apply (Hr r Hin). congruence.
Qed.

(** The tickets of a release that was just created, and what [SelectById]
    finds for it. *)
Lemma matching_created db t et now user tickets row n :
  well_formed db → tbl_releases db = Some t → tbl_excluded_tickets db = Some et →
  r_id row = seq t + 1 →
  Forall storable tickets →
  let new := new_ticket_rows now (seq t + 1) user (t_seq et) tickets in
  filter (λ k, t_release_id k = seq t + 1) (t_rows et ++ new) = new ∧
  matching (seq t + 1) (mkReleases true (rows t ++ [row]) (seq t + 1))
    (mkTickets (t_rows et ++ new) n)
  = [mkRecord row (comma_joined (omap (λ k, Js.sql (key k)) tickets))
       (comma_joined (omap (λ k, Js.sql (summary k)) tickets))
       (comma_joined (omap (λ k, Js.sql (url k)) tickets))].
Proof.
  intros Hwf Ht Het Hid Hst new.
  destruct (next_id_fresh _ _ Hwf Ht) as [Hfresh Hfresh_t].
  unfold ticket_rows in Hfresh_t. rewrite Het in Hfresh_t. simpl in Hfresh_t.
  destruct (new_ticket_rows_columns now (seq t + 1) user (t_seq et) tickets Hst)
    as (Hk & Hsm & Hur & Hall).
  fold new in Hk, Hsm, Hur, Hall.
  assert (Htk : filter (λ k, t_release_id k = seq t + 1) (t_rows et ++ new) = new).
  { rewrite filter_app, (filter_none _ (t_rows et)) by (intros k Hk'; by apply Hfresh_t).
    by rewrite Hall. }
  split; [done|]. unfold matching. simpl rows. simpl t_rows.
  rewrite filter_app, (filter_none _ (rows t)) by (intros r Hr; by apply Hfresh).
  rewrite filter_cons_True by done. rewrite filter_nil. simpl.
  unfold Sql.joined, Sql.grouped, Sql.tickets_of. rewrite Hid, Htk.
  by rewrite group_concat_texts, !group_concat_values, Hk, Hsm, Hur.
Qed.

(** [createRelease] on a valid input, the network being up. *)
Lemma createRelease_quiet w t et release tickets user d s ty :
  failures w = [] →
  well_formed (DB w) →
  tbl_releases (DB w) = Some t → has_release_type t = true →
  tbl_excluded_tickets (DB w) = Some et →
  in_release_date release = Js.text d →
  in_status release = Js.text s → s ∈ Sql.STATUSES →
  in_release_type release = Js.text ty → ty ∈ Sql.RELEASE_TYPES →
  Forall storable tickets →
  let rid := seq t + 1 in
  let row := mkRelease rid (Sql.affinity d) s (Some ty) (Js.or_null (in_explanation release))
               user (Some (now w)) None None None None in
  let new := new_ticket_rows (now w) rid user (t_seq et) tickets in
  ∃ w1 last,
    createRelease release tickets user w =
      (Returned (Some (RowRelease
         (mkRecord row (comma_joined (omap (λ k, Js.sql (key k)) tickets))
            (comma_joined (omap (λ k, Js.sql (summary k)) tickets))
            (comma_joined (omap (λ k, Js.sql (url k)) tickets))))), w1) ∧
    failures w1 = [] ∧
    DB w1 = mkDatabase (Some (mkReleases true (rows t ++ [row]) rid))
              (Some (mkTickets (t_rows et ++ new) (t_seq et + Z.of_nat (length tickets))))
              last.
Proof.
  intros Hf Hwf Ht Hcol Het Hd Hs Hsin Hty Htin Hst rid row new.
  assert (Hf0 : hd false (failures w) = false) by (by rewrite Hf).
  pose proof (createRelease_parent w t release user d s ty Hf0 Ht Hcol Hd Hs Hsin Hty Htin)
    as Hrun1.
  rewrite Hf, Het in Hrun1. simpl tail in Hrun1.
  set (w1 := mkWorld _ _ _ _ _) in Hrun1.
  assert (Hrun2 : first SelectLastInsertRowid w1 =
                    (Returned (Some (RowId rid)),
                     mkWorld (APP_STATE w1) (DB w1) (now w1) []
                       (SelectLastInsertRowid :: executed w1))).
  { unfold first. erewrite bind_step; [|by apply run_quiet]. done. }
  set (w2 := mkWorld _ _ _ _ _) in Hrun2.
  destruct (insert_tickets_quiet rid user tickets Hst w2 et eq_refl eq_refl)
    as (w3 & Hrun3 & Hf3 & Hnow3 & Hkv3 & Hrel3 & Htk3).
  { unfold ids, release_rows. simpl. rewrite fmap_app. apply elem_of_app. right.
    by apply list_elem_of_singleton. }
  simpl in Hrel3, Htk3, Hnow3. fold new in Htk3.
  unfold createRelease. rewrite try_catch_rethrow.
  rewrite (bind_step _ _ _ _ _ Hrun1). simpl negb. cbv iota.
  unfold bind at 1. unfold ret at 1.
  rewrite (bind_step _ _ _ _ _ Hrun2). unfold id_of.
  unfold bind at 1. unfold ret at 1.
  rewrite loop_guard, (bind_step _ _ _ _ _ Hrun3).
  rewrite fetchReleaseById_spec, Hf3, Hrel3, Htk3. simpl hd. cbv iota zeta.
  eexists _, (last_insert_rowid (DB w3)). split; [|split].
  - f_equal. f_equal.
    destruct (matching_created (DB w) t et (now w) user tickets row
                (t_seq et + Z.of_nat (length tickets)) Hwf Ht Het eq_refl Hst)
      as [_ Hm].
    subst rid row new. by rewrite Hm.
  - reflexivity.
  - simpl. destruct (DB w3) as [r3 t3 l3]. simpl in *. by rewrite Hrel3, Htk3.
Qed.

(** *** C6 *)

(** C6, as amended. On a migrated, well-formed store and with the network
    up, for every release input whose date is a text that does not read as a
    number, whose status is GO or NO_GO and whose type is FULL or HOTFIX,
    every acting user and every list of K tickets whose key is a text and
    whose summary and url are a text or null: [createRelease] returns, and
    [fetchReleaseById] of the new id returns again, the record of a new row
    whose id is new, whose date, status and type are the submitted ones,
    whose explanation is the submitted one except that an empty explanation
    is stored as null, whose [created_by] is the acting user, whose
    [created_at] is set and whose [deleted_at] is null.  The store holds
    exactly K ticket rows for the new id, in the order submitted, with the
    submitted key, summary and url and with [created_by] the acting user.
    The record carries the tickets as three columns: the keys, the summaries
    that are not null and the urls that are not null, each joined by commas
    in the order submitted, and null when there is none, in particular when
    K = 0. *)
Theorem createRelease_roundtrip w t et release tickets user d s ty :
  failures w = [] →
  well_formed (DB w) →
  tbl_releases (DB w) = Some t → has_release_type t = true →
  tbl_excluded_tickets (DB w) = Some et →
  in_release_date release = Js.text d → Sql.numeric_literal d = false →
  in_status release = Js.text s → s ∈ ["GO"; "NO_GO"] →
  in_release_type release = Js.text ty → ty ∈ ["FULL"; "HOTFIX"] →
  Forall (λ k, (∃ text, key k = Js.text text) ∧
               summary k ≠ Js.undefined ∧ url k ≠ Js.undefined) tickets →
  let rid := seq t + 1 in
  let row := mkRelease rid (DateText d) s (Some ty) (Js.or_null (in_explanation release))
               user (Some (now w)) None None None None in
  let rec := mkRecord row (comma_joined (omap (λ k, Js.sql (key k)) tickets))
               (comma_joined (omap (λ k, Js.sql (summary k)) tickets))
               (comma_joined (omap (λ k, Js.sql (url k)) tickets)) in
  ∃ w1 w2,
    createRelease release tickets user w = (Returned (Some (RowRelease rec)), w1) ∧
    fetchReleaseById rid w1 = (Returned (Some (RowRelease rec)), w2) ∧
    (rid ∉ ids (DB w)) ∧
    release_rows (DB w1) = rows t ++ [row] ∧
    Forall2 (ticket_stored rid user) tickets
      (filter (λ k, t_release_id k = rid) (ticket_rows (DB w1))) ∧
    (tickets = [] →
     excluded_tickets rec = None ∧ ticket_summaries rec = None ∧ ticket_urls rec = None).
Proof.
  intros Hf Hwf Ht Hcol Het Hd Hnum Hs Hsin Hty Htin Hst rid row rec.
  destruct (createRelease_quiet w t et release tickets user d s ty)
    as (w1 & last & Hrun & Hf1 & Hdb1); try done.
  cbv zeta in Hrun, Hdb1. unfold Sql.affinity in Hrun, Hdb1. rewrite Hnum in Hrun, Hdb1.
  fold rid row rec in Hrun, Hdb1.
  destruct (matching_created (DB w) t et (now w) user tickets row
              (t_seq et + Z.of_nat (length tickets)) Hwf Ht Het eq_refl Hst)
    as [Htk Hm].
  fold rid in Htk, Hm.
  eexists w1, _. split; [exact Hrun|]. split; [|split; [|split; [|split]]].
  - rewrite fetchReleaseById_spec, Hf1, Hdb1.
    cbn [hd tbl_releases tbl_excluded_tickets]. cbv zeta.
    subst rid row rec. by rewrite Hm.
  - intros (r & Hid & Hr)%list_elem_of_fmap.
    unfold release_rows in Hr. rewrite Ht in Hr.
    by apply (proj1 (next_id_fresh _ _ Hwf Ht) r).
  - by rewrite Hdb1.
  - rewrite Hdb1. unfold ticket_rows. cbn [tbl_excluded_tickets from_option t_rows].
    subst rid. rewrite Htk.
    by apply new_ticket_rows_stored.
  - by intros ->.
Qed.

Lemma createRelease_roundtrip_witness :
  ∃ w1 w2,
    createRelease (mkInput (Js.text "2024-06-02") (Js.text "GO") (Js.text "FULL") Js.null)
      [mkTicketInput (Js.text "ABC-9") Js.null
         (Js.text "https://jira.example.com/browse/ABC-9");
       mkTicketInput (Js.text "ABC-10") (Js.text "Login fails")
         (Js.text "https://jira.example.com/browse/ABC-10")]
      "a@x.com" migrated_world
    = (Returned (Some (RowRelease
         (mkRecord
            (mkRelease 1 (DateText "2024-06-02") "GO" (Some "FULL") None "a@x.com"
               (Some 1717286400) None None None None)
            (Some "ABC-9,ABC-10") (Some "Login fails")
            (Some "https://jira.example.com/browse/ABC-9,https://jira.example.com/browse/ABC-10")))),
       w1) ∧
    fetchReleaseById 1 w1
    = (Returned (Some (RowRelease
         (mkRecord
            (mkRelease 1 (DateText "2024-06-02") "GO" (Some "FULL") None "a@x.com"
               (Some 1717286400) None None None None)
            (Some "ABC-9,ABC-10") (Some "Login fails")
            (Some "https://jira.example.com/browse/ABC-9,https://jira.example.com/browse/ABC-10")))),
       w2).
Proof.
  destruct (createRelease_roundtrip migrated_world (mkReleases true [] 0) (mkTickets [] 0)
              (mkInput (Js.text "2024-06-02") (Js.text "GO") (Js.text "FULL") Js.null)
              [mkTicketInput (Js.text "ABC-9") Js.null
                 (Js.text "https://jira.example.com/browse/ABC-9");
               mkTicketInput (Js.text "ABC-10") (Js.text "Login fails")
                 (Js.text "https://jira.example.com/browse/ABC-10")]
              "a@x.com" "2024-06-02" "GO" "FULL")
    as (w1 & w2 & H1 & H2 & _).
  - reflexivity.
  - apply (bool_decide_unpack _). vm_compute. reflexivity.
  - reflexivity.
  - reflexivity.
  - reflexivity.
  - reflexivity.
  - reflexivity.
  - reflexivity.
  - apply (bool_decide_unpack _). vm_compute. reflexivity.
  - reflexivity.
  - apply (bool_decide_unpack _). vm_compute. reflexivity.
  - repeat (constructor; [split; [by eexists|done]|]). constructor.
  - by exists w1, w2.
Defined.

(** C6, counterexample. The dashboard submits an empty explanation with a GO
    release, and a JIRA summary may hold a comma.  The record that comes back
    has a null explanation, and the reader of the record finds two summaries
    for the one ticket and returns the first.  A date that reads as a
    number comes back as a number. *)
Lemma createRelease_roundtrip_differs :
  (∃ rec w1,
     createRelease
       (mkInput (Js.text "2024-06-02") (Js.text "GO") (Js.text "FULL") (Js.text ""))
       [mkTicketInput (Js.text "ABC-1") (Js.text "Login fails, then crashes")
          (Js.text "https://jira.example.com/browse/ABC-1")]
       "a@x.com" migrated_world
     = (Returned (Some (RowRelease rec)), w1) ∧
     explanation (release rec) ≠ Some "" ∧
     tickets_of_record rec ≠
       [mkTicketInput (Js.text "ABC-1") (Js.text "Login fails, then crashes")
          (Js.text "https://jira.example.com/browse/ABC-1")]) ∧
  (∃ rec w1,
     createRelease (mkInput (Js.text "20240602") (Js.text "GO") (Js.text "FULL") Js.null)
       [] "a@x.com" migrated_world
     = (Returned (Some (RowRelease rec)), w1) ∧
     release_date (release rec) ≠ DateText "20240602").
Proof.
  split; eexists _, _; (split; [vm_compute; reflexivity|]).
  - split; vm_compute; congruence.
  - vm_compute. congruence.
Qed.

(** *** C2 *)

Lemma throws_bind_l {A B} (m : M A) (k : A → M B) : throws m → throws (bind m k).
Proof.
  intros Hm w. destruct (Hm w) as (e & w' & H). exists e, w'. by apply bind_thrown.
Qed.

Lemma throws_bind_r {A B} (m : M A) (k : A → M B) :
  (∀ a, throws (k a)) → throws (bind m k).
Proof.
  intros Hk w. unfold bind. destruct (m w) as [[a|e] w1]; [apply Hk|by eexists _, _].
Qed.

(** The INSERT of a ticket that cannot be stored is refused: by D1 when one
    of its values is undefined, by the engine when its key is null, unless
    the call fails before. *)
Lemma insertExcludedTicket_refused rid user t :
  ¬ storable t → throws (insertExcludedTicket rid user t).
Proof.
  intros Hno w. unfold insertExcludedTicket.
  destruct (existsb Js.is_undefined [key t; summary t; url t]) eqn:Hu.
  { eexists _, _. apply bind_thrown. by rewrite parameters_spec, Hu. }
  rewrite (bind_step _ _ w tt w) by (by rewrite parameters_spec, Hu).
  revert w. apply throws_bind_l. intros w. rewrite run_spec.
  destruct (hd false (failures w)); [by eexists _, _|].
  assert (Hk : Js.sql (key t) = None).
  { destruct (key t) as [| |k] eqn:Hk; [done..|]. exfalso. apply Hno.
    split; [by exists k|]. split; intros Hx; rewrite Hx in Hu; simpl in Hu;
      by rewrite ?orb_true_r in Hu. }
  simpl. rewrite Hk.
  destruct (tbl_excluded_tickets (DB w)), (tbl_releases (DB w)); by eexists _, _.
Qed.

(** Without the table [excluded_tickets] every INSERT of a ticket is
    refused. *)
Lemma insertExcludedTicket_no_table rid user t w :
  tbl_excluded_tickets (DB w) = None →
  ∃ e w', insertExcludedTicket rid user t w = (Thrown e, w').
Proof.
  intros Hno. unfold insertExcludedTicket.
  destruct (existsb Js.is_undefined [key t; summary t; url t]) eqn:Hu.
  { eexists _, _. apply bind_thrown. by rewrite parameters_spec, Hu. }
  rewrite (bind_step _ _ w tt w) by (by rewrite parameters_spec, Hu).
  destruct (hd false (failures w)) eqn:Hf; eexists _, _; apply bind_thrown;
    rewrite run_spec, Hf; [reflexivity|]. simpl. by rewrite Hno.
Qed.

(** A ticket whose INSERT throws leaves the database as it is. *)
Lemma insertExcludedTicket_thrown rid user t w e w' :
  insertExcludedTicket rid user t w = (Thrown e, w') → DB w' = DB w.
Proof.
  unfold insertExcludedTicket, bind. rewrite parameters_spec.
  destruct (existsb _ _); [by intros [= _ <-]|].
  rewrite run_spec. destruct (hd false (failures w)); [by intros [= _ <-]|].
  destruct (Sql.exec _ _ _) as [f|[r db]]; [by intros [= _ <-]|done].
Qed.

(** The loop stops at the first turn that throws. *)
Lemma for_of_stops {A} (body : A → M unit) before x after w w3 e w4 :
  for_of before body w = (Returned tt, w3) →
  body x w3 = (Thrown e, w4) →
  for_of (before ++ x :: after) body w = (Thrown e, w4).
Proof.
  revert w. induction before as [|b before IH]; intros w; simpl.
  - intros [= <-] Hx. by apply bind_thrown.
  - intros (u & w1 & Hb & Hrest)%bind_returned Hx.
    rewrite (bind_step _ _ _ _ _ Hb). by apply IH.
Qed.

(** After the parent INSERT, nothing [createRelease] does touches [releases]. *)
Lemma insert_tickets_keep_releases (X : option ReleasesTable) rid user tickets :
  keeps (λ db, tbl_releases db = X) (for_of tickets (insertExcludedTicket rid user)).
Proof.
  apply keeps_for_of. intros x.
  apply keeps_bind; [apply keeps_parameters|intros].
  apply keeps_bind; [|intros; apply keeps_ret]. apply keeps_statement.
  intros now db r db' HP. simpl.
  destruct (tbl_excluded_tickets db), (tbl_releases db); try done.
  destruct (Js.sql (key x)); [|done]. case_bool_decide; [|done]. by intros [= _ <-].
Qed.

Lemma createRelease_rest_keeps (X : option ReleasesTable) result tickets user :
  keeps (λ db, tbl_releases db = X)
    ((if negb (success result) then throw (JsError "Failed to create release") else ret tt) >>
     let* releaseId := first SelectLastInsertRowid in
     let* rid := id_of releaseId in
     (if (0 <? length tickets)%nat
      then for_of tickets (insertExcludedTicket rid user)
      else ret tt) >>
     fetchReleaseById rid).
Proof.
  apply keeps_bind; [apply keeps_if; [apply keeps_throw|apply keeps_ret]|]. intros _.
  apply keeps_bind.
  { apply keeps_bind; [|intros; apply keeps_ret]. apply keeps_statement.
    intros now db r db' HP. simpl. by intros [= _ <-]. }
  intros row. apply keeps_bind; [destruct row as [[]|]; (apply keeps_ret || apply keeps_throw)|].
  intros rid. apply keeps_bind.
  - apply keeps_if; [|apply keeps_ret]. apply insert_tickets_keep_releases.
  - intros _. apply keeps_try_catch; [|intros; apply keeps_throw].
    apply keeps_bind; [|intros; apply keeps_ret]. apply keeps_statement.
    intros now db r db' HP. simpl.
    destruct (tbl_releases db) eqn:E1, (tbl_excluded_tickets db); try done.
    intros [= _ <-]. by rewrite E1.
Qed.

(** [createRelease] up to the turn of its loop that throws. *)
Lemma createRelease_stops w t release tickets user d s ty before ticket after w3 e w4 :
  hd false (failures w) = false → hd false (tail (failures w)) = false →
  tbl_releases (DB w) = Some t → has_release_type t = true →
  in_release_date release = Js.text d →
  in_status release = Js.text s → s ∈ Sql.STATUSES →
  in_release_type release = Js.text ty → ty ∈ Sql.RELEASE_TYPES →
  let rid := seq t + 1 in
  let row := mkRelease rid (Sql.affinity d) s (Some ty) (Js.or_null (in_explanation release))
               user (Some (now w)) None None None None in
  let w2 :=
    mkWorld (APP_STATE w)
      (mkDatabase (Some (mkReleases true (rows t ++ [row]) rid))
         (tbl_excluded_tickets (DB w)) rid)
      (now w) (tail (tail (failures w)))
      (SelectLastInsertRowid
         :: InsertRelease (Some d) (Some s) (Some (Some ty))
              (Js.or_null (in_explanation release)) (Some user)
         :: executed w) in
  tickets = before ++ ticket :: after →
  for_of before (insertExcludedTicket rid user) w2 = (Returned tt, w3) →
  insertExcludedTicket rid user ticket w3 = (Thrown e, w4) →
  createRelease release tickets user w = (Thrown e, w4) ∧
  release_rows (DB w4) = rows t ++ [row] ∧
  ticket_rows (DB w4) = ticket_rows (DB w3).
Proof.
  intros Hf Hf2 Ht Hcol Hd Hs Hsin Hty Htin rid row w2 -> Hbefore Hbad.
  pose proof (createRelease_parent w t release user d s ty Hf Ht Hcol Hd Hs Hsin Hty Htin)
    as Hrun1.
  set (w1 := mkWorld _ _ _ _ _) in Hrun1.
  assert (Hrun2 : first SelectLastInsertRowid w1 = (Returned (Some (RowId rid)), w2)).
  { unfold first, bind. rewrite run_spec. unfold w1 at 1. cbn [failures].
    by rewrite Hf2. }
  pose proof (insertExcludedTicket_thrown _ _ _ _ _ _ Hbad) as Hdb.
  pose proof (insert_tickets_keep_releases
                (Some (mkReleases true (rows t ++ [row]) rid)) rid user before w2 eq_refl)
    as Hkeep.
  rewrite Hbefore in Hkeep. cbn [snd] in Hkeep.
  split; [|split].
  - unfold createRelease. rewrite try_catch_rethrow.
    rewrite (bind_step _ _ _ _ _ Hrun1). simpl negb. cbv iota.
    unfold bind at 1. unfold ret at 1.
    rewrite (bind_step _ _ _ _ _ Hrun2). unfold id_of.
    unfold bind at 1. unfold ret at 1.
    rewrite loop_guard. apply bind_thrown. by eapply for_of_stops.
  - unfold release_rows. by rewrite Hdb, Hkeep.
  - by rewrite Hdb.
Qed.

(** C2, as amended. The inserts of [createRelease] are not one unit.  When
    the parent INSERT is accepted (table and column in place, valid input,
    the call not failing in transport), the new row of [releases] stays in
    the store however the rest of the operation ends.  When a later child
    INSERT fails, for whatever reason, [createRelease] throws that error to
    its caller, and the store keeps the parent row and the child rows that
    were inserted before.  A child INSERT fails for a ticket without a key
    or with an undefined value, which leaves the rows of the tickets before
    it, and for every ticket when the table [excluded_tickets] is
    missing. *)
Theorem createRelease_keeps_parent w t release tickets user d s ty :
  hd false (failures w) = false →
  tbl_releases (DB w) = Some t → has_release_type t = true →
  in_release_date release = Js.text d →
  in_status release = Js.text s → s ∈ ["GO"; "NO_GO"] →
  in_release_type release = Js.text ty → ty ∈ ["FULL"; "HOTFIX"] →
  let rid := seq t + 1 in
  let row := mkRelease rid (Sql.affinity d) s (Some ty) (Js.or_null (in_explanation release))
               user (Some (now w)) None None None None in
  let w2 :=
    mkWorld (APP_STATE w)
      (mkDatabase (Some (mkReleases true (rows t ++ [row]) rid))
         (tbl_excluded_tickets (DB w)) rid)
      (now w) (tail (tail (failures w)))
      (SelectLastInsertRowid
         :: InsertRelease (Some d) (Some s) (Some (Some ty))
              (Js.or_null (in_explanation release)) (Some user)
         :: executed w) in
  release_rows (DB (createRelease release tickets user w).2) = rows t ++ [row] ∧
  (hd false (tail (failures w)) = false →
   ∀ before ticket after w3 e w4,
     tickets = before ++ ticket :: after →
     for_of before (insertExcludedTicket rid user) w2 = (Returned tt, w3) →
     insertExcludedTicket rid user ticket w3 = (Thrown e, w4) →
     createRelease release tickets user w = (Thrown e, w4) ∧
     release_rows (DB w4) = rows t ++ [row] ∧
     ticket_rows (DB w4) = ticket_rows (DB w3)) ∧
  (∀ et before ticket after,
     failures w = [] → tbl_excluded_tickets (DB w) = Some et →
     tickets = before ++ ticket :: after →
     Forall (λ k, (∃ text, key k = Js.text text) ∧
                  summary k ≠ Js.undefined ∧ url k ≠ Js.undefined) before →
     ¬ ((∃ text, key ticket = Js.text text) ∧
        summary ticket ≠ Js.undefined ∧ url ticket ≠ Js.undefined) →
     ∃ e w4,
       createRelease release tickets user w = (Thrown e, w4) ∧
       release_rows (DB w4) = rows t ++ [row] ∧
       ticket_rows (DB w4) = t_rows et ++ new_ticket_rows (now w) rid user (t_seq et) before) ∧
  (tbl_excluded_tickets (DB w) = None → tickets ≠ [] →
   ∃ e, (createRelease release tickets user w).1 = Thrown e).
Proof.
  intros Hf Ht Hcol Hd Hs Hsin Hty Htin rid row w2.
  pose proof (createRelease_parent w t release user d s ty Hf Ht Hcol Hd Hs Hsin Hty Htin)
    as Hrun1.
  set (w1 := mkWorld _ _ _ _ _) in Hrun1.
  split; [|split; [|split]].
  - pose proof (createRelease_rest_keeps
                  (Some (mkReleases true (rows t ++ [row]) rid))
                  (ran 1) tickets user w1 eq_refl) as Hkeep.
    cbv beta in Hkeep.
    unfold createRelease. rewrite try_catch_rethrow, (bind_step _ _ _ _ _ Hrun1).
    unfold release_rows. by rewrite Hkeep.
  - intros Hf2 before ticket after w3 e w4 Htickets Hbefore Hbad.
    by apply (createRelease_stops w t release tickets user d s ty before ticket after w3 e w4).
  - intros et before ticket after Hquiet Het Htickets Hbefore Hbad.
    assert (Hin : rid ∈ ids (DB w2)).
    { unfold ids, release_rows. simpl. rewrite fmap_app. apply elem_of_app. right.
      by apply list_elem_of_singleton. }
    assert (Hf2 : failures w2 = []) by (unfold w2; simpl; by rewrite Hquiet).
    destruct (insert_tickets_quiet rid user before Hbefore w2 et Hf2 Het Hin)
      as (w3 & Hrun3 & _ & _ & _ & _ & Htk3).
    destruct (insertExcludedTicket_refused rid user ticket Hbad w3) as (e & w4 & Hthrown).
    exists e, w4.
    destruct (createRelease_stops w t release tickets user d s ty before ticket after w3 e w4)
      as (Hall & Hrows & Htks); try done.
    { by rewrite Hquiet. }
    split; [done|]. split; [done|]. rewrite Htks. unfold ticket_rows. by rewrite Htk3.
  - intros Hno Hne. destruct tickets as [|ticket after]; [done|].
    unfold createRelease. rewrite try_catch_rethrow, (bind_step _ _ _ _ _ Hrun1).
    simpl negb. cbv iota. unfold bind at 1. unfold ret at 1.
    destruct (first SelectLastInsertRowid w1) as [[row0|e0] w0] eqn:Hsel.
    2: { exists e0. by rewrite (bind_thrown _ _ _ _ _ Hsel). }
    rewrite (bind_step _ _ _ _ _ Hsel).
    assert (Hdb : DB w0 = DB w1 ∧ row0 = Some (RowId rid)).
    { unfold first, bind in Hsel. rewrite run_spec in Hsel.
      destruct (hd false (failures w1)); [done|]. simpl in Hsel. unfold ret in Hsel.
      by simplify_eq. }
    destruct Hdb as [Hdb ->]. unfold id_of. unfold bind at 1. unfold ret at 1.
    destruct (insertExcludedTicket_no_table rid user ticket w0) as (e & w' & Hthrown).
    { by rewrite Hdb. }
    exists e. rewrite loop_guard. erewrite bind_thrown; [done|].
    simpl. by apply bind_thrown.
Qed.

Lemma createRelease_keeps_parent_witness :
  ∃ e w4,
    createRelease (mkInput (Js.text "2024-06-02") (Js.text "GO") (Js.text "FULL") Js.null)
      [mkTicketInput (Js.text "ABC-1") Js.null Js.null;
       mkTicketInput (Js.text "ABC-2") Js.undefined Js.null;
       mkTicketInput (Js.text "ABC-3") Js.null Js.null]
      "a@x.com" migrated_world
    = (Thrown e, w4) ∧
    release_rows (DB w4)
    = [mkRelease 1 (DateText "2024-06-02") "GO" (Some "FULL") None "a@x.com"
         (Some 1717286400) None None None None] ∧
    ticket_rows (DB w4)
    = [mkTicket 1 1 "ABC-1" None None "a@x.com" (Some 1717286400)].
Proof.
  destruct (createRelease_keeps_parent migrated_world (mkReleases true [] 0)
              (mkInput (Js.text "2024-06-02") (Js.text "GO") (Js.text "FULL") Js.null)
              [mkTicketInput (Js.text "ABC-1") Js.null Js.null;
               mkTicketInput (Js.text "ABC-2") Js.undefined Js.null;
               mkTicketInput (Js.text "ABC-3") Js.null Js.null]
              "a@x.com" "2024-06-02" "GO" "FULL") as (_ & _ & H & _).
  - reflexivity.
  - reflexivity.
  - reflexivity.
  - reflexivity.
  - reflexivity.
  - apply (bool_decide_unpack _). vm_compute. reflexivity.
  - reflexivity.
  - apply (bool_decide_unpack _). vm_compute. reflexivity.
  - destruct (H (mkTickets [] 0) [mkTicketInput (Js.text "ABC-1") Js.null Js.null]
                (mkTicketInput (Js.text "ABC-2") Js.undefined Js.null)
                [mkTicketInput (Js.text "ABC-3") Js.null Js.null])
      as (e & w4 & H1 & H2 & H3).
    + reflexivity.
    + reflexivity.
    + reflexivity.
    + repeat (constructor; [split; [by eexists|done]|]). constructor.
    + intros (_ & Hs & _). by apply Hs.
    + by exists e, w4.
Defined.

(** C2, counterexample. Two tickets are submitted without JIRA credentials,
    the second one null.  The first child row is inserted, the second INSERT
    is rejected; the client gets the error of the engine with status 500,
    and the store keeps a release that [createRelease] never returned, with
    one of its two tickets. *)
Lemma createRelease_leaves_orphan :
  let c := mkContext "a@x.com" false
             (Some (mkBody (Js.text "2024-06-02") (Js.text "GO") (Js.text "FULL") (Js.text "")
                      [Some "ABC-1"; None]))
             false "https://jira.example.com" false in
  let result := handleCreateRelease (λ _, None) c migrated_world in
  release_rows (DB migrated_world) = [] ∧
  result.1 = Returned
    (Json (message_of (D1Error (Sql.not_null "excluded_tickets.ticket_key"))) 500) ∧
  release_rows (DB result.2)
  = [mkRelease 1 (DateText "2024-06-02") "GO" (Some "FULL") None "a@x.com" (Some 1717286400)
       None None None None] ∧
  ticket_key <$> ticket_rows (DB result.2) = ["ABC-1"].
Proof. vm_compute. done. Qed.

(** * Further properties of the program *)

(** ** Computations that keep a property under some of the statements *)

Section Keeps_for.

Context (P : Database → Prop) (S : Statement → Prop).

Hypothesis P_kept :
  ∀ now s db r db', S s → P db → Sql.exec now s db = inr (r, db') → P db'.

Lemma run_keeps s : S s → keeps P (run s).
Proof. intros Hs. apply keeps_statement. intros. by eapply P_kept. Qed.

Lemma first_keeps s : S s → keeps P (first s).
Proof. intros Hs. apply keeps_bind; [by apply run_keeps|]. intros. apply keeps_ret. Qed.

Lemma initializeDatabase_keeps :
  S CreateReleases → S CreateExcludedTickets → S AddReleaseType →
  keeps P initializeDatabase.
Proof.
  intros H1 H2 H3. apply keeps_try_catch; [|intros; apply keeps_ret].
  apply keeps_bind; [apply keeps_kv_get|]. intros v.
  apply keeps_bind.
  { apply keeps_if; [|apply keeps_ret]. apply keeps_bind; [|intros; apply keeps_kv_put].
    repeat (apply keeps_bind; [by apply run_keeps|intros]). apply keeps_ret. }
  intros _. apply keeps_bind; [|intros; apply keeps_ret].
  apply keeps_if; [|apply keeps_ret]. apply keeps_bind; [|intros; apply keeps_kv_put].
  apply keeps_if; [|apply keeps_ret]. apply keeps_bind; [by apply run_keeps|].
  intros. apply keeps_ret.
Qed.

Lemma fetchRecentReleases_keeps n : S (SelectRecent n) → keeps P (fetchRecentReleases n).
Proof. intros. apply keeps_try_catch; [by apply run_keeps|intros; apply keeps_throw]. Qed.

Lemma fetchReleaseById_keeps rid : S (SelectById rid) → keeps P (fetchReleaseById rid).
Proof. intros. apply keeps_try_catch; [by apply first_keeps|intros; apply keeps_throw]. Qed.

Lemma deleteRelease_keeps rid u : S (SoftDelete (Some u) rid) → keeps P (deleteRelease rid u).
Proof.
  intros. apply keeps_try_catch; [|intros; apply keeps_throw].
  apply keeps_bind; [by apply run_keeps|intros; apply keeps_ret].
Qed.

(** What follows the parent INSERT in both versions of [createRelease]. *)
Lemma createRelease_tail_keeps result tickets u :
  S SelectLastInsertRowid →
  (∀ rid k sm ur, S (InsertTicket rid k sm ur (Some u))) →
  (∀ rid, S (SelectById rid)) →
  keeps P
    ((if negb (success result) then throw (JsError "Failed to create release") else ret tt) >>
     let* releaseId := first SelectLastInsertRowid in
     let* rid := id_of releaseId in
     (if (0 <? length tickets)%nat
      then for_of tickets (insertExcludedTicket rid u)
      else ret tt) >>
     fetchReleaseById rid).
Proof.
  intros H2 H3 H4.
  apply keeps_bind; [apply keeps_if; [apply keeps_throw|apply keeps_ret]|]. intros _.
  apply keeps_bind; [by apply first_keeps|]. intros row.
  apply keeps_bind; [destruct row as [[]|]; (apply keeps_ret || apply keeps_throw)|].
  intros rid. apply keeps_bind; [|intros; by apply fetchReleaseById_keeps].
  apply keeps_if; [|apply keeps_ret]. apply keeps_for_of. intros x.
  apply keeps_bind; [apply keeps_parameters|intros].
  apply keeps_bind; [by apply run_keeps|intros; apply keeps_ret].
Qed.

Lemma createRelease_keeps release tickets u :
  (∀ d s ty e, S (InsertRelease d s (Some ty) e (Some u))) →
  S SelectLastInsertRowid →
  (∀ rid k sm ur, S (InsertTicket rid k sm ur (Some u))) →
  (∀ rid, S (SelectById rid)) →
  keeps P (createRelease release tickets u).
Proof.
  intros H1 H2 H3 H4. apply keeps_try_catch; [|intros; apply keeps_throw].
  apply keeps_bind; [|intros r; by apply createRelease_tail_keeps].
  apply keeps_bind; [apply keeps_parameters|intros; by apply run_keeps].
Qed.

Lemma V1_createRelease_keeps release tickets u :
  (∀ d s e, S (InsertRelease d s None e (Some u))) →
  S SelectLastInsertRowid →
  (∀ rid k sm ur, S (InsertTicket rid k sm ur (Some u))) →
  (∀ rid, S (SelectById rid)) →
  keeps P (V1.createRelease release tickets u).
Proof.
  intros H1 H2 H3 H4. apply keeps_try_catch; [|intros; apply keeps_throw].
  apply keeps_bind; [|intros r; by apply createRelease_tail_keeps].
  apply keeps_bind; [apply keeps_parameters|intros; by apply run_keeps].
Qed.

Lemma V1_initializeDatabase_keeps :
  S CreateReleases → S CreateExcludedTickets → keeps P V1.initializeDatabase.
Proof.
  intros H1 H2. apply keeps_try_catch; [|intros; apply keeps_ret].
  apply keeps_bind; [apply keeps_kv_get|]. intros v.
  apply keeps_if; [apply keeps_ret|].
  repeat (apply keeps_bind; [by apply run_keeps|intros]).
  apply keeps_bind; [apply keeps_kv_put|intros; apply keeps_ret].
Qed.

End Keeps_for.

(** ** What the store never loses *)

Lemma persisted_refl r : persisted r r.
Proof. unfold persisted. destruct (deleted_at r); by eauto 15. Qed.

Lemma persisted_trans r1 r2 r3 : persisted r1 r2 → persisted r2 r3 → persisted r1 r3.
Proof.
  unfold persisted.
  intros (?&?&?&?&?&?&?&?&Ht1&Hd1) (?&?&?&?&?&?&?&?&Ht2&Hd2).
  repeat (split; [congruence|]). split.
  - destruct Ht1 as [Ht1|Ht1], Ht2 as [Ht2|Ht2]; (left; congruence) || (right; congruence).
  - destruct Hd1 as [Hd1|[Hd1 Hb1]]; [by left|].
    destruct Hd2 as [Hd2|[Hd2 Hb2]]; [left; congruence|right; split; congruence].
Qed.

Lemma persisted_default_type r : persisted r (Sql.with_default_type r).
Proof. unfold persisted. simpl. destruct (deleted_at r); by eauto 15. Qed.

Lemma persisted_soft_delete t u rid r : persisted r (Sql.soft_delete t u rid r).
Proof.
  unfold Sql.soft_delete. case_bool_decide as H; [|apply persisted_refl].
  destruct H as [_ H]. unfold persisted. simpl. by eauto 15.
Qed.

Lemma Forall2_persisted_fmap f (l l1 : list Release) :
  (∀ r, persisted r (f r)) → Forall2 persisted l l1 → Forall2 persisted l (f <$> l1).
Proof.
  intros Hf H. apply Forall2_fmap_r. eapply Forall2_impl; [exact H|].
  intros r r' Hr. eapply persisted_trans; [exact Hr|apply Hf].
Qed.

Lemma holds_stable l k : stable (holds l k).
Proof.
  intros t s db db' [(l1 & l2 & Hl & Hp) (k2 & Hk)] Htr.
  unfold holds, release_rows, ticket_rows in *.
  destruct Htr as [ s | Hr | He | tr Hr Hc | tr d s named e u Hr Hs Hcol Hty
                  | et rid k0 sm ur u He Hin | tr u rid Hr ]; simpl.
  - by eauto 10.
  - rewrite Hr in Hl. simpl in Hl. symmetry in Hl. apply app_eq_nil in Hl as [-> ->].
    split; [|by eauto]. exists [], []. by split.
  - rewrite He in Hk. simpl in Hk. symmetry in Hk. apply app_eq_nil in Hk as [-> ->].
    split; [by eauto 10|]. by exists [].
  - rewrite Hr in Hl. simpl in Hl. split; [|by eauto].
    exists (Sql.with_default_type <$> l1), (Sql.with_default_type <$> l2).
    rewrite Hl, fmap_app. split; [done|].
    apply Forall2_persisted_fmap; [apply persisted_default_type|done].
  - rewrite Hr in Hl. simpl in Hl. split; [|by eauto]. rewrite Hl.
    eexists l1, (l2 ++ _). split; [by rewrite app_assoc|done].
  - rewrite He in Hk. simpl in Hk. split; [by eauto 10|]. rewrite Hk.
    eexists. by rewrite <- app_assoc.
  - rewrite Hr in Hl. simpl in Hl. split; [|by eauto].
    exists (Sql.soft_delete t u rid <$> l1), (Sql.soft_delete t u rid <$> l2).
    rewrite Hl, fmap_app. split; [done|].
    apply Forall2_persisted_fmap; [apply persisted_soft_delete|done].
Qed.

Lemma holds_now db : holds (release_rows db) (ticket_rows db) db.
Proof.
  split.
  - exists (release_rows db), []. rewrite app_nil_r. split; [done|].
    apply Forall_Forall2_diag, Forall_true, persisted_refl.
  - exists []. by rewrite app_nil_r.
Qed.

(** X1. Releases and tickets are never removed, and what is stored of them never
    changes: after any history of calls, of any outcome, the rows of
    [releases] begin with the rows there were, in place, each with its id,
    date, status, explanation and audit columns as they were, its release
    type as it was or turned into the default 'FULL', and its delete markers
    as they were once they are set; the rows of [excluded_tickets] begin with
    the rows there were, unchanged. *)
Theorem store_is_append_only w cs :
  (∃ l1 l2, release_rows (DB (history w cs)) = l1 ++ l2 ∧
            Forall2 persisted (release_rows (DB w)) l1) ∧
  (∃ k2, ticket_rows (DB (history w cs)) = ticket_rows (DB w) ++ k2).
Proof.
  apply (history_keeps _ (stable_invariant _ (holds_stable _ _)) cs w), holds_now.
Qed.

Lemma audit_columns_stable : stable audit_columns.
Proof.
  intros t s db db' [Hr Ht] Htr. unfold audit_columns, release_rows, ticket_rows in *.
  destruct Htr as [ s | Hrel | He | tr Hrel Hc | tr d s named e u Hrel Hs Hcol Hty
                  | et rid k0 sm ur u He Hin | tr u rid Hrel ]; simpl.
  - done.
  - split; [constructor|done].
  - split; [done|constructor].
  - rewrite Hrel in Hr. simpl in Hr. split; [|done].
    apply Forall_fmap. eapply Forall_impl; [exact Hr|]. done.
  - rewrite Hrel in Hr. simpl in Hr. split; [|done].
    apply Forall_app. split; [done|]. constructor; [|constructor]. simpl. by eauto.
  - rewrite He in Ht. simpl in Ht. split; [done|].
    apply Forall_app. split; [done|]. constructor; [|constructor]. simpl. by eauto.
  - rewrite Hrel in Hr. simpl in Hr. split; [|done].
    apply Forall_fmap. eapply Forall_impl; [exact Hr|]. intros r Hx.
    destruct (persisted_soft_delete t u rid r) as (_&_&_&_&_&Hc&Hub&Hua&_).
    unfold compose. by rewrite Hc, Hub, Hua.
Qed.

(** X2. The columns [updated_by] and [updated_at] are dead, and [created_at] is
    always set: in every store reached from the empty one, every release has
    null [updated_by] and [updated_at] and a [created_at], and every ticket
    has a [created_at]. *)
Theorem audit_columns_reached w cs :
  DB w = empty_database →
  Forall (λ r, updated_by r = None ∧ updated_at r = None ∧ is_Some (created_at r))
    (release_rows (DB (history w cs))) ∧
  Forall (λ t, is_Some (t_created_at t)) (ticket_rows (DB (history w cs))).
Proof.
  intros Hdb. apply (history_keeps _ (stable_invariant _ audit_columns_stable) cs w).
  rewrite Hdb. split; constructor.
Qed.

Lemma audit_columns_reached_witness :
  let w := history fresh_world
             [Initialize;
              Create (mkInput (Js.text "2024-06-02") (Js.text "GO") (Js.text "FULL") Js.null)
                [mkTicketInput (Js.text "ABC-1") Js.null Js.null] "a@x.com";
              Delete 1 "root@x.com"] in
  DB fresh_world = empty_database ∧
  length (release_rows (DB w)) = 1%nat ∧
  length (ticket_rows (DB w)) = 1%nat ∧
  Forall (λ r, updated_by r = None ∧ updated_at r = None ∧ is_Some (created_at r))
    (release_rows (DB w)) ∧
  Forall (λ t, is_Some (t_created_at t)) (ticket_rows (DB w)).
Proof.
  split; [reflexivity|]. split; [reflexivity|]. split; [reflexivity|].
  refine (audit_columns_reached fresh_world _ _). reflexivity.
Defined.

(** ** The KV namespace *)

Section Keeps_world.

Context (P : World → Prop).

Lemma keeps_world_ret {A} (a : A) : keeps_world P (ret a).
Proof. by intros w. Qed.

Lemma keeps_world_throw {A} e : keeps_world P (throw (A:=A) e).
Proof. by intros w. Qed.

Lemma keeps_world_bind {A B} (m : M A) (k : A → M B) :
  keeps_world P m → (∀ a, keeps_world P (k a)) → keeps_world P (bind m k).
Proof.
  intros Hm Hk w HP. unfold bind. specialize (Hm w HP).
  destruct (m w) as [[a|e] w1]; simpl in *; [by apply Hk|done].
Qed.

Lemma keeps_world_try_catch {A} (m : M A) (h : Error → M A) :
  keeps_world P m → (∀ e, keeps_world P (h e)) → keeps_world P (try_catch m h).
Proof.
  intros Hm Hh w HP. unfold try_catch. specialize (Hm w HP).
  destruct (m w) as [[a|e] w1]; simpl in *; [done|by apply Hh].
Qed.

Lemma keeps_world_if {A} (b : bool) (m1 m2 : M A) :
  keeps_world P m1 → keeps_world P m2 → keeps_world P (if b then m1 else m2).
Proof. by destruct b. Qed.

Lemma keeps_world_for_of {A} (xs : list A) (body : A → M unit) :
  (∀ x, keeps_world P (body x)) → keeps_world P (for_of xs body).
Proof.
  intros Hb. induction xs as [|x xs IH]; simpl; [apply keeps_world_ret|].
  apply keeps_world_bind; [apply Hb|done].
Qed.

Lemma keeps_world_parameters vs : keeps_world P (parameters vs).
Proof.
  unfold parameters. apply keeps_world_if; [apply keeps_world_throw|apply keeps_world_ret].
Qed.

Hypothesis P_kv_only : kv_only P.

Lemma keeps_world_kv_get k : keeps_world P (kv_get k).
Proof.
  intros w HP. rewrite kv_get_spec. eapply P_kv_only; [|exact HP].
  by destruct (hd false (failures w)).
Qed.

Lemma keeps_world_run s : keeps_world P (run s).
Proof.
  intros w HP. rewrite run_spec. eapply P_kv_only; [|exact HP].
  destruct (hd false (failures w)); [done|].
  by destruct (Sql.exec (now w) s (DB w)) as [m|[r db]].
Qed.

(** A [put] keeps [P] when [P] holds of the namespace it leaves. *)
Lemma keeps_world_kv_put k v :
  (∀ w, P w →
        P (mkWorld (<[k := v]> (APP_STATE w)) (DB w) (now w) (tail (failures w))
             (executed w))) →
  keeps_world P (kv_put k v).
Proof.
  intros Hput w HP. rewrite kv_put_spec. destruct (hd false (failures w)); simpl.
  - eapply P_kv_only; [|exact HP]. done.
  - by apply Hput.
Qed.

Lemma keeps_world_first s : keeps_world P (first s).
Proof.
  apply keeps_world_bind; [apply keeps_world_run|]. intros. apply keeps_world_ret.
Qed.

Lemma keeps_world_fetchRecentReleases n : keeps_world P (fetchRecentReleases n).
Proof.
  apply keeps_world_try_catch; [apply keeps_world_run|intros; apply keeps_world_throw].
Qed.

Lemma keeps_world_fetchReleaseById rid : keeps_world P (fetchReleaseById rid).
Proof.
  apply keeps_world_try_catch; [apply keeps_world_first|intros; apply keeps_world_throw].
Qed.

Lemma keeps_world_deleteRelease rid u : keeps_world P (deleteRelease rid u).
Proof.
  apply keeps_world_try_catch; [|intros; apply keeps_world_throw].
  apply keeps_world_bind; [apply keeps_world_run|intros; apply keeps_world_ret].
Qed.

Lemma keeps_world_createRelease release tickets u :
  keeps_world P (createRelease release tickets u).
Proof.
  apply keeps_world_try_catch; [|intros; apply keeps_world_throw].
  apply keeps_world_bind;
    [apply keeps_world_bind; [apply keeps_world_parameters|intros; apply keeps_world_run]|].
  intros r.
  apply keeps_world_bind;
    [apply keeps_world_if; [apply keeps_world_throw|apply keeps_world_ret]|]. intros _.
  apply keeps_world_bind; [apply keeps_world_first|]. intros row.
  apply keeps_world_bind;
    [destruct row as [[]|]; (apply keeps_world_ret || apply keeps_world_throw)|].
  intros rid.
  apply keeps_world_bind; [|intros; apply keeps_world_fetchReleaseById].
  apply keeps_world_if; [|apply keeps_world_ret]. apply keeps_world_for_of. intros x.
  apply keeps_world_bind; [apply keeps_world_parameters|intros].
  apply keeps_world_bind; [apply keeps_world_run|intros; apply keeps_world_ret].
Qed.

End Keeps_world.

Lemma version_after_put (kv : gmap string string) (v : string) :
  Js.or_zero (Js.parseInt (<["DB_SCHEMA_VERSION" := v]> kv !! "DB_SCHEMA_VERSION"))
  = Js.or_zero (Js.parseInt (Some v)).
Proof. by rewrite lookup_insert_eq. Qed.

Lemma at_least_kv_only v0 : kv_only (λ w, v0 ≤ version w).
Proof. intros w w' Hkv. unfold version. by rewrite Hkv. Qed.

(** A run of the guard never lowers the version it finds. *)
Lemma initializeDatabase_version w : version w ≤ version (initializeDatabase w).2.
Proof.
  set (P := λ w', version w ≤ version w').
  assert (Hkv : kv_only P) by apply at_least_kv_only.
  assert (Hrest : keeps_world P
            ((if version w =? 0
              then createInitialSchema >> kv_put "DB_SCHEMA_VERSION" "1"
              else ret tt) >>
             (if version w <? CURRENT_SCHEMA_VERSION
              then applyMigrations (version w) >>
                   kv_put "DB_SCHEMA_VERSION" (toString CURRENT_SCHEMA_VERSION)
              else ret tt) >>
             ret true)).
  { apply keeps_world_bind.
    - destruct (Z.eqb_spec (version w) 0) as [Hz|_]; [|apply keeps_world_ret].
      apply keeps_world_bind.
      + repeat (apply keeps_world_bind; [by apply keeps_world_run|intros]).
        apply keeps_world_ret.
      + intros _. apply keeps_world_kv_put; [done|]. intros w' _. unfold P.
        match goal with |- _ ≤ version ?x => enough (version x = 1) as -> by lia end.
        unfold version. simpl APP_STATE. by rewrite version_after_put.
    - intros _. apply keeps_world_bind; [|intros; apply keeps_world_ret].
      destruct (Z.ltb_spec (version w) CURRENT_SCHEMA_VERSION) as [Hlt|_];
        [|apply keeps_world_ret].
      apply keeps_world_bind.
      + unfold applyMigrations. apply keeps_world_if; [|apply keeps_world_ret].
        apply keeps_world_bind; [by apply keeps_world_run|intros; apply keeps_world_ret].
      + intros _. apply keeps_world_kv_put; [done|]. intros w' _. unfold P.
        match goal with |- _ ≤ version ?x => enough (version x = 2) as ->
          by (unfold CURRENT_SCHEMA_VERSION in Hlt; lia) end.
        unfold version. simpl APP_STATE. by rewrite version_after_put. }
  rewrite initializeDatabase_spec. cbn [snd].
  unfold initializeDatabase_try. unfold bind at 1. rewrite kv_get_spec.
  destruct (hd false (failures w)); [done|].
  apply (Hrest (crossed w)). unfold P. done.
Qed.

Lemma same_kv_only kv : kv_only (λ w, APP_STATE w = kv).
Proof. intros w w' Hkv. by rewrite Hkv. Qed.

Lemma perform_version w c : version w ≤ version (perform w c).
Proof.
  destruct c; simpl; try done.
  - apply initializeDatabase_version.
  - by apply (keeps_world_createRelease _ (at_least_kv_only (version w))).
  - by apply (keeps_world_deleteRelease _ (at_least_kv_only (version w))).
  - by apply (keeps_world_fetchRecentReleases _ (at_least_kv_only (version w))).
  - by apply (keeps_world_fetchReleaseById _ (at_least_kv_only (version w))).
Qed.

(** X3. The schema version never decreases: after any history of calls, of any
    outcome, the version the guard would read is at least the one it would
    have read before. *)
Theorem version_never_decreases w cs : version w ≤ version (history w cs).
Proof.
  revert w. induction cs as [|c cs IH]; intros w; [done|].
  etrans; [apply (perform_version w c)|apply IH].
Qed.

(** X4. The repository never writes the KV namespace, and its two reads never
    write the database: whatever the outcome, [createRelease] and
    [deleteRelease] leave [APP_STATE] as it is, and [fetchRecentReleases] and
    [fetchReleaseById] leave both [APP_STATE] and the database as they are. *)
Theorem repository_frame w :
  (∀ release tickets u, APP_STATE (createRelease release tickets u w).2 = APP_STATE w) ∧
  (∀ rid u, APP_STATE (deleteRelease rid u w).2 = APP_STATE w) ∧
  (∀ n, APP_STATE (fetchRecentReleases n w).2 = APP_STATE w ∧
        DB (fetchRecentReleases n w).2 = DB w) ∧
  (∀ rid, APP_STATE (fetchReleaseById rid w).2 = APP_STATE w ∧
          DB (fetchReleaseById rid w).2 = DB w).
Proof.
  split; [|split; [|split]].
  - intros. by apply (keeps_world_createRelease _ (same_kv_only (APP_STATE w))).
  - intros. by apply (keeps_world_deleteRelease _ (same_kv_only (APP_STATE w))).
  - intros n. split.
    + by apply (keeps_world_fetchRecentReleases _ (same_kv_only (APP_STATE w))).
    + rewrite fetchRecentReleases_spec. destruct (hd false (failures w)); [done|].
      by destruct (tbl_releases (DB w)), (tbl_excluded_tickets (DB w)).
  - intros rid. split.
    + by apply (keeps_world_fetchReleaseById _ (same_kv_only (APP_STATE w))).
    + rewrite fetchReleaseById_spec. destruct (hd false (failures w)); [done|].
      by destruct (tbl_releases (DB w)), (tbl_excluded_tickets (DB w)).
Qed.

(** ** The guard with the network up *)

Lemma kv_get_quiet k w :
  failures w = [] → kv_get k w = (Returned (APP_STATE w !! k), w).
Proof. intros Hf. rewrite kv_get_spec, Hf. simpl. by rewrite crossed_quiet. Qed.

Lemma kv_put_quiet k v w :
  failures w = [] →
  kv_put k v w =
    (Returned tt, mkWorld (<[k := v]> (APP_STATE w)) (DB w) (now w) [] (executed w)).
Proof. intros Hf. by rewrite kv_put_spec, Hf. Qed.

Lemma createInitialSchema_quiet w :
  failures w = [] →
  createInitialSchema w =
    (Returned tt,
     mkWorld (APP_STATE w) (with_base_schema (DB w)) (now w) []
       (CreateExcludedTickets :: CreateReleases :: executed w)).
Proof.
  destruct w as [kv [[tr|] [te|] l] t fs ex]; simpl; intros ->; reflexivity.
Qed.

Lemma applyMigrations_quiet v w :
  failures w = [] → v < 2 →
  applyMigrations v w =
    match tbl_releases (DB w) with
    | Some t =>
        if has_release_type t
        then (Thrown (D1Error (Sql.failed Sql.SQLITE_ERROR "duplicate column name: release_type")),
              mkWorld (APP_STATE w) (DB w) (now w) [] (AddReleaseType :: executed w))
        else (Returned tt,
              mkWorld (APP_STATE w) (with_release_type (DB w)) (now w) []
                (AddReleaseType :: executed w))
    | None => (Thrown (D1Error (Sql.no_such_table "releases")),
               mkWorld (APP_STATE w) (DB w) (now w) [] (AddReleaseType :: executed w))
    end.
Proof.
  intros Hf Hv. unfold applyMigrations. replace (v <? 2) with true by lia.
  unfold bind. rewrite run_spec, Hf. simpl. unfold with_release_type.
  destruct (tbl_releases (DB w)) as [t|]; [|done]. by destruct (has_release_type t).
Qed.

(** The guard, the network being up, once it has read a version below 2. *)
Lemma initializeDatabase_quiet w :
  failures w = [] → version w < CURRENT_SCHEMA_VERSION →
  let w1 := if version w =? 0
            then mkWorld (<["DB_SCHEMA_VERSION" := "1"]> (APP_STATE w))
                   (with_base_schema (DB w)) (now w) []
                   (CreateExcludedTickets :: CreateReleases :: executed w)
            else w in
  initializeDatabase w =
    if column_to_add w
    then (Returned true,
          mkWorld (<["DB_SCHEMA_VERSION" := "2"]> (APP_STATE w1))
            (with_release_type (DB w1)) (now w) [] (AddReleaseType :: executed w1))
    else (Returned false,
          mkWorld (APP_STATE w1) (DB w1) (now w) [] (AddReleaseType :: executed w1)).
Proof.
  intros Hf Hv w1. unfold CURRENT_SCHEMA_VERSION in Hv.
  assert (Hfirst :
    (if version w =? 0
     then createInitialSchema >> kv_put "DB_SCHEMA_VERSION" "1"
     else ret tt) w = (Returned tt, w1)).
  { unfold w1. destruct (version w =? 0); [|done].
    rewrite (bind_step _ _ _ _ _ (createInitialSchema_quiet w Hf)).
    by rewrite kv_put_quiet. }
  assert (Hf1 : failures w1 = []) by (unfold w1; by destruct (version w =? 0)).
  assert (Hnow : now w1 = now w) by (unfold w1; by destruct (version w =? 0)).
  assert (Hcol : column_to_add w =
                 match tbl_releases (DB w1) with
                 | Some t => negb (has_release_type t)
                 | None => false
                 end).
  { unfold column_to_add, w1. destruct (version w =? 0); simpl; [|done].
    by destruct (tbl_releases (DB w)). }
  assert (Htry : initializeDatabase_try w =
            match tbl_releases (DB w1) with
            | Some t =>
                if has_release_type t
                then (Thrown (D1Error (Sql.failed Sql.SQLITE_ERROR
                                         "duplicate column name: release_type")),
                      mkWorld (APP_STATE w1) (DB w1) (now w) [] (AddReleaseType :: executed w1))
                else (Returned true,
                      mkWorld (<["DB_SCHEMA_VERSION" := "2"]> (APP_STATE w1))
                        (with_release_type (DB w1)) (now w) []
                        (AddReleaseType :: executed w1))
            | None => (Thrown (D1Error (Sql.no_such_table "releases")),
                       mkWorld (APP_STATE w1) (DB w1) (now w) [] (AddReleaseType :: executed w1))
            end).
  { unfold initializeDatabase_try.
    rewrite (bind_step _ _ _ _ _ (kv_get_quiet _ w Hf)).
    change (Js.or_zero (Js.parseInt (APP_STATE w !! "DB_SCHEMA_VERSION"))) with (version w).
    rewrite (bind_step _ _ _ _ _ Hfirst).
    unfold CURRENT_SCHEMA_VERSION. replace (version w <? 2) with true by lia.
    unfold bind. rewrite (applyMigrations_quiet (version w) w1 Hf1 Hv), Hnow.
    destruct (tbl_releases (DB w1)) as [t|]; [|done].
    destruct (has_release_type t); [done|]. by rewrite kv_put_quiet. }
  rewrite initializeDatabase_spec, Htry, Hcol.
  destruct (tbl_releases (DB w1)) as [t|]; [|done].
  by destruct (has_release_type t).
Qed.

Lemma with_base_schema_rows db :
  release_rows (with_base_schema db) = release_rows db ∧
  ticket_rows (with_base_schema db) = ticket_rows db.
Proof.
  unfold release_rows, ticket_rows, with_base_schema. simpl.
  by destruct (tbl_releases db), (tbl_excluded_tickets db).
Qed.

Lemma with_release_type_rows db :
  release_rows (with_release_type db) = Sql.with_default_type <$> release_rows db ∧
  ticket_rows (with_release_type db) = ticket_rows db.
Proof.
  unfold release_rows, ticket_rows, with_release_type. simpl.
  by destruct (tbl_releases db).
Qed.

(** A run of the guard that migrates, the network being up. *)
Lemma guard_migrates w :
  failures w = [] → version w < CURRENT_SCHEMA_VERSION → column_to_add w = true →
  (initializeDatabase w).1 = Returned true ∧
  version (initializeDatabase w).2 = CURRENT_SCHEMA_VERSION ∧
  release_rows (DB (initializeDatabase w).2)
    = Sql.with_default_type <$> release_rows (DB w) ∧
  ticket_rows (DB (initializeDatabase w).2) = ticket_rows (DB w).
Proof.
  intros Hf Hlt Hcol. pose proof (initializeDatabase_quiet w Hf Hlt) as Hrun.
  cbv zeta in Hrun. rewrite Hrun, Hcol. cbn [fst snd DB APP_STATE].
  split; [done|].
  split; [unfold version; simpl APP_STATE; by rewrite version_after_put|].
  destruct (with_release_type_rows
              (DB (if version w =? 0
                   then mkWorld (<["DB_SCHEMA_VERSION" := "1"]> (APP_STATE w))
                          (with_base_schema (DB w)) (now w) []
                          (CreateExcludedTickets :: CreateReleases :: executed w)
                   else w))) as [-> ->].
  destruct (version w =? 0); simpl DB; [|done].
  by destruct (with_base_schema_rows (DB w)) as [-> ->].
Qed.

(** X5. With the network up, the guard returns true exactly when the version it
    reads is at least 2, or the column [release_type] can still be added:
    the table [releases] is there without it, or there is no table and the
    version reads 0, so that the guard creates it first.  When it migrates
    (version below 2, column to add), it leaves version 2 and the column, no
    release or ticket added or removed, and every release it found with the
    release type 'FULL'; the table [excluded_tickets] is there afterwards
    exactly if it was there before or the version read 0. *)
Theorem initializeDatabase_outcome w :
  failures w = [] →
  (initializeDatabase w).1 =
    Returned ((CURRENT_SCHEMA_VERSION <=? version w) || column_to_add w) ∧
  (version w < CURRENT_SCHEMA_VERSION → column_to_add w = true →
   version (initializeDatabase w).2 = CURRENT_SCHEMA_VERSION ∧
   (∃ t, tbl_releases (DB (initializeDatabase w).2) = Some t ∧
         has_release_type t = true) ∧
   (is_Some (tbl_excluded_tickets (DB (initializeDatabase w).2)) ↔
    version w = 0 ∨ is_Some (tbl_excluded_tickets (DB w))) ∧
   release_rows (DB (initializeDatabase w).2)
     = Sql.with_default_type <$> release_rows (DB w) ∧
   ticket_rows (DB (initializeDatabase w).2) = ticket_rows (DB w)).
Proof.
  intros Hf. destruct (Z.leb_spec CURRENT_SCHEMA_VERSION (version w)) as [Hge|Hlt].
  - rewrite (initializeDatabase_current w Hge), Hf. split; [done|]. lia.
  - pose proof (initializeDatabase_quiet w Hf Hlt) as Hrun. cbv zeta in Hrun.
    rewrite Hrun. split; [by destruct (column_to_add w)|].
    intros _ Hcol. rewrite Hcol. cbn [snd DB APP_STATE].
    split; [unfold version; simpl APP_STATE; by rewrite version_after_put|].
    destruct (with_release_type_rows
                (DB (if version w =? 0
                     then mkWorld (<["DB_SCHEMA_VERSION" := "1"]> (APP_STATE w))
                            (with_base_schema (DB w)) (now w) []
                            (CreateExcludedTickets :: CreateReleases :: executed w)
                     else w))) as [-> ->].
    unfold column_to_add in Hcol.
    destruct (Z.eqb_spec (version w) 0) as [Hz|Hz]; simpl DB.
    + destruct (with_base_schema_rows (DB w)) as [-> ->].
      split; [|split; [|done]].
      * unfold with_release_type, with_base_schema. simpl.
        destruct (tbl_releases (DB w)); simpl; by eauto.
      * unfold with_release_type, with_base_schema. simpl. split; by eauto.
    + destruct (tbl_releases (DB w)) as [t|] eqn:Ht; [|done].
      split; [|split; [|done]].
      * unfold with_release_type. simpl. rewrite Ht. simpl. by eauto.
      * unfold with_release_type. simpl. split; [by right|]. by intros [|].
Qed.

Lemma initializeDatabase_outcome_witness :
  (initializeDatabase fresh_world).1 = Returned true ∧
  version (initializeDatabase fresh_world).2 = 2.
Proof.
  destruct (initializeDatabase_outcome fresh_world) as [H1 H2]; [reflexivity|].
  split; [exact H1|]. apply H2; reflexivity.
Defined.

(** ** The code of schema version 1 and the upgrade *)

Lemma no_release_type_kept now s db r db' :
  no_alter s → no_release_type db → Sql.exec now s db = inr (r, db') → no_release_type db'.
Proof.
  intros Hs Hno [Htr _]%exec_transition. unfold no_release_type in *.
  destruct Htr as [ s | Hr | He | tr Hr Hc | tr d s named e u Hr Hst Hcol Hty
                  | et rid k0 sm ur u He Hin | tr u rid Hr ]; simpl; try done.
  - by intros t [= <-].
  - intros t [= <-]. simpl. by apply Hno.
  - intros t [= <-]. simpl. by apply Hno.
Qed.

Lemma statuses_closed_stable : stable statuses_closed.
Proof.
  intros t s db db' Hc Htr. unfold statuses_closed, release_rows in *.
  destruct Htr as [ s | Hr | He | tr Hr Hcol | tr d s named e u Hr Hst Hcol Hty
                  | et rid k0 sm ur u He Hin | tr u rid Hr ]; simpl.
  - done.
  - constructor.
  - done.
  - rewrite Hr in Hc. simpl in Hc. apply Forall_fmap. eapply Forall_impl; [exact Hc|]. done.
  - rewrite Hr in Hc. simpl in Hc. apply Forall_app. split; [done|].
    constructor; [done|constructor].
  - done.
  - rewrite Hr in Hc. simpl in Hc. apply Forall_fmap. eapply Forall_impl; [exact Hc|].
    intros r0 H0. destruct (persisted_soft_delete t u rid r0) as (_&_&Hs&_).
    unfold compose. by rewrite Hs.
Qed.

Section V1_keeps.

Context (P : Database → Prop).

Hypothesis P_kept :
  ∀ now s db r db', no_alter s → P db → Sql.exec now s db = inr (r, db') → P db'.

Lemma V1_perform_keeps w c : P (DB w) → P (DB (V1.perform w c)).
Proof.
  destruct c; simpl; try done.
  - by apply (V1_initializeDatabase_keeps P no_alter P_kept).
  - by apply (V1_createRelease_keeps P no_alter P_kept).
  - by apply (deleteRelease_keeps P no_alter P_kept).
  - by apply (fetchRecentReleases_keeps P no_alter P_kept).
  - by apply (fetchReleaseById_keeps P no_alter P_kept).
Qed.

Lemma V1_history_keeps cs w : P (DB w) → P (DB (V1.history w cs)).
Proof.
  revert w. induction cs as [|c cs IH]; intros w HP; [done|].
  apply (IH (V1.perform w c)). by apply V1_perform_keeps.
Qed.

End V1_keeps.

Section V1_keeps_world.

Context (P : World → Prop).
Hypothesis P_kv_only : kv_only P.

Lemma keeps_world_V1_createRelease release tickets u :
  keeps_world P (V1.createRelease release tickets u).
Proof.
  apply keeps_world_try_catch; [|intros; apply keeps_world_throw].
  apply keeps_world_bind;
    [apply keeps_world_bind; [apply keeps_world_parameters|intros; by apply keeps_world_run]|].
  intros r.
  apply keeps_world_bind;
    [apply keeps_world_if; [apply keeps_world_throw|apply keeps_world_ret]|]. intros _.
  apply keeps_world_bind; [by apply keeps_world_first|]. intros row.
  apply keeps_world_bind;
    [destruct row as [[]|]; (apply keeps_world_ret || apply keeps_world_throw)|].
  intros rid.
  apply keeps_world_bind; [|intros; by apply keeps_world_fetchReleaseById].
  apply keeps_world_if; [|apply keeps_world_ret]. apply keeps_world_for_of. intros x.
  apply keeps_world_bind; [apply keeps_world_parameters|intros].
  apply keeps_world_bind; [by apply keeps_world_run|intros; apply keeps_world_ret].
Qed.

(** The guard of version 1 writes the flag only. *)
Hypothesis P_flag :
  ∀ w, P w →
       P (mkWorld (<["DB_INITIALIZED" := "true"]> (APP_STATE w)) (DB w) (now w)
            (tail (failures w)) (executed w)).

Lemma keeps_world_V1_initializeDatabase : keeps_world P V1.initializeDatabase.
Proof.
  apply keeps_world_try_catch; [|intros; apply keeps_world_ret].
  apply keeps_world_bind; [by apply keeps_world_kv_get|]. intros v.
  apply keeps_world_if; [apply keeps_world_ret|].
  repeat (apply keeps_world_bind; [by apply keeps_world_run|intros]).
  apply keeps_world_bind; [by apply keeps_world_kv_put|intros; apply keeps_world_ret].
Qed.

Lemma V1_history_keeps_world cs w : P w → P (V1.history w cs).
Proof.
  revert w. induction cs as [|c cs IH]; intros w HP; [done|].
  apply (IH (V1.perform w c)). destruct c; simpl.
  - by apply keeps_world_V1_initializeDatabase.
  - by apply keeps_world_V1_createRelease.
  - by apply keeps_world_deleteRelease.
  - by apply keeps_world_fetchRecentReleases.
  - by apply keeps_world_fetchReleaseById.
  - eapply P_kv_only; [|exact HP]. done.
  - eapply P_kv_only; [|exact HP]. done.
Qed.

End V1_keeps_world.

(** The code of version 1 leaves the version key alone. *)
Lemma V1_history_version cs w : version (V1.history w cs) = version w.
Proof.
  apply (V1_history_keeps_world (λ w', version w' = version w)); [| |done].
  - intros w1 w2 Hkv. unfold version. by rewrite Hkv.
  - intros w1 H1. unfold version in *. simpl APP_STATE.
    by rewrite lookup_insert_ne.
Qed.

(** X6. Upgrade.  A store made by the code of schema version 1 alone (the empty
    store with no version key, then any history of its calls, of any
    outcome) is migrated by the guard of the current code once the network
    is up: the guard returns true and leaves version 2; no release or ticket
    is added or removed; every release keeps its status, in {GO, NO_GO}, and
    reads the release type 'FULL'. *)
Theorem upgrade_from_version_1 w0 cs :
  DB w0 = empty_database →
  version w0 = 0 →
  failures (V1.history w0 cs) = [] →
  (initializeDatabase (V1.history w0 cs)).1 = Returned true ∧
  version (initializeDatabase (V1.history w0 cs)).2 = 2 ∧
  release_rows (DB (initializeDatabase (V1.history w0 cs)).2)
    = Sql.with_default_type <$> release_rows (DB (V1.history w0 cs)) ∧
  ticket_rows (DB (initializeDatabase (V1.history w0 cs)).2)
    = ticket_rows (DB (V1.history w0 cs)) ∧
  Forall (λ r, status r ∈ ["GO"; "NO_GO"] ∧ release_type r = Some "FULL")
    (release_rows (DB (initializeDatabase (V1.history w0 cs)).2)).
Proof.
  intros Hdb Hv Hf. set (w := V1.history w0 cs) in *.
  assert (Hver : version w = 0) by (unfold w; by rewrite V1_history_version).
  assert (Hno : no_release_type (DB w)).
  { apply (V1_history_keeps no_release_type no_release_type_kept).
    rewrite Hdb. by intros t. }
  assert (Hst : statuses_closed (DB w)).
  { apply (V1_history_keeps statuses_closed).
    - intros now s db r db' _ HP [Htr _]%exec_transition.
      by eapply statuses_closed_stable.
    - rewrite Hdb. constructor. }
  assert (Hcol : column_to_add w = true).
  { unfold column_to_add. rewrite Hver. destruct (tbl_releases (DB w)) as [t|] eqn:Ht; [|done].
    by rewrite (Hno t Ht). }
  destruct (guard_migrates w Hf) as (Hout & Hv2 & Hrows & Htk);
    [unfold CURRENT_SCHEMA_VERSION; lia|done|].
  split; [done|]. split; [done|]. split; [done|]. split; [done|].
  rewrite Hrows. apply Forall_fmap. eapply Forall_impl; [exact Hst|]. done.
Qed.

Lemma upgrade_from_version_1_witness :
  (initializeDatabase
     (V1.history fresh_world
        [V1.Initialize;
         V1.Create
           (mkInput (Js.text "2024-06-02") (Js.text "NO_GO") Js.null (Js.text "late fix"))
           [mkTicketInput (Js.text "ABC-1") Js.null Js.null] "a@x.com"])).1 = Returned true.
Proof.
  refine (proj1 (upgrade_from_version_1 fresh_world _ _ _ _)); reflexivity.
Defined.

(** ** The handlers and the application *)

Section Handlers_keep.

Context (P : Database → Prop) (S : Statement → Prop).

Hypothesis P_kept :
  ∀ now s db r db', S s → P db → Sql.exec now s db = inr (r, db') → P db'.

Hypothesis S_guard : S CreateReleases ∧ S CreateExcludedTickets ∧ S AddReleaseType.
Hypothesis S_select : ∀ n, S (SelectRecent n).

Lemma handleGetReleases_keeps c : keeps P (handleGetReleases c).
Proof.
  destruct S_guard as (H1 & H2 & H3).
  apply keeps_try_catch; [|intros; apply keeps_ret].
  apply keeps_bind; [by apply (initializeDatabase_keeps P S)|]. intros _.
  apply keeps_bind; [by apply (fetchRecentReleases_keeps P S)|intros; apply keeps_ret].
Qed.

Hypothesis S_create :
  (∀ d s ty e u, S (InsertRelease d s (Some ty) e (Some u))) ∧
  S SelectLastInsertRowid ∧
  (∀ rid k sm ur u, S (InsertTicket rid k sm ur (Some u))) ∧
  (∀ rid, S (SelectById rid)).

Lemma handleCreateRelease_keeps details c : keeps P (handleCreateRelease details c).
Proof.
  destruct S_guard as (H1 & H2 & H3). destruct S_create as (H4 & H5 & H6 & H7).
  apply keeps_try_catch; [|intros; apply keeps_ret].
  apply keeps_bind.
  { unfold request_json. destruct (json c); [apply keeps_ret|apply keeps_throw]. }
  intros body. apply keeps_bind; [by apply (initializeDatabase_keeps P S)|]. intros _.
  apply keeps_bind; [by apply (createRelease_keeps P S)|]. intros release.
  apply keeps_bind.
  { apply keeps_if; [|apply keeps_ret]. unfold sendNotification.
    destruct release as [[]|]; (apply keeps_ret || apply keeps_throw). }
  intros _.
  apply keeps_bind; [by apply (fetchRecentReleases_keeps P S)|intros; apply keeps_ret].
Qed.

End Handlers_keep.

Lemma holds_undeleted_kept l now s db r db' :
  no_update s → holds_undeleted l db → Sql.exec now s db = inr (r, db') →
  holds_undeleted l db'.
Proof.
  intros Hs (l1 & l2 & Hl & Hp) [Htr _]%exec_transition.
  unfold holds_undeleted, release_rows in *.
  destruct Htr as [ s | Hr | He | tr Hr Hc | tr d s named e u Hr Hst Hcol Hty
                  | et rid k0 sm ur u He Hin | tr u rid Hr ]; simpl; try by eauto.
  - rewrite Hr in Hl. simpl in Hl. symmetry in Hl. apply app_eq_nil in Hl as [-> ->].
    exists [], []. by split.
  - rewrite Hr in Hl. simpl in Hl.
    exists (Sql.with_default_type <$> l1), (Sql.with_default_type <$> l2).
    rewrite Hl, fmap_app. split; [done|].
    apply Forall2_fmap_r. eapply Forall2_impl; [exact Hp|].
    intros x y (Hxy & H1 & H2). split; [|done].
    eapply persisted_trans; [exact Hxy|apply persisted_default_type].
  - rewrite Hr in Hl. simpl in Hl. rewrite Hl.
    eexists l1, (l2 ++ _). split; [by rewrite app_assoc|done].
Qed.

Lemma app_not_signed_in jira env req w :
  Js.truthy (cf_access_authenticated_user_email req) = false →
  app jira env req w = (Returned (PlainText "Unauthorized: No user email found" 401), w).
Proof. intros H. unfold app, requireAuth. by rewrite H. Qed.

(** X7. No request gets past [requireAuth] without a user, and no DELETE gets
    past [requireRoot] for a user who is not root: the answer is 401, and
    403, and the world is as it was: no binding was called. *)
Theorem app_refuses jira env req w :
  (Js.truthy (cf_access_authenticated_user_email req) = false →
   app jira env req w = (Returned (PlainText "Unauthorized: No user email found" 401), w)) ∧
  (∀ id u,
     cf_access_authenticated_user_email req = Some u → u ≠ "" →
     route req = DELETE_api_releases id → u ∉ rootUsers env →
     app jira env req w =
       (Returned (Handled (Json "Unauthorized: Only root users can perform this action" 403)),
        w)).
Proof.
  split; [apply app_not_signed_in|].
  intros id u Hu Hne Hr Hroot. unfold app, requireAuth. rewrite Hu, Hr.
  destruct u as [|a u]; [done|]. simpl. unfold requireRoot, isRootUser.
  by rewrite bool_decide_eq_false_2.
Qed.

(** X8. Delete markers are set by a root user's DELETE only: whatever else is
    asked of the application, and whatever its outcome, every release stored
    before is still there, in place, with the delete markers it had. *)
Theorem delete_markers_need_root jira env req w :
  (∀ id u, route req = DELETE_api_releases id →
           cf_access_authenticated_user_email req = Some u → u ∉ rootUsers env) →
  ∃ l1 l2, release_rows (DB (app jira env req w).2) = l1 ++ l2 ∧
           Forall2 (λ r r', persisted r r' ∧ deleted_at r' = deleted_at r ∧
                            deleted_by r' = deleted_by r)
             (release_rows (DB w)) l1.
Proof.
  intros Hroot.
  assert (Hnow : holds_undeleted (release_rows (DB w)) (DB w)).
  { exists (release_rows (DB w)), []. rewrite app_nil_r. split; [done|].
    apply Forall_Forall2_diag, Forall_true. intros r. split; [apply persisted_refl|done]. }
  change (holds_undeleted (release_rows (DB w)) (DB (app jira env req w).2)).
  destruct (Js.truthy (cf_access_authenticated_user_email req)) eqn:Hu.
  2: { by rewrite app_not_signed_in. }
  unfold app, requireAuth. rewrite Hu. cbn [negb].
  set (P := holds_undeleted (release_rows (DB w))).
  assert (HP : ∀ now s db r db', no_update s → P db → Sql.exec now s db = inr (r, db') → P db')
    by (intros; by eapply holds_undeleted_kept).
  destruct (route req) as [| | |id|k] eqn:Hr.
  - done.
  - apply (keeps_bind P); [|intros; apply keeps_ret|done].
    by apply (handleGetReleases_keeps P no_update HP).
  - apply (keeps_bind P); [|intros; apply keeps_ret|done].
    by apply (handleCreateRelease_keeps P no_update HP).
  - destruct (cf_access_authenticated_user_email req) as [u|] eqn:Hh; [|done].
    specialize (Hroot id u eq_refl eq_refl). simpl. unfold requireRoot, isRootUser.
    by rewrite bool_decide_eq_false_2.
  - done.
Qed.

Lemma delete_markers_need_root_witness :
  ∃ l1 l2,
    release_rows
      (DB (app (λ _, None) (mkEnv (Some "root@x.com") None None "https://jira.example.com" false)
             (mkRequest (Some "a@x.com") (DELETE_api_releases 1) None)
             one_release_world).2) = l1 ++ l2 ∧
    Forall2 (λ r r', persisted r r' ∧ deleted_at r' = deleted_at r ∧
                     deleted_by r' = deleted_by r)
      (release_rows (DB one_release_world)) l1.
Proof.
  apply delete_markers_need_root. intros id u _ [= <-]. vm_compute.
  intros H. apply list_elem_of_singleton in H. discriminate.
Defined.

(** X9. The application always answers: whatever a binding or a handler throws
    is turned into a response. *)
Theorem app_always_answers jira env req w :
  ∃ reply, (app jira env req w).1 = Returned reply.
Proof.
  unfold app, requireAuth.
  destruct (negb (Js.truthy (cf_access_authenticated_user_email req))); [by eexists|].
  assert (Hh : ∀ (m : M Response) w0,
             (∃ r, (m w0).1 = Returned r) →
             ∃ reply, (handled m w0).1 = Returned reply).
  { intros m w0 [r Hm]. unfold handled, bind. destruct (m w0) as [[r0|e] w1]; [by eexists|done]. }
  assert (Hc : ∀ (m : M Response) h w0,
             (∀ e w1, ∃ r, (h e w1).1 = Returned r) →
             ∃ r, (try_catch m h w0).1 = Returned r).
  { intros m h w0 Hhd. unfold try_catch. destruct (m w0) as [[r0|e] w1]; [by eexists|apply Hhd]. }
  destruct (route req); try by eexists.
  - apply Hh, Hc. intros; by eexists.
  - apply Hh, Hc. intros; by eexists.
  - unfold requireRoot. destruct (negb _); [by eexists|].
    apply Hh, Hc. intros; by eexists.
Qed.

(** ** handleDeleteRelease *)

Lemma deleteRelease_never_false rid u w : (deleteRelease rid u w).1 ≠ Returned false.
Proof.
  rewrite deleteRelease_spec. destruct (hd false (failures w)); [done|].
  by destruct (tbl_releases (DB w)).
Qed.

(** X10. [handleDeleteRelease] never takes its branch [if (!success)]: it never
    answers 'Failed to delete release', whatever the store and the network,
    and it never throws. *)
Theorem handleDeleteRelease_answers c rid w :
  (handleDeleteRelease c rid w).1 ≠ Returned (Json "Failed to delete release" 500) ∧
  ∃ r, (handleDeleteRelease c rid w).1 = Returned r.
Proof.
  unfold handleDeleteRelease, try_catch, bind.
  pose proof (deleteRelease_never_false rid (userEmail c) w) as Hd.
  destruct (deleteRelease rid (userEmail c) w) as [[[|]|e] w1] eqn:Hdel; simpl in Hd.
  - cbn [negb]. destruct (fetchRecentReleases 10 w1) as [[res|e] w2] eqn:Hf; simpl.
    + split; [done|by eexists].
    + split; [|by eexists]. rewrite fetchRecentReleases_spec in Hf.
      destruct (hd false (failures w1)); [by simplify_eq|].
      cbv zeta in Hf.
      destruct (tbl_releases (DB w1)), (tbl_excluded_tickets (DB w1)); by simplify_eq.
  - done.
  - simpl. split; [|by eexists]. rewrite deleteRelease_spec in Hdel.
    destruct (hd false (failures w)); [by simplify_eq|].
    destruct (tbl_releases (DB w)); by simplify_eq.
Qed.

(** X11. With the network up, [handleDeleteRelease] marks the release and answers
    with the releases of the store it leaves that are not deleted, latest
    first, at most ten of them; it runs no guard, so without the table
    [releases] it answers 500 with the message of the error and changes
    nothing, and without the table [excluded_tickets] it answers 500 although
    the release has been marked. *)
Theorem handleDeleteRelease_outcome c rid w :
  failures w = [] →
  let marked := Sql.soft_delete (now w) (Some (userEmail c)) rid <$> release_rows (DB w) in
  match tbl_releases (DB w), tbl_excluded_tickets (DB w) with
  | None, _ =>
      (handleDeleteRelease c rid w).1
      = Returned (Json (message_of (D1Error (Sql.no_such_table "releases"))) 500)
  | Some _, None =>
      (handleDeleteRelease c rid w).1
      = Returned (Json (message_of (D1Error (Sql.no_such_table "excluded_tickets"))) 500)
  | Some _, Some _ =>
      ∃ listing active,
        (handleDeleteRelease c rid w).1 = Returned (Html listing (isRoot c)) ∧
        active ≡ₚ filter (λ r, deleted_at r = None) marked ∧
        StronglySorted (λ a b, no_earlier (created_at a) (created_at b)) active ∧
        release <$> listing = take 10 active
  end ∧
  release_rows (DB (handleDeleteRelease c rid w).2) = marked ∧
  ticket_rows (DB (handleDeleteRelease c rid w).2) = ticket_rows (DB w) ∧
  APP_STATE (handleDeleteRelease c rid w).2 = APP_STATE w.
Proof.
  intros Hf marked. subst marked. unfold handleDeleteRelease, try_catch, bind.
  rewrite deleteRelease_spec, Hf. cbn [hd].
  unfold release_rows, ticket_rows.
  destruct (tbl_releases (DB w)) as [t|] eqn:Ht; [|simpl; by rewrite Ht].
  cbn [negb]. rewrite fetchRecentReleases_spec. cbn [failures hd DB tbl_releases
    tbl_excluded_tickets]. cbv zeta.
  destruct (tbl_excluded_tickets (DB w)) as [et|] eqn:He; simpl; [|done].
  split; [|done]. rewrite records_selected.
  destruct (recent_spec 10
              (mkReleases (has_release_type t)
                 (Sql.soft_delete (now w) (Some (userEmail c)) rid <$> rows t) (seq t))
              et) as (_ & _ & _ & active & Hperm & Hsorted & Htake); [done|].
  eexists _, active. split; [reflexivity|]. split; [exact Hperm|]. split; [exact Hsorted|].
  exact Htake.
Qed.

Lemma handleDeleteRelease_outcome_witness :
  (∃ listing,
     (handleDeleteRelease some_context 2 two_release_world).1
     = Returned (Html listing false) ∧
     release <$> listing = [release_1]) ∧
  (handleDeleteRelease some_context 1 fresh_world).1
    = Returned (Json (message_of (D1Error (Sql.no_such_table "releases"))) 500).
Proof.
  split.
  - destruct (proj1 (handleDeleteRelease_outcome some_context 2 two_release_world eq_refl))
      as (listing & active & Hrun & Hperm & _ & Htake).
    exists listing. split; [exact Hrun|].
    apply Permutation_singleton_r in Hperm. by rewrite Htake, Hperm.
  - exact (proj1 (handleDeleteRelease_outcome some_context 1 fresh_world eq_refl)).
Defined.

(** ** Listing, fetching and creating together *)

Lemma recent_listed limit t et rec :
  rec ∈ recent limit t et →
  ∃ r, rec = Sql.listed (t_rows et) r ∧ r ∈ rows t ∧ deleted_at r = None.
Proof.
  unfold recent, Sql.limit_rows. intros Hin.
  assert (rec ∈ Sql.order_by_created_at_desc
            (Sql.listed (t_rows et) <$> filter (λ r, deleted_at r = None) (rows t))) as H.
  { destruct (limit <? 0); [done|]. by eapply subseteq_take. }
  rewrite order_by_perm in H.
  apply list_elem_of_fmap in H as (r & -> & [Hd Hr]%list_elem_of_filter). by exists r.
Qed.

Lemma index_insert_perm x l : Sql.index_insert x l ≡ₚ x :: l.
Proof.
  induction l as [|y l IH]; simpl; [done|].
  destruct (Sql.index_compare x y); [done|done|]. rewrite IH. apply Permutation_swap.
Qed.

Lemma index_order_perm l : Sql.index_order l ≡ₚ l.
Proof.
  unfold Sql.index_order.
  induction l as [|x l IH]; simpl; [done|]. by rewrite index_insert_perm, IH.
Qed.

Lemma index_order_short l : (length l ≤ 1)%nat → Sql.index_order l = l.
Proof. destruct l as [|x [|y l]]; simpl; [done|done|lia]. Qed.

Lemma grouped_columns r g :
  Sql.grouped r g =
    mkRecord r (comma_joined (ticket_key <$> g)) (comma_joined (omap ticket_summary g))
      (comma_joined (omap ticket_url g)).
Proof.
  unfold Sql.grouped. by rewrite group_concat_texts, !group_concat_values.
Qed.

(** X12. Every release of a listing can be fetched by its id: for every
    record of [fetchRecentReleases], whatever the limit, [fetchReleaseById]
    of its id finds a record, with the same row of [releases], which is not
    deleted.  The record of the listing carries the tickets of the release,
    the rows of [excluded_tickets] with that id, in an order of its own,
    and is the record found when the release has at most one ticket. *)
Theorem listed_can_be_fetched w n res w1 rec :
  NoDup (ids (DB w)) →
  fetchRecentReleases n w = (Returned res, w1) →
  rec ∈ records res →
  hd false (failures w1) = false →
  let tickets := filter (λ k, t_release_id k = r_id (release rec)) (ticket_rows (DB w)) in
  ∃ found,
    (fetchReleaseById (r_id (release rec)) w1).1 = Returned (Some (RowRelease found)) ∧
    release found = release rec ∧
    deleted_at (release rec) = None ∧
    (∃ shown_tickets,
       shown_tickets ≡ₚ tickets ∧
       excluded_tickets rec = comma_joined (ticket_key <$> shown_tickets) ∧
       ticket_summaries rec = comma_joined (omap ticket_summary shown_tickets) ∧
       ticket_urls rec = comma_joined (omap ticket_url shown_tickets)) ∧
    ((length tickets ≤ 1)%nat → found = rec).
Proof.
  intros Hnd Hlist Hin Hf.
  destruct (fetchRecentReleases_returned n w res w1 Hlist) as (t & et & Ht & Het & Hrec).
  assert (Hdb : DB w1 = DB w).
  { rewrite fetchRecentReleases_spec in Hlist.
    destruct (hd false (failures w)); [by simplify_eq|]. cbv zeta in Hlist.
    rewrite Ht, Het in Hlist. by simplify_eq. }
  rewrite Hrec in Hin. apply recent_listed in Hin as (r & -> & Hr & Hact).
  unfold ticket_rows. rewrite Het. cbn [from_option release Sql.listed Sql.grouped].
  exists (Sql.joined (t_rows et) r).
  rewrite fetchReleaseById_spec, Hf, Hdb, Ht, Het. cbv zeta.
  unfold matching. rewrite filter_id_unique; [| |done].
  2: { unfold ids, release_rows in Hnd. by rewrite Ht in Hnd. }
  split; [done|]. split; [done|]. split; [done|]. split.
  - exists (Sql.index_order (Sql.tickets_of (t_rows et) (r_id r))).
    split; [apply index_order_perm|]. unfold Sql.listed. by rewrite grouped_columns.
  - intros Hlen. unfold Sql.listed, Sql.joined. by rewrite index_order_short.
Qed.

Lemma listed_can_be_fetched_witness :
  ∃ found,
    (fetchReleaseById 1 (fetchRecentReleases 10 two_release_world).2).1
    = Returned (Some (RowRelease found)) ∧
    release found = release_1.
Proof.
  destruct (listed_can_be_fetched two_release_world 10
              (selected (RowRelease <$> [mkRecord release_2 (Some "XYZ-1") (Some "Rollback") None;
                                        mkRecord release_1 (Some "ABC-10,ABC-9") None None]))
              (fetchRecentReleases 10 two_release_world).2
              (mkRecord release_1 (Some "ABC-10,ABC-9") None None))
    as (found & Hrun & Hrel & _).
  - apply (bool_decide_unpack _). vm_compute. reflexivity.
  - reflexivity.
  - vm_compute. apply elem_of_cons. right. apply list_elem_of_singleton. reflexivity.
  - reflexivity.
  - by exists found.
Defined.

Lemma joined_created db t et now user tickets row :
  well_formed db → tbl_releases db = Some t → tbl_excluded_tickets db = Some et →
  r_id row = seq t + 1 →
  Forall storable tickets →
  Sql.joined (t_rows et ++ new_ticket_rows now (seq t + 1) user (t_seq et) tickets) row
  = mkRecord row (comma_joined (omap (λ k, Js.sql (key k)) tickets))
      (comma_joined (omap (λ k, Js.sql (summary k)) tickets))
      (comma_joined (omap (λ k, Js.sql (url k)) tickets)).
Proof.
  intros Hwf Ht Het Hid Hkeys.
  destruct (matching_created db t et now user tickets row 0 Hwf Ht Het Hid Hkeys)
    as [_ Hm].
  cbv zeta in Hm. unfold matching in Hm. cbn [rows t_rows] in Hm.
  assert (Hin : row ∈ filter (λ r, r_id r = seq t + 1) (rows t ++ [row])).
  { apply list_elem_of_filter. split; [done|]. apply elem_of_app. right.
    by apply list_elem_of_singleton. }
  apply (list_elem_of_fmap_2 (Sql.joined
           (t_rows et ++ new_ticket_rows now (seq t + 1) user (t_seq et) tickets))) in Hin.
  rewrite Hm in Hin. by apply list_elem_of_singleton in Hin.
Qed.

Lemma new_ticket_rows_length now rid user last ts :
  length (new_ticket_rows now rid user last ts) = length ts.
Proof. revert last. induction ts as [|t ts IH]; intros last; simpl; [done|]. by rewrite IH. Qed.

(** X13. A release that [createRelease] has stored is listed: with the network
    up, on a well-formed migrated store with fewer than N active releases,
    the row of [releases] of the record that [createRelease] returns for
    valid input is the row of one of the records that the next
    [fetchRecentReleases] with limit N returns, which are one more than the
    active releases before; with at most one ticket that record is the
    returned one. *)
Theorem created_is_listed w t et input tickets user d s ty N :
  failures w = [] →
  well_formed (DB w) →
  tbl_releases (DB w) = Some t → has_release_type t = true →
  tbl_excluded_tickets (DB w) = Some et →
  in_release_date input = Js.text d →
  in_status input = Js.text s → s ∈ ["GO"; "NO_GO"] →
  in_release_type input = Js.text ty → ty ∈ ["FULL"; "HOTFIX"] →
  Forall storable tickets →
  Z.of_nat (length (filter (λ r, deleted_at r = None) (rows t))) < N →
  ∃ rec w1 res w2 shown,
    createRelease input tickets user w = (Returned (Some (RowRelease rec)), w1) ∧
    fetchRecentReleases N w1 = (Returned res, w2) ∧
    shown ∈ records res ∧
    release shown = release rec ∧
    ((length tickets ≤ 1)%nat → shown = rec) ∧
    Z.of_nat (length (records res))
      = Z.of_nat (length (filter (λ r, deleted_at r = None) (rows t))) + 1.
Proof.
  intros Hf Hwf Ht Hcol Het Hd Hs Hsin Hty Htin Hkeys HN.
  destruct (createRelease_quiet w t et input tickets user d s ty)
    as (w1 & last & Hrun & Hf1 & Hdb1); try done.
  cbv zeta in Hrun, Hdb1.
  set (row := mkRelease _ _ _ _ _ _ _ _ _ _ _) in Hrun, Hdb1.
  set (new := new_ticket_rows _ _ _ _ _) in Hdb1.
  set (t' := mkReleases true (rows t ++ [row]) (seq t + 1)).
  set (et' := mkTickets (t_rows et ++ new) (t_seq et + Z.of_nat (length tickets))).
  destruct (recent_spec N t' et') as (_ & _ & _ & active & Hperm & _ & Hrec); [lia|].
  assert (Hact : filter (λ r, deleted_at r = None) (rows t')
                 = filter (λ r, deleted_at r = None) (rows t) ++ [row]).
  { unfold t'. cbn [rows]. rewrite filter_app. f_equal. }
  rewrite Hact in Hperm.
  assert (Hlen : length active
                 = S (length (filter (λ r, deleted_at r = None) (rows t)))).
  { rewrite Hperm, length_app. simpl. lia. }
  rewrite take_ge in Hrec by lia.
  assert (Hrow : row ∈ release <$> recent N t' et').
  { rewrite Hrec, Hperm. apply elem_of_app. right. by apply list_elem_of_singleton. }
  apply list_elem_of_fmap in Hrow as (shown & Hshown & Hin).
  eexists _, w1, _, _, shown. split; [exact Hrun|].
  rewrite fetchRecentReleases_spec, Hf1, Hdb1. cbv zeta. simpl.
  split; [reflexivity|]. rewrite records_selected. fold t' et'.
  split; [exact Hin|]. split; [done|]. split.
  - intros Hshort.
    destruct (recent_listed _ _ _ _ Hin) as (r & Heq & _). rewrite Heq in Hshown |- *.
    simpl in Hshown. subst r. cbn [t_rows et'].
    destruct (matching_created (DB w) t et (now w) user tickets row 0 Hwf Ht Het eq_refl Hkeys)
      as [Htk _].
    cbv zeta in Htk. fold new in Htk.
    unfold Sql.listed, Sql.tickets_of. cbn [r_id row]. rewrite Htk.
    rewrite index_order_short by (unfold new; by rewrite new_ticket_rows_length).
    rewrite <- Htk.
    by apply (joined_created (DB w) t et (now w) user tickets row).
  - rewrite <- (length_fmap release), Hrec, Hlen. lia.
Qed.

Lemma created_is_listed_witness :
  ∃ rec w1 res w2 shown,
    createRelease (mkInput (Js.text "2024-06-09") (Js.text "NO_GO") (Js.text "HOTFIX") Js.null)
      [mkTicketInput (Js.text "ABC-3") Js.null Js.null] "b@x.com" one_release_world
    = (Returned (Some (RowRelease rec)), w1) ∧
    fetchRecentReleases 10 w1 = (Returned res, w2) ∧
    shown ∈ records res ∧
    release shown = release rec.
Proof.
  destruct (created_is_listed one_release_world
              (mkReleases true [release_1] 1)
              (mkTickets (ticket_rows (DB one_release_world)) 2)
              (mkInput (Js.text "2024-06-09") (Js.text "NO_GO") (Js.text "HOTFIX") Js.null)
              [mkTicketInput (Js.text "ABC-3") Js.null Js.null] "b@x.com"
              "2024-06-09" "NO_GO" "HOTFIX" 10)
    as (rec & w1 & res & w2 & shown & H1 & H2 & H3 & H4 & _).
  - reflexivity.
  - apply (bool_decide_unpack _). vm_compute. reflexivity.
  - reflexivity.
  - reflexivity.
  - reflexivity.
  - reflexivity.
  - reflexivity.
  - set_solver.
  - reflexivity.
  - set_solver.
  - constructor; [|constructor]. split; [by eexists|done].
  - vm_compute. reflexivity.
  - by exists rec, w1, res, w2, shown.
Defined.

(** ** Splitting and joining by commas, and trimming *)

Lemma append_nil_l (s : string) : "" +:+ s = s.
Proof. reflexivity. Qed.

Lemma append_cons c (a b : string) : String c a +:+ b = String c (a +:+ b).
Proof. reflexivity. Qed.

Lemma append_nil_r (s : string) : s +:+ "" = s.
Proof. induction s as [|c s IH]; [done|]. by rewrite append_cons, IH. Qed.

Lemma append_assoc (a b c : string) : (a +:+ b) +:+ c = a +:+ (b +:+ c).
Proof. induction a as [|x a IH]; [done|]. by rewrite !append_cons, IH. Qed.

Lemma has_comma_app a b :
  Text.has_comma (a +:+ b) = Text.has_comma a || Text.has_comma b.
Proof.
  induction a as [|c a IH]; [done|]. rewrite append_cons. simpl.
  by rewrite IH, orb_assoc.
Qed.

Lemma split_comma_aux_plain cur s :
  Text.has_comma s = false → Js.split_comma_aux cur s = [cur +:+ s].
Proof.
  revert cur. induction s as [|c s IH]; intros cur H; simpl in *.
  - by rewrite append_nil_r.
  - apply orb_false_iff in H as [Hc Hs]. rewrite Hc, IH by done.
    by rewrite append_assoc.
Qed.

Lemma split_comma_aux_app cur s rest :
  Text.has_comma s = false →
  Js.split_comma_aux cur (s +:+ String "," rest)
  = (cur +:+ s) :: Js.split_comma_aux "" rest.
Proof.
  revert cur. induction s as [|c s IH]; intros cur H; simpl in *.
  - by rewrite append_nil_r.
  - apply orb_false_iff in H as [Hc Hs]. rewrite Hc, IH by done.
    by rewrite append_assoc.
Qed.

Lemma split_join (l : list string) :
  l ≠ [] → Forall (λ s, Text.has_comma s = false) l →
  Js.split_comma (Text.join_comma l) = l.
Proof.
  unfold Js.split_comma, Text.join_comma. intros Hne H.
  induction H as [|s l Hs Hl IH]; [done|].
  destruct l as [|s' l]; simpl.
  - by rewrite split_comma_aux_plain.
  - rewrite append_cons, append_nil_l, split_comma_aux_app by done. f_equal. by apply IH.
Qed.

Lemma join_split_aux cur s :
  Text.join_comma (Js.split_comma_aux cur s) = cur +:+ s.
Proof.
  unfold Text.join_comma. revert cur. induction s as [|c s IH]; intros cur; simpl.
  - by rewrite append_nil_r.
  - destruct (Ascii.eqb_spec c ",") as [->|Hc].
    + specialize (IH ""). simpl in IH.
      destruct (Js.split_comma_aux "" s) eqn:E; simpl in *.
      * by destruct s; simpl in E; [|destruct (Ascii.eqb _ _)].
      * by rewrite IH.
    + by rewrite IH, append_assoc.
Qed.

Lemma split_comma_aux_pieces cur s :
  Text.has_comma cur = false →
  Forall (λ p, Text.has_comma p = false) (Js.split_comma_aux cur s).
Proof.
  revert cur. induction s as [|c s IH]; intros cur H; simpl.
  - by constructor.
  - destruct (Ascii.eqb c ",") eqn:Hc.
    + constructor; [done|]. by apply IH.
    + apply IH. rewrite has_comma_app, H. simpl. by rewrite Hc.
Qed.

Lemma length_append (a b : string) :
  String.length (a +:+ b) = (String.length a + String.length b)%nat.
Proof. induction a as [|c a IH]; [done|]. rewrite append_cons. simpl. by rewrite IH. Qed.

(** A white space character is one to three bytes, none of them a comma. *)
Lemma white_space_suffix s r :
  Js.white_space s = Some r →
  ∃ p, s = p +:+ r ∧ Text.has_comma p = false ∧ (0 < String.length p)%nat.
Proof.
  destruct s as [|c1 s]; [done|]. simpl.
  destruct (Js.is_space c1) eqn:H1.
  { intros [= <-]. exists (String c1 ""). split; [done|]. split; [|simpl; lia].
    simpl. destruct (Ascii.eqb_spec c1 ",") as [->|]; [discriminate|done]. }
  destruct s as [|c2 s]; [done|].
  destruct (Js.space_of_two c1 c2) eqn:H2.
  { intros [= <-]. exists (String c1 (String c2 "")). split; [done|]. split; [|simpl; lia].
    simpl. destruct (Ascii.eqb_spec c1 ",") as [->|]; [discriminate|].
    destruct (Ascii.eqb_spec c2 ",") as [->|]; [|done].
    unfold Js.space_of_two in H2. simpl in H2. by rewrite andb_false_r in H2. }
  destruct s as [|c3 s]; [done|].
  destruct (Js.space_of_three c1 c2 c3) eqn:H3; [|done].
  intros [= <-]. exists (String c1 (String c2 (String c3 ""))).
  split; [done|]. split; [|simpl; lia]. simpl.
  destruct (Ascii.eqb_spec c1 ",") as [->|]; [discriminate|].
  destruct (Ascii.eqb_spec c2 ",") as [->|].
  { unfold Js.space_of_three in H3. simpl in H3.
    by rewrite ?andb_false_r, ?andb_false_l in H3. }
  destruct (Ascii.eqb_spec c3 ",") as [->|]; [|done].
  unfold Js.space_of_three in H3. simpl in H3.
  by rewrite ?andb_false_r, ?andb_false_l in H3.
Qed.

Lemma white_space_shorter s r :
  Js.white_space s = Some r → (String.length r < String.length s)%nat.
Proof.
  intros (p & -> & _ & Hp)%white_space_suffix. rewrite length_append. lia.
Qed.

(** What [white_space] finds depends on the bytes of the character only. *)
Lemma white_space_app a r b :
  Js.white_space a = Some r → Js.white_space (a +:+ b) = Some (r +:+ b).
Proof.
  destruct a as [|c1 a]; [done|]. rewrite append_cons. simpl.
  destruct (Js.is_space c1); [by intros [= <-]|].
  destruct a as [|c2 a]; [done|]. rewrite append_cons.
  destruct (Js.space_of_two c1 c2); [by intros [= <-]|].
  destruct a as [|c3 a]; [done|]. rewrite append_cons.
  destruct (Js.space_of_three c1 c2 c3); [by intros [= <-]|done].
Qed.

Lemma white_space_prefix a b :
  Js.white_space (a +:+ b) = None → Js.white_space a = None.
Proof.
  destruct (Js.white_space a) as [r|] eqn:Ha; [|done].
  by rewrite (white_space_app a r b Ha).
Qed.

Lemma skip_white_space_fuel n m s :
  (String.length s ≤ n)%nat → (String.length s ≤ m)%nat →
  Js.skip_white_space n s = Js.skip_white_space m s.
Proof.
  revert m s. induction n as [|n IH]; intros m s Hn Hm.
  - destruct s; [|simpl in Hn; lia]. by destruct m.
  - destruct m as [|m].
    + destruct s; [done|simpl in Hm; lia].
    + simpl. destruct (Js.white_space s) as [r|] eqn:Hr; [|done].
      apply white_space_shorter in Hr. apply IH; lia.
Qed.

Lemma trim_start_eq s :
  Js.trim_start s = match Js.white_space s with
                    | Some r => Js.trim_start r
                    | None => s
                    end.
Proof.
  unfold Js.trim_start. destruct s as [|c s]; [done|].
  cbn [String.length Js.skip_white_space].
  destruct (Js.white_space (String c s)) as [r|] eqn:Hr; [|done].
  apply white_space_shorter in Hr. simpl in Hr. apply skip_white_space_fuel; lia.
Qed.

(** Induction on the white space characters that a text begins with. *)
Lemma white_space_ind (P : string → Prop) :
  (∀ s, Js.white_space s = None → P s) →
  (∀ s r, Js.white_space s = Some r → P r → P s) →
  ∀ s, P s.
Proof.
  intros Hnone Hsome s.
  remember (String.length s) as n eqn:Hn. revert s Hn.
  induction n as [n IH] using lt_wf_ind. intros s ->.
  destruct (Js.white_space s) as [r|] eqn:Hr; [|by apply Hnone].
  apply (Hsome s r Hr). apply (IH (String.length r)); [|done].
  by apply white_space_shorter.
Qed.

Lemma trim_start_done s : Js.white_space (Js.trim_start s) = None.
Proof.
  induction s as [s Hs|s r Hr IH] using white_space_ind; rewrite trim_start_eq.
  - by rewrite Hs.
  - by rewrite Hr.
Qed.

Lemma trim_start_suffix s :
  ∃ p, s = p +:+ Js.trim_start s ∧ Text.has_comma p = false.
Proof.
  induction s as [s Hs|s r Hr (p & Hp & Hc)] using white_space_ind; rewrite trim_start_eq.
  - rewrite Hs. by exists "".
  - rewrite Hr. destruct (white_space_suffix s r Hr) as (p0 & -> & Hc0 & _).
    exists (p0 +:+ p). rewrite append_assoc, <- Hp. split; [done|].
    by rewrite has_comma_app, Hc0, Hc.
Qed.

Lemma trim_start_comma s :
  Text.has_comma s = false → Text.has_comma (Js.trim_start s) = false.
Proof.
  destruct (trim_start_suffix s) as (p & Hp & _). rewrite Hp at 1.
  rewrite has_comma_app. by intros [_ H]%orb_false_iff.
Qed.

Lemma blank_app a b :
  Text.blank a = true → Text.blank b = true → Text.blank (a +:+ b) = true.
Proof.
  unfold Text.blank. intros Ha%bool_decide_eq_true_1 Hb%bool_decide_eq_true_1.
  apply bool_decide_eq_true_2. revert Ha.
  induction a as [a Hnone|a r Hr IH] using white_space_ind; rewrite (trim_start_eq a).
  - rewrite Hnone. by intros ->.
  - rewrite Hr. intros Ha. rewrite trim_start_eq, (white_space_app a r b Hr). by apply IH.
Qed.

(** [trim_end] removes a white end of the text. *)
Lemma trim_end_split s : ∃ q, s = Text.trim_end s +:+ q ∧ Text.blank q = true.
Proof.
  induction s as [|c s (q & Hq & Hb)]; [by exists ""|]. simpl.
  destruct (Text.blank (String c s)) eqn:E; [by exists (String c s)|].
  exists q. rewrite append_cons. by rewrite <- Hq.
Qed.

Lemma trim_end_comma s :
  Text.has_comma s = false → Text.has_comma (Text.trim_end s) = false.
Proof.
  destruct (trim_end_split s) as (q & Hq & _). rewrite Hq at 1.
  rewrite has_comma_app. by intros [H _]%orb_false_iff.
Qed.

Lemma trim_end_idemp s : Text.trim_end (Text.trim_end s) = Text.trim_end s.
Proof.
  induction s as [|c s IH]; [done|]. cbn [Text.trim_end].
  destruct (Text.blank (String c s)) eqn:E; [done|].
  cbn [Text.trim_end]. rewrite IH.
  destruct (Text.blank (String c (Text.trim_end s))) eqn:E'; [|done].
  destruct (trim_end_split s) as (q & Hq & Hb).
  pose proof (blank_app _ _ E' Hb) as Hall.
  rewrite append_cons, <- Hq in Hall. congruence.
Qed.

Lemma trim_idemp s : Text.trim (Text.trim s) = Text.trim s.
Proof.
  unfold Text.trim.
  assert (Js.trim_start (Text.trim_end (Js.trim_start s)) = Text.trim_end (Js.trim_start s))
    as ->; [|apply trim_end_idemp].
  rewrite trim_start_eq.
  destruct (trim_end_split (Js.trim_start s)) as (q & Hq & _).
  pose proof (trim_start_done s) as Hdone. rewrite Hq in Hdone.
  by rewrite (white_space_prefix _ _ Hdone).
Qed.

(** ** isRootUser *)

(** X14. Nobody is root unless [ROOT_USERS] is set and not empty, and a root user
    is an entry as [isRootUser] reads it: with no comma in it and no white
    space around it. *)
Theorem root_users_are_entries env u :
  isRootUser env u = true →
  Js.truthy (ROOT_USERS env) = true ∧ Text.has_comma u = false ∧ Text.trim u = u.
Proof.
  unfold isRootUser, rootUsers. intros H%bool_decide_eq_true_1.
  destruct (Js.truthy (ROOT_USERS env)); [|by apply elem_of_nil in H].
  split; [done|]. apply list_elem_of_fmap in H as (p & -> & Hp).
  split; [|apply trim_idemp].
  apply trim_end_comma, trim_start_comma.
  pose proof (split_comma_aux_pieces "" (default "" (ROOT_USERS env)) eq_refl) as Hall.
  rewrite Forall_forall in Hall. by apply Hall.
Qed.

Lemma root_users_are_entries_witness :
  Text.trim "root@x.com" = "root@x.com".
Proof.
  refine (proj2 (proj2 (root_users_are_entries
            (mkEnv (Some "ops@x.com , root@x.com") None None "https://jira.example.com" false)
            "root@x.com" _))).
  vm_compute. reflexivity.
Defined.

(** X15. [ROOT_USERS] written as a list: when the variable is the entries [l],
    none of them holding a comma, joined by commas, the root users are the
    entries with the white space around them removed. *)
Theorem root_users_of_list (l : list string) token email base notify u :
  Forall (λ s, Text.has_comma s = false) l →
  Text.join_comma l ≠ "" →
  isRootUser (mkEnv (Some (Text.join_comma l)) token email base notify) u = true
  ↔ u ∈ Text.trim <$> l.
Proof.
  intros Hl Hne. unfold isRootUser, rootUsers. cbn [ROOT_USERS from_option id].
  assert (Js.truthy (Some (Text.join_comma l)) = true) as ->.
  { simpl. by destruct (Text.join_comma l). }
  rewrite split_join; [|by intros ->|done].
  split; [apply bool_decide_eq_true_1|apply bool_decide_eq_true_2].
Qed.

Lemma root_users_of_list_witness :
  isRootUser
    (mkEnv (Some ("ops@x.com," +:+ Text.no_break_space +:+ "root@x.com ")) None None
       "https://jira.example.com" false)
    "root@x.com" = true.
Proof.
  apply (root_users_of_list ["ops@x.com"; Text.no_break_space +:+ "root@x.com "]).
  - repeat constructor.
  - discriminate.
  - vm_compute. set_solver.
Defined.

(** ** Reading the tickets of a record back *)

Lemma omap_id_none (col : list (option string)) :
  Forall (λ v, v = None) col → omap (λ v, v) col = [].
Proof. induction 1 as [|v col -> _ IH]; [done|]. exact IH. Qed.

Lemma omap_id_some (l : list string) : omap (λ v, v) (Some <$> l) = l.
Proof.
  induction l as [|s l IH]; [done|].
  change (s :: omap (λ v, v) (Some <$> l) = s :: l). by rewrite IH.
Qed.

Lemma column_some (col : list (option string)) :
  Forall (λ v, ∃ s, v = Some s ∧ plain s) col →
  ∃ l, col = Some <$> l ∧ Forall plain l.
Proof.
  induction 1 as [|v col (s & -> & Hs) _ (l & -> & Hl)]; [by exists []|].
  exists (s :: l). split; [done|by constructor].
Qed.

Lemma join_plain (l : list string) :
  l ≠ [] → Forall plain l → Text.join_comma l ≠ "".
Proof.
  intros Hne H. destruct H as [|s l [Hs _] _]; [done|].
  unfold Text.join_comma. destruct s as [|c s]; [done|].
  destruct l; simpl; [done|]. by rewrite append_cons.
Qed.

Lemma group_concat_some (l : list string) :
  l ≠ [] → Sql.group_concat (Some <$> l) = Some (Text.join_comma l).
Proof. intros H. unfold Sql.group_concat. rewrite omap_id_some. by destruct l. Qed.

Lemma truthy_spec (s : string) : s ≠ "" → Js.truthy (Some s) = true.
Proof. by destruct s. Qed.

(** A column that is null throughout or plain throughout is read back, row
    by row, from its GROUP_CONCAT. *)
Lemma nth_field_group_concat (col : list (option string)) index v :
  column_plain col → col !! index = Some v →
  nth_field (Sql.group_concat col) index = Js.of_option v.
Proof.
  intros [Hnone|Hsome] Hv; unfold nth_field, Sql.group_concat.
  - rewrite omap_id_none by done. simpl.
    rewrite Forall_forall in Hnone. rewrite (Hnone v); [done|].
    by eapply list_elem_of_lookup_2.
  - destruct (column_some col Hsome) as (l & -> & Hl). rewrite omap_id_some.
    destruct l as [|s l]; [done|].
    change (String.concat "," (s :: l)) with (Text.join_comma (s :: l)).
    rewrite truthy_spec by (by apply join_plain). cbn [from_option id].
    rewrite split_join; [|done|].
    + rewrite list_lookup_fmap in Hv. destruct ((s :: l) !! index); simpl in Hv; by simplify_eq.
    + eapply Forall_impl; [exact Hl|]. by intros x [_ Hx].
Qed.

(** The tickets of a group are read back from its three columns. *)
Lemma grouped_read_back (r : Release) (g : list ExcludedTicket) :
  Forall (λ t, plain (ticket_key t)) g →
  column_plain (ticket_summary <$> g) →
  column_plain (ticket_url <$> g) →
  tickets_of_record (Sql.grouped r g) = shown <$> g.
Proof.
  intros Hk Hs Hu. unfold tickets_of_record, Sql.grouped.
  cbn [excluded_tickets ticket_summaries ticket_urls].
  replace ((λ t, Some (ticket_key t)) <$> g) with (Some <$> (ticket_key <$> g))
    by (by rewrite <- list_fmap_compose).
  destruct (decide (g = [])) as [->|Hne]; [done|].
  assert (Hg : ticket_key <$> g ≠ []) by (by destruct g).
  assert (Hplain : Forall plain (ticket_key <$> g)) by (by apply Forall_fmap).
  rewrite group_concat_some by done.
  rewrite truthy_spec by (by apply join_plain).
  cbn [from_option id].
  rewrite split_join; [|done|].
  2: { eapply Forall_impl; [exact Hplain|]. by intros x [_ Hx]. }
  apply list_eq. intros i. rewrite list_lookup_imap, !list_lookup_fmap.
  destruct (g !! i) as [t|] eqn:Hi; [|done]. simpl. unfold shown. f_equal. f_equal.
  - apply nth_field_group_concat; [done|]. by rewrite list_lookup_fmap, Hi.
  - apply nth_field_group_concat; [done|]. by rewrite list_lookup_fmap, Hi.
Qed.

Lemma column_plain_perm (l l' : list (option string)) :
  l ≡ₚ l' → column_plain l → column_plain l'.
Proof. intros Hp [H|H]; [left|right]; by rewrite <- Hp. Qed.

(** Texts in the order of their bytes. *)
Lemma string_compare_trans (a b c : string) :
  (a ?= b)%string ≠ Gt → (b ?= c)%string ≠ Gt → (a ?= c)%string ≠ Gt.
Proof.
  revert b c. induction a as [|x a IH]; intros [|y b] [|z c]; simpl; try done.
  unfold Ascii.compare.
  destruct (N.compare_spec (N_of_ascii x) (N_of_ascii y)),
           (N.compare_spec (N_of_ascii y) (N_of_ascii z)),
           (N.compare_spec (N_of_ascii x) (N_of_ascii z));
    try done; try lia.
  apply IH.
Qed.

Lemma string_compare_flip (a b : string) : (a ?= b)%string ≠ Lt → (b ?= a)%string ≠ Gt.
Proof. rewrite (String.compare_antisym b a). by destruct (a ?= b)%string. Qed.

Lemma index_compare_key a b :
  (Sql.index_compare a b ≠ Gt → (ticket_key a ?= ticket_key b)%string ≠ Gt) ∧
  (Sql.index_compare a b = Gt → (ticket_key b ?= ticket_key a)%string ≠ Gt).
Proof.
  unfold Sql.index_compare. split.
  - by destruct (ticket_key a ?= ticket_key b)%string.
  - intros H. apply string_compare_flip.
    by destruct (ticket_key a ?= ticket_key b)%string.
Qed.

Lemma index_insert_sorted x l :
  StronglySorted (λ a b, (ticket_key a ?= ticket_key b)%string ≠ Gt) l →
  StronglySorted (λ a b, (ticket_key a ?= ticket_key b)%string ≠ Gt) (Sql.index_insert x l).
Proof.
  induction 1 as [|y l Hl IH Hy]; simpl; [by repeat constructor|].
  destruct (Sql.index_compare x y) eqn:E.
  1,2: assert (Hxy : (ticket_key x ?= ticket_key y)%string ≠ Gt)
         by (apply (proj1 (index_compare_key x y)); by rewrite E);
       constructor; [by constructor|]; constructor; [exact Hxy|];
       eapply Forall_impl; [exact Hy|]; intros z Hz;
       by eapply string_compare_trans.
  constructor; [exact IH|]. rewrite index_insert_perm.
  constructor; [exact (proj2 (index_compare_key x y) E)|exact Hy].
Qed.

Lemma index_order_sorted l :
  StronglySorted (λ a b, (ticket_key a ?= ticket_key b)%string ≠ Gt) (Sql.index_order l).
Proof.
  unfold Sql.index_order. induction l as [|x l IH]; simpl; [constructor|].
  by apply index_insert_sorted.
Qed.

(** X16. The readers of a record, [renderReleaseRow] and [sendNotification], get
    the tickets of a release, the rows of [excluded_tickets] with its id,
    back from the three GROUP_CONCAT columns of the record when every stored
    key is a plain text (not empty, no comma) and the summaries, and the
    urls, are null in every row or a plain text in every row: from the
    record of [fetchReleaseById] in the order of their insertion, from a
    record of the listing in an order in which the keys do not decrease,
    byte by byte. *)
Theorem tickets_read_back (ts : list ExcludedTicket) (r : Release) :
  let tickets := filter (λ t, t_release_id t = r_id r) ts in
  Forall (λ t, plain (ticket_key t)) tickets →
  column_plain (ticket_summary <$> tickets) →
  column_plain (ticket_url <$> tickets) →
  tickets_of_record (Sql.joined ts r) = shown <$> tickets ∧
  ∃ sorted,
    sorted ≡ₚ tickets ∧
    StronglySorted (λ a b, (ticket_key a ?= ticket_key b)%string ≠ Gt) sorted ∧
    tickets_of_record (Sql.listed ts r) = shown <$> sorted.
Proof.
  intros tickets Hk Hs Hu. split; [by apply grouped_read_back|].
  exists (Sql.index_order tickets).
  pose proof (index_order_perm tickets) as Hperm.
  split; [done|]. split; [apply index_order_sorted|].
  apply grouped_read_back.
  - by rewrite Hperm.
  - eapply column_plain_perm; [|exact Hs]. by rewrite Hperm.
  - eapply column_plain_perm; [|exact Hu]. by rewrite Hperm.
Qed.

Lemma tickets_read_back_witness :
  tickets_of_record (Sql.joined (ticket_rows (DB two_release_world)) release_1)
  = [mkTicketInput (Js.text "ABC-9") Js.null Js.null;
     mkTicketInput (Js.text "ABC-10") Js.null Js.null].
Proof.
  apply (tickets_read_back (ticket_rows (DB two_release_world)) release_1).
  - repeat constructor; discriminate.
  - left. repeat constructor.
  - left. repeat constructor.
Defined.

(** ** The two versions of the code on each other's schema *)

(** X17. The guard of schema version 1, the network being up: it returns true;
    once the flag DB_INITIALIZED reads 'true' it touches nothing, whether the
    tables are there or not; otherwise it creates the tables that are
    missing, keeps the rows of those that are there, and sets the flag. *)
Theorem V1_initializeDatabase_outcome w :
  failures w = [] →
  (V1.initializeDatabase w).1 = Returned true ∧
  (APP_STATE w !! "DB_INITIALIZED" = Some "true" →
   DB (V1.initializeDatabase w).2 = DB w ∧
   APP_STATE (V1.initializeDatabase w).2 = APP_STATE w) ∧
  (APP_STATE w !! "DB_INITIALIZED" ≠ Some "true" →
   DB (V1.initializeDatabase w).2 = with_base_schema (DB w) ∧
   APP_STATE (V1.initializeDatabase w).2 = <["DB_INITIALIZED" := "true"]> (APP_STATE w) ∧
   release_rows (DB (V1.initializeDatabase w).2) = release_rows (DB w) ∧
   ticket_rows (DB (V1.initializeDatabase w).2) = ticket_rows (DB w)).
Proof.
  intros Hf. unfold V1.initializeDatabase, try_catch.
  rewrite (bind_step _ _ _ _ _ (kv_get_quiet "DB_INITIALIZED" w Hf)).
  case_bool_decide as Hflag.
  { simpl. split; [done|]. split; [done|]. by intros []. }
  pose proof (createInitialSchema_quiet w Hf) as Hschema.
  unfold createInitialSchema in Hschema.
  assert (Hrun : (run CreateReleases >> run CreateExcludedTickets >>
                  kv_put "DB_INITIALIZED" "true" >> ret true) w
                 = (Returned true,
                    mkWorld (<["DB_INITIALIZED" := "true"]> (APP_STATE w))
                      (with_base_schema (DB w)) (now w) []
                      (CreateExcludedTickets :: CreateReleases :: executed w))).
  { destruct w as [kv [[tr|] [te|] l] t fs ex]; simpl in Hf; subst fs; reflexivity. }
  rewrite Hrun. simpl. split; [done|]. split; [done|]. intros _.
  split; [done|]. split; [done|].
  split; [apply with_base_schema_rows|apply with_base_schema_rows].
Qed.

Lemma V1_initializeDatabase_outcome_witness :
  DB (V1.initializeDatabase fresh_world).2
  = mkDatabase (Some (mkReleases false [] 0)) (Some (mkTickets [] 0)) 0.
Proof.
  destruct (V1_initializeDatabase_outcome fresh_world eq_refl) as (_ & _ & H).
  destruct H as (H & _); [discriminate|]. rewrite H. reflexivity.
Defined.

(** X18. The current [createRelease] on a store that the guard has not migrated:
    while the table [releases] lacks the column [release_type], every call
    that reaches the database is rejected, whatever is submitted, and the
    database stays as it is; a call with an undefined date, status or type
    is refused before it reaches the database. *)
Theorem createRelease_before_migration w t release tickets user :
  hd false (failures w) = false →
  tbl_releases (DB w) = Some t → has_release_type t = false →
  (createRelease release tickets user w).1
    = Thrown
        (if bool_decide (Js.undefined ∈ [in_release_date release; in_status release;
                                         in_release_type release])
         then D1_TYPE_ERROR
         else D1Error (Sql.failed Sql.SQLITE_ERROR
                         "table releases has no column named release_type")) ∧
  DB (createRelease release tickets user w).2 = DB w.
Proof.
  intros Hf Ht Hcol. unfold createRelease. rewrite try_catch_rethrow.
  destruct (existsb Js.is_undefined
              [in_release_date release; in_status release; in_release_type release]) eqn:Hu.
  - rewrite (bind_thrown _ _ w D1_TYPE_ERROR w).
    2: { apply bind_thrown. by rewrite parameters_spec, Hu. }
    simpl. by rewrite bool_decide_eq_true_2 by (by apply undefined_among).
  - rewrite (bind_thrown _ _ w
               (D1Error (Sql.failed Sql.SQLITE_ERROR
                           "table releases has no column named release_type"))
               (mkWorld (APP_STATE w) (DB w) (now w) (tail (failures w))
                  (InsertRelease (Js.sql (in_release_date release))
                     (Js.sql (in_status release))
                     (Some (Js.sql (in_release_type release)))
                     (Js.or_null (in_explanation release)) (Some user) :: executed w))).
    2: { rewrite (bind_step _ _ w tt w) by (by rewrite parameters_spec, Hu).
         rewrite run_spec, Hf. cbn [Sql.exec]. rewrite Ht, Hcol.
         by rewrite bool_decide_eq_true_2 by (by eexists). }
    simpl. rewrite bool_decide_eq_false_2; [done|].
    intros H%undefined_among. congruence.
Qed.

Lemma createRelease_before_migration_witness :
  (createRelease (mkInput (Js.text "2024-06-02") (Js.text "GO") (Js.text "FULL") Js.null) []
     "a@x.com" (V1.initializeDatabase fresh_world).2).1
  = Thrown (D1Error (Sql.failed Sql.SQLITE_ERROR
                       "table releases has no column named release_type")).
Proof.
  refine (proj1 (createRelease_before_migration _ (mkReleases false [] 0) _ _ _ _ _ _));
    reflexivity.
Defined.

Lemma exec_insert_unnamed now db t d s e u :
  tbl_releases db = Some t → has_release_type t = true → s ∈ Sql.STATUSES →
  Sql.exec now (InsertRelease (Some d) (Some s) None e (Some u)) db =
    inr (ran 1,
         mkDatabase
           (Some (mkReleases true
                    (rows t ++ [mkRelease (seq t + 1) (Sql.affinity d) s
                                  (Some Sql.DEFAULT_RELEASE_TYPE) e u
                                  (Some now) None None None None])
                    (seq t + 1)))
           (tbl_excluded_tickets db) (seq t + 1)).
Proof.
  intros Ht Hcol Hs. simpl. rewrite Ht, Hcol. simpl.
  unfold Sql.one_of. by rewrite bool_decide_eq_true_2.
Qed.

(** X19. The [createRelease] of schema version 1 on a migrated store: its INSERT
    names no release type, and the release it stores reads 'FULL'; its date
    is the submitted text, or the number that the text reads as; the row
    stays however the rest of the call ends. *)
Theorem V1_createRelease_after_migration w t release tickets user d s :
  hd false (failures w) = false →
  tbl_releases (DB w) = Some t → has_release_type t = true →
  in_release_date release = Js.text d →
  in_status release = Js.text s → s ∈ ["GO"; "NO_GO"] →
  release_rows (DB (V1.createRelease release tickets user w).2)
  = rows t ++ [mkRelease (seq t + 1)
                 (if Sql.numeric_literal d then DateNumber d else DateText d)
                 s (Some "FULL") (Js.or_null (in_explanation release))
                 user (Some (now w)) None None None None].
Proof.
  intros Hf Ht Hcol Hd Hs Hsin.
  pose proof (exec_insert_unnamed (now w) (DB w) t d s
                (Js.or_null (in_explanation release)) user Ht Hcol Hsin) as Hx.
  change (if Sql.numeric_literal d then DateNumber d else DateText d) with (Sql.affinity d).
  set (row := mkRelease _ _ _ _ _ _ _ _ _ _ _) in *.
  assert (Hrun : (parameters [in_release_date release; in_status release] >>
                  run (InsertRelease (Js.sql (in_release_date release))
                         (Js.sql (in_status release)) None
                         (Js.or_null (in_explanation release)) (Some user))) w
                 = (Returned (ran 1),
                    mkWorld (APP_STATE w)
                      (mkDatabase (Some (mkReleases true (rows t ++ [row]) (seq t + 1)))
                         (tbl_excluded_tickets (DB w)) (seq t + 1))
                      (now w) (tail (failures w))
                      (InsertRelease (Some d) (Some s) None
                         (Js.or_null (in_explanation release)) (Some user) :: executed w))).
  { rewrite Hd, Hs. rewrite (bind_step _ _ w tt w) by done. cbn [Js.sql].
    by rewrite run_spec, Hf, Hx. }
  set (w1 := mkWorld _ _ _ _ _) in Hrun.
  pose proof (createRelease_rest_keeps
                (Some (mkReleases true (rows t ++ [row]) (seq t + 1)))
                (ran 1) tickets user w1 eq_refl) as Hkeep.
  cbv beta in Hkeep.
  unfold V1.createRelease. rewrite try_catch_rethrow, (bind_step _ _ _ _ _ Hrun).
  unfold release_rows. by rewrite Hkeep.
Qed.

Lemma V1_createRelease_after_migration_witness :
  release_rows
    (DB (V1.createRelease (mkInput (Js.text "20240609") (Js.text "NO_GO") Js.null Js.null) []
           "b@x.com" migrated_world).2)
  = [mkRelease 1 (DateNumber "20240609") "NO_GO" (Some "FULL") None "b@x.com"
       (Some 1717286400) None None None None].
Proof.
  apply (V1_createRelease_after_migration migrated_world (mkReleases true [] 0)
           (mkInput (Js.text "20240609") (Js.text "NO_GO") Js.null Js.null) [] "b@x.com"
           "20240609" "NO_GO").
  - reflexivity.
  - reflexivity.
  - reflexivity.
  - reflexivity.
  - reflexivity.
  - set_solver.
Defined.

(** ** JIRA and the tickets of a new release *)

Lemma fetchJiraTicketDetails_key jira env ticketKey details :
  fetchJiraTicketDetails jira env ticketKey = Some details →
  key details = Js.of_option ticketKey.
Proof.
  unfold fetchJiraTicketDetails.
  destruct (jira ticketKey) as [[[|] [sm|]]|]; simpl; try done. by intros [= <-].
Qed.

(** X20. The two requests to JIRA agree: with the credentials set, a ticket whose
    details [fetchJiraTicketDetails] gets is one that [validateJiraTicket]
    accepts, and the details carry the key that was asked for and the link
    to it; without the credentials [validateJiraTicket] accepts nothing,
    whatever the server would say. *)
Theorem fetched_ticket_is_valid jira env ticketKey details :
  fetchJiraTicketDetails jira env (Some ticketKey) = Some details →
  key details = Js.text ticketKey ∧
  url details = Js.text (env_JIRA_BASE_URL env +:+ "/browse/" +:+ ticketKey) ∧
  validateJiraTicket jira env ticketKey = credentials env.
Proof.
  unfold fetchJiraTicketDetails, validateJiraTicket, credentials.
  destruct (jira (Some ticketKey)) as [[[|] [sm|]]|]; simpl; try done.
  intros [= <-]. simpl. split; [done|]. split; [done|].
  by destruct (Js.truthy (JIRA_API_TOKEN env)), (Js.truthy (JIRA_USER_EMAIL env)).
Qed.

Lemma fetched_ticket_is_valid_witness :
  validateJiraTicket (λ _, Some (mkJiraResponse true (Some (Js.text "Fix login"))))
    (mkEnv None (Some "token") (Some "bot@x.com") "https://jira.example.com" false) "ABC-1"
  = true.
Proof.
  refine (proj2 (proj2 (fetched_ticket_is_valid _ _ "ABC-1" _ _))). reflexivity.
Defined.

Lemma omap_fmap_id {A B} (f : A → option B) (l : list A) :
  omap (λ t, t) (f <$> l) = omap f l.
Proof. induction l as [|x l IH]; [done|]. csimpl. by rewrite IH. Qed.

Lemma omap_Some_fmap {A B} (g : A → B) (l : list A) :
  omap (λ t, t) ((λ x, Some (g x)) <$> l) = g <$> l.
Proof. induction l as [|x l IH]; [done|]. csimpl. by rewrite IH. Qed.

Lemma fetched_storable jira env (l : list (option string)) :
  (∀ k response, jira k = Some response → fields_summary response ≠ Some Js.undefined) →
  Forall is_Some l →
  Forall storable (omap (fetchJiraTicketDetails jira env) l).
Proof.
  intros Hjira. induction 1 as [|k l [s ->] _ IH]; [constructor|].
  change (omap (fetchJiraTicketDetails jira env) (Some s :: l))
    with (match fetchJiraTicketDetails jira env (Some s) with
          | Some y => y :: omap (fetchJiraTicketDetails jira env) l
          | None => omap (fetchJiraTicketDetails jira env) l
          end).
  destruct (fetchJiraTicketDetails jira env (Some s)) as [d|] eqn:E; [|done].
  constructor; [|done]. unfold fetchJiraTicketDetails in E.
  destruct (jira (Some s)) as [response|] eqn:Hj; [|done].
  specialize (Hjira _ _ Hj).
  destruct (ok response); [|done]. simpl in E.
  destruct (fields_summary response) as [v|]; [|done].
  injection E as <-. split; [by eexists|]. split; [|done].
  simpl. by intros ->.
Qed.

(** X21. POST /api/releases on a migrated, well-formed store with the network up
    and a valid body, JIRA never answering with fields that lack a summary:
    the release is stored, with the submitted date, or the number that it
    reads as, and the list is rendered; with the JIRA credentials set, the
    tickets stored are those whose details JIRA gave, the others being left
    out without an error; without the credentials every submitted ticket is
    stored, with no summary and with the link made from its key. *)
Theorem handleCreateRelease_stores_found_tickets jira env user req w t et body d s ty :
  failures w = [] →
  CURRENT_SCHEMA_VERSION ≤ version w →
  well_formed (DB w) →
  tbl_releases (DB w) = Some t → has_release_type t = true →
  tbl_excluded_tickets (DB w) = Some et →
  req_json req = Some body →
  b_release_date body = Js.text d →
  b_status body = Js.text s → s ∈ ["GO"; "NO_GO"] →
  b_release_type body = Js.text ty → ty ∈ ["FULL"; "HOTFIX"] →
  Forall is_Some (b_tickets body) →
  (∀ k response, jira k = Some response → fields_summary response ≠ Some Js.undefined) →
  let found :=
    if credentials env
    then omap (fetchJiraTicketDetails jira env) (b_tickets body)
    else (λ k, mkTicketInput (Js.of_option k) Js.null
                 (Js.text (env_JIRA_BASE_URL env +:+ "/browse/" +:+ template k)))
         <$> b_tickets body in
  let after :=
    handleCreateRelease (fetchJiraTicketDetails jira env) (context_of env user req) w in
  (∃ l, after.1 = Returned (Html l (isRootUser env user))) ∧
  release_rows (DB after.2)
    = rows t ++ [mkRelease (seq t + 1)
                   (if Sql.numeric_literal d then DateNumber d else DateText d)
                   s (Some ty) (Js.or_null (b_explanation body)) user
                   (Some (now w)) None None None None] ∧
  ∃ new,
    ticket_rows (DB after.2) = t_rows et ++ new ∧
    Forall2 (ticket_stored (seq t + 1) user) found new.
Proof.
  intros Hf Hv Hwf Ht Hcol Het Hjson Hd Hs Hsin Hty Htin Hkeys Hjira found after.
  assert (Hfound : omap (λ t, t)
            ((λ ticket,
                if jira_configured (context_of env user req)
                then fetchJiraTicketDetails jira env ticket
                else Some (mkTicketInput (Js.of_option ticket) Js.null
                             (Js.text (JIRA_BASE_URL (context_of env user req) +:+ "/browse/"
                                       +:+ template ticket))))
             <$> b_tickets body) = found).
  { unfold found. cbn [jira_configured JIRA_BASE_URL context_of].
    destruct (credentials env); [apply omap_fmap_id|].
    apply (omap_Some_fmap (λ k, mkTicketInput (Js.of_option k) Js.null
             (Js.text (env_JIRA_BASE_URL env +:+ "/browse/" +:+ template k)))). }
  assert (Hfk : Forall storable found).
  { unfold found. destruct (credentials env); [by apply fetched_storable|].
    apply Forall_fmap. eapply Forall_impl; [exact Hkeys|]. intros k [x ->].
    split; [by eexists|]. by split. }
  destruct (createRelease_quiet w t et
              (mkInput (b_release_date body) (b_status body) (b_release_type body)
                 (b_explanation body)) found user d s ty)
    as (w1 & last & Hrun & Hf1 & Hdb1); try done.
  cbv zeta in Hrun, Hdb1. cbn [in_explanation] in Hrun, Hdb1.
  assert (Hall : ∃ l, after =
            (Returned (Html l (isRootUser env user)),
             mkWorld (APP_STATE w1) (DB w1) (now w1) [] (SelectRecent 10 :: executed w1))).
  { eexists. unfold after, handleCreateRelease, try_catch, request_json.
    cbn [json context_of]. rewrite Hjson.
    rewrite (bind_step _ _ w body w eq_refl).
    rewrite (bind_step _ _ w true w).
    2: { rewrite (initializeDatabase_current w Hv), Hf. simpl. by rewrite crossed_quiet. }
    unfold handleCreateRelease_rest. cbv zeta. rewrite Hfound.
    cbn [userEmail context_of].
    rewrite (bind_step _ _ _ _ _ Hrun).
    rewrite (bind_step _ _ w1 tt w1).
    2: { by destruct (NOTIFICATIONS _). }
    unfold bind. rewrite fetchRecentReleases_spec, Hf1, Hdb1. cbv zeta. simpl.
    reflexivity. }
  destruct Hall as [l Hall].
  rewrite Hall. cbn [fst snd DB]. rewrite Hdb1. split; [by eexists|]. split; [done|].
  eexists. split; [reflexivity|]. by apply new_ticket_rows_stored.
Qed.

Lemma handleCreateRelease_stores_found_tickets_witness :
  ∃ new,
    ticket_rows
      (DB (handleCreateRelease
             (fetchJiraTicketDetails
                (λ k, if bool_decide (k = Some "ABC-3")
                      then Some (mkJiraResponse true (Some (Js.text "Fix login")))
                      else Some (mkJiraResponse false None))
                (mkEnv None (Some "token") (Some "bot@x.com") "https://jira.example.com" false))
             (context_of
                (mkEnv None (Some "token") (Some "bot@x.com") "https://jira.example.com" false)
                "b@x.com"
                (mkRequest (Some "b@x.com") POST_api_releases
                   (Some (mkBody (Js.text "2024-06-09") (Js.text "NO_GO") (Js.text "HOTFIX")
                            Js.null [Some "ABC-3"; Some "NOPE-1"]))))
             one_release_world).2)
    = ticket_rows (DB one_release_world) ++ new ∧
    Forall2 (ticket_stored 2 "b@x.com")
      [mkTicketInput (Js.text "ABC-3") (Js.text "Fix login")
         (Js.text "https://jira.example.com/browse/ABC-3")]
      new.
Proof.
  refine (proj2 (proj2 (handleCreateRelease_stores_found_tickets _ _ _ _ one_release_world
            (mkReleases true [release_1] 1)
            (mkTickets (ticket_rows (DB one_release_world)) 2)
            (mkBody (Js.text "2024-06-09") (Js.text "NO_GO") (Js.text "HOTFIX") Js.null
               [Some "ABC-3"; Some "NOPE-1"])
            "2024-06-09" "NO_GO" "HOTFIX" _ _ _ _ _ _ _ _ _ _ _ _ _ _)));
    try reflexivity.
  - apply (bool_decide_unpack _). vm_compute. reflexivity.
  - set_solver.
  - set_solver.
  - constructor; [by eexists|]. constructor; [by eexists|]. constructor.
  - intros k response H. case_bool_decide; by simplify_eq.
Defined.

(** X23. A POST /api/releases whose body names no release type, which is what
    the form of the dashboard submits, stores nothing: with the network up
    and the schema current, [createRelease] is refused when its values are
    bound, before any statement is sent, and the answer is 500 with the
    message of that error. *)
Theorem handleCreateRelease_without_release_type jira env user req w body :
  failures w = [] →
  CURRENT_SCHEMA_VERSION ≤ version w →
  req_json req = Some body →
  b_release_type body = Js.undefined →
  let after :=
    handleCreateRelease (fetchJiraTicketDetails jira env) (context_of env user req) w in
  after.1 = Returned (Json (message_of D1_TYPE_ERROR) 500) ∧
  DB after.2 = DB w ∧
  executed after.2 = executed w.
Proof.
  intros Hf Hv Hjson Hty after.
  assert (Hall : after = (Returned (Json (message_of D1_TYPE_ERROR) 500), crossed w)).
  { unfold after, handleCreateRelease, try_catch, request_json.
    cbn [json context_of]. rewrite Hjson.
    rewrite (bind_step _ _ w body w eq_refl).
    rewrite (bind_step _ _ w true (crossed w)).
    2: { by rewrite (initializeDatabase_current w Hv), Hf. }
    unfold handleCreateRelease_rest. cbv zeta.
    erewrite bind_thrown; [reflexivity|].
    unfold createRelease. rewrite try_catch_rethrow.
    apply bind_thrown, bind_thrown. rewrite parameters_spec. cbn [in_release_type].
    rewrite Hty. simpl. by rewrite !orb_true_r. }
  by rewrite Hall.
Qed.

Lemma handleCreateRelease_without_release_type_witness :
  (handleCreateRelease (λ _, None)
     (context_of (mkEnv None None None "https://jira.example.com" false) "a@x.com"
        (mkRequest (Some "a@x.com") POST_api_releases
           (Some (mkBody (Js.text "2024-06-09") (Js.text "GO") Js.undefined (Js.text "")
                    [Some "ABC-3"]))))
     one_release_world).1
  = Returned (Json "D1_TYPE_ERROR: Type 'undefined' not supported for value 'undefined'" 500).
Proof.
  refine (proj1 (handleCreateRelease_without_release_type (λ _, None)
                   (mkEnv None None None "https://jira.example.com" false) "a@x.com"
                   (mkRequest (Some "a@x.com") POST_api_releases
                      (Some (mkBody (Js.text "2024-06-09") (Js.text "GO") Js.undefined
                               (Js.text "") [Some "ABC-3"])))
                   one_release_world _ _ _ _ _)); reflexivity.
Defined.

(** ** handleGetReleases *)

Lemma with_default_type_idemp (l : list Release) :
  Sql.with_default_type <$> (Sql.with_default_type <$> l) = Sql.with_default_type <$> l.
Proof. rewrite <- list_fmap_compose. by apply list_fmap_ext. Qed.

(** X22. GET /api/releases changes no release and no ticket, whatever the store
    and the network: the guard it runs can at most turn the release type of
    every stored release into the default 'FULL', and nothing is added,
    removed or marked as deleted. *)
Theorem handleGetReleases_frame c w :
  (release_rows (DB (handleGetReleases c w).2) = release_rows (DB w) ∨
   release_rows (DB (handleGetReleases c w).2)
     = Sql.with_default_type <$> release_rows (DB w)) ∧
  ticket_rows (DB (handleGetReleases c w).2) = ticket_rows (DB w).
Proof.
  set (P := λ db, (release_rows db = release_rows (DB w) ∨
                   release_rows db = Sql.with_default_type <$> release_rows (DB w)) ∧
                  ticket_rows db = ticket_rows (DB w)).
  set (S := λ s, match s with
                 | CreateReleases | CreateExcludedTickets | AddReleaseType
                 | SelectRecent _ => True
                 | _ => False
                 end).
  apply (handleGetReleases_keeps P S); [|done|done|by split; [left|]].
  intros now s db r db' Hs [Hr Hk] [Htr _]%exec_transition.
  unfold P, release_rows, ticket_rows in *.
  destruct Htr as [ s | Hrel | He | tr Hrel Hc | tr d s named e u Hrel Hst Hcol Hty
                  | et rid k0 sm ur u He Hin | tr u rid Hrel ]; simpl; try done.
  - rewrite Hrel in Hr. simpl in Hr. by split.
  - rewrite He in Hk. simpl in Hk. by split.
  - rewrite Hrel in Hr. simpl in Hr. split; [|done]. right.
    destruct Hr as [->| ->]; [done|apply with_default_type_idemp].
Qed.
